(** * Label placement and collision index of mapbox-gl-js

    A shallow embedding of [src/symbol/projection.js] and
    [src/symbol/collision_index.js], followed by the properties of the
    placement code that the specification states, and by further
    properties that the code shows.

    Numbers.  A JavaScript number is modelled by [num]: an exact rational,
    one of the two infinities, or NaN.  Arithmetic on finite values is exact
    (binary64 rounding and the sign of zero are not modelled); the special
    values follow IEEE 754: comparisons with NaN are false, [x / 0] is an
    infinity or NaN, [Math.min] propagates NaN.  Finite results are kept in
    lowest terms, so that equal numbers are equal terms.  The functions of
    [Math] that leave the rationals ([sqrt], [atan2], [cos], the constants)
    are an interface, [MathLib].

    Effects.  A function that the source lets mutate an object returns the
    object as the call leaves it: the projection cache, the symbol with its
    flip state, the dynamic layout array, the collision index.  A call that
    can throw, or whose loop is modelled with fuel, returns a [Completion].

    What the sources do not contain is either a parameter (the projection
    interface, the size evaluators, the fog helpers) or a definition marked
    as modelled from the specification (the spatial grid, the dynamic layout
    array, [addDynamicAttributes], the writing modes). *)

From Stdlib Require Import QArith Qabs ZArith List Bool Lia Lqa.
From stdpp Require Import base option list gmap.

Set Default Proof Using "Type".
Local Open Scope Z_scope.

(* ================================================================== *)
(** ** JavaScript numbers *)
(* ================================================================== *)

Module JS.

Inductive num : Type :=
| NaN
| NegInf
| Fin (q : Q)
| PosInf.

(** A finite value in lowest terms. *)
Definition fin (q : Q) : num := Fin (Qred q).

Definition zero : num := fin 0.
Definition one : num := fin 1.

(** Sign of a number: [Lt] negative, [Eq] zero, [Gt] positive; [None] for NaN. *)
Definition sign (x : num) : option comparison :=
  match x with
  | NaN => None
  | NegInf => Some Lt
  | Fin q => Some (Qcompare q 0)
  | PosInf => Some Gt
  end.

(** The infinity of the given sign; a zero sign gives NaN ([0 * Infinity]). *)
Definition inf_of (c : comparison) : num :=
  match c with Lt => NegInf | Eq => NaN | Gt => PosInf end.

Definition sign_mul (a b : comparison) : comparison :=
  match a, b with
  | Eq, _ | _, Eq => Eq
  | Lt, Lt | Gt, Gt => Gt
  | _, _ => Lt
  end.

Definition neg (x : num) : num :=
  match x with
  | NaN => NaN
  | NegInf => PosInf
  | Fin q => fin (- q)
  | PosInf => NegInf
  end.

Definition add (x y : num) : num :=
  match x, y with
  | NaN, _ | _, NaN => NaN
  | Fin a, Fin b => fin (a + b)
  | PosInf, NegInf | NegInf, PosInf => NaN
  | PosInf, _ | _, PosInf => PosInf
  | NegInf, _ | _, NegInf => NegInf
  end.

Definition sub (x y : num) : num := add x (neg y).

Definition mul (x y : num) : num :=
  match x, y with
  | NaN, _ | _, NaN => NaN
  | Fin a, Fin b => fin (a * b)
  | _, _ =>
      match sign x, sign y with
      | Some a, Some b => inf_of (sign_mul a b)
      | _, _ => NaN
      end
  end.

(** Division; a zero divisor is taken as [+0]. *)
Definition div (x y : num) : num :=
  match x, y with
  | NaN, _ | _, NaN => NaN
  | Fin a, Fin b =>
      match Qcompare b 0 with
      | Eq => inf_of (Qcompare a 0)
      | _ => fin (a / b)
      end
  | Fin _, _ => zero
  | _, Fin b =>
      match sign x, Qcompare b 0 with
      | Some a, Lt => inf_of (sign_mul a Lt)
      | Some a, _ => inf_of a
      | None, _ => NaN
      end
  | _, _ => NaN
  end.

Definition abs (x : num) : num :=
  match x with
  | NaN => NaN
  | NegInf | PosInf => PosInf
  | Fin q => fin (Qabs q)
  end.

(** [x < y], false as soon as one side is NaN. *)
Definition ltb (x y : num) : bool :=
  match x, y with
  | NaN, _ | _, NaN => false
  | Fin a, Fin b => negb (Qle_bool b a)
  | NegInf, NegInf | PosInf, PosInf => false
  | NegInf, _ | _, PosInf => true
  | _, _ => false
  end.

(** [x === y] on numbers. *)
Definition eqb (x y : num) : bool :=
  match x, y with
  | NaN, _ | _, NaN => false
  | Fin a, Fin b => Qeq_bool a b
  | NegInf, NegInf | PosInf, PosInf => true
  | _, _ => false
  end.

Definition leb (x y : num) : bool := ltb x y || eqb x y.
Definition gtb (x y : num) : bool := ltb y x.
Definition geb (x y : num) : bool := leb y x.

(** [Math.min] and [Math.max] of two arguments. *)
Definition min (x y : num) : num :=
  match x, y with
  | NaN, _ | _, NaN => NaN
  | _, _ => if ltb y x then y else x
  end.

Definition max (x y : num) : num :=
  match x, y with
  | NaN, _ | _, NaN => NaN
  | _, _ => if ltb x y then y else x
  end.

(** Truthiness of a number: [if (x)], [!!x]. *)
Definition truthy (x : num) : bool :=
  match x with
  | NaN => false
  | Fin q => negb (Qeq_bool q 0)
  | _ => true
  end.

Definition is_finite (x : num) : Prop :=
  match x with Fin _ => True | _ => False end.

(** The integer [z] as a number. *)
Definition of_Z (z : Z) : num := fin (inject_Z z).

(** The host's [Math] functions that are not rational. *)
Class MathLib : Type := {
  sqrt : num -> num;
  atan2 : num -> num -> num;
  (** [Math.tan(85 * Math.PI / 180)] *)
  tan85 : num;
  (** [Math.PI] *)
  PI : num;
  (** [Math.cos] *)
  cos : num -> num
}.

End JS.

Declare Scope js_scope.
Delimit Scope js_scope with J.
Bind Scope js_scope with JS.num.
Infix "+" := JS.add : js_scope.
Infix "-" := JS.sub : js_scope.
Infix "*" := JS.mul : js_scope.
Infix "/" := JS.div : js_scope.
Notation "- x" := (JS.neg x) : js_scope.
Infix "<?" := JS.ltb : js_scope.
Infix "<=?" := JS.leb : js_scope.
Infix ">?" := JS.gtb : js_scope.
Infix ">=?" := JS.geb : js_scope.
Infix "=?" := JS.eqb : js_scope.

Import JS.
Local Open Scope js_scope.

(* ================================================================== *)
(** ** Points and matrices *)
(* ================================================================== *)

(** [@mapbox/point-geometry]: the operations the placement code calls. *)
Module Point.

Record t : Type := mk { x : num; y : num }.

Definition add (p q : t) : t := mk (x p + x q) (y p + y q).
Definition sub (p q : t) : t := mk (x p - x q) (y p - y q).
Definition mult (p : t) (k : num) : t := mk (x p * k) (y p * k).
Definition div (p : t) (k : num) : t := mk (x p / k) (y p / k).
Definition perp (p : t) : t := mk (- (y p)) (x p).

Section WithMath.
Context `{MathLib}.

Definition mag (p : t) : num := sqrt (x p * x p + y p * y p).
Definition unit (p : t) : t := div p (mag p).
Definition dist (p q : t) : num :=
  let dx := x q - x p in
  let dy := y q - y p in
  sqrt (dx * dx + dy * dy).

End WithMath.
End Point.

Abbreviation Point := Point.t.

(** [gl-matrix]: a [mat4] is a flat array of 16 numbers, column major; a
    read past the end yields [undefined], NaN in arithmetic. *)
Definition Mat4 : Type := list num.

Definition mat_get (m : Mat4) (i : nat) : num := nth i m NaN.

Record Vec4 : Type := mkVec4 { v0 : num; v1 : num; v2 : num; v3 : num }.

(** [vec4.transformMat4(out, a, m)] *)
Definition transformMat4 (a : Vec4) (m : Mat4) : Vec4 :=
  let '(mkVec4 x y z w) := a in
  mkVec4
    (mat_get m 0 * x + mat_get m 4 * y + mat_get m 8 * z + mat_get m 12 * w)
    (mat_get m 1 * x + mat_get m 5 * y + mat_get m 9 * z + mat_get m 13 * w)
    (mat_get m 2 * x + mat_get m 6 * y + mat_get m 10 * z + mat_get m 14 * w)
    (mat_get m 3 * x + mat_get m 7 * y + mat_get m 11 * z + mat_get m 15 * w).

(* ================================================================== *)
(** ** [src/symbol/projection.js] *)
(* ================================================================== *)

(** The flip decision a symbol keeps from one frame to the next. *)
Inductive FlipState : Type :=
| unknown
| flipRequired
| flipNotRequired.

Global Instance FlipState_eq_dec : EqDecision FlipState.
Proof. solve_decision. Defined.

(** Modelled from the spec: [WritingMode] of [symbol/shaping.js] is not
    among the sources.  A symbol has a writing mode, horizontal or vertical;
    the symbol record stores it as a number, and a symbol may carry a number
    that is neither. *)
Module WritingMode.
Definition horizontal : Z := 1.
Definition vertical : Z := 2.
End WritingMode.

(** [xyTransformMat4]: the z output is left as it was and the w input is
    taken as 1. *)
Definition xyTransformMat4 (a : Vec4) (m : Mat4) : Vec4 :=
  let x := v0 a in
  let y := v1 a in
  mkVec4
    (mat_get m 0 * x + mat_get m 4 * y + mat_get m 12)
    (mat_get m 1 * x + mat_get m 5 * y + mat_get m 13)
    (v2 a)
    (mat_get m 3 * x + mat_get m 7 * y + mat_get m 15).

Record Projected : Type := mkProjected {
  point : Point;
  signedDistanceFromCamera : num
}.

(** [project(point, matrix, elevation = 0)] *)
Definition project (p : Point) (matrix : Mat4) (elevation : num) : Projected :=
  let pos := mkVec4 (Point.x p) (Point.y p) elevation one in
  let pos :=
    if truthy elevation then transformMat4 pos matrix
    else xyTransformMat4 pos matrix in
  let w := v3 pos in
  mkProjected (Point.mk (v0 pos / w) (v1 pos / w)) w.

Definition getPerspectiveRatio
    (cameraToCenterDistance signedDistanceFromCamera : num) : num :=
  JS.min (fin 0.5 + fin 0.5 * (cameraToCenterDistance / signedDistanceFromCamera))
         (fin 1.5).

(** The formula as the specification words it: the sum, clamped from above
    at 1.5. *)
Definition clamp_upper (v upper : num) : num :=
  match v with
  | NaN => NaN
  | _ => if v >? upper then upper else v
  end.

Definition perspectiveRatio_spec (c s : num) : num :=
  clamp_upper (fin 0.5 + fin 0.5 * c / s) (fin 1.5).

Definition isVisible (anchorPos : Vec4) (clippingBuffer : num * num) : bool :=
  let x := v0 anchorPos / v3 anchorPos in
  let y := v1 anchorPos / v3 anchorPos in
  (x >=? - (fst clippingBuffer)) &&
  (x <=? fst clippingBuffer) &&
  (y >=? - (snd clippingBuffer)) &&
  (y <=? snd clippingBuffer).


(** *** Tiles, the projection interface, symbols and arrays *)

Record CanonicalTileID : Type := mkCanonicalTileID { tz : Z; tx : Z; ty : Z }.

Record OverscaledTileID : Type := mkOverscaledTileID {
  overscaledZ : Z;
  wrap : Z;
  canonical : CanonicalTileID
}.

Definition Vec3 : Type := (num * num * num)%type.

(** The [Projection] interface of [geo/projection/projection.js], as far as
    the placement code consults it.  [is_globe] stands for
    [projection.name === 'globe']; [upVectorScale] gives the
    [metersToTile] component. *)
Record Projection : Type := mkProjection {
  is_globe : bool;
  projectTilePoint : num -> num -> CanonicalTileID -> Vec3;
  upVector : CanonicalTileID -> num -> num -> Vec3;
  upVectorScale : CanonicalTileID -> num -> num -> num
}.

(** A getter of terrain elevation, [(p: Point) => Array<number>]. *)
Definition ElevationFn : Type := Point -> Vec3.

(** One element of the [placedSymbolArray]. *)
Record PlacedSymbol : Type := mkPlacedSymbol {
  tileAnchorX : num;
  tileAnchorY : num;
  glyphStartIndex : Z;
  numGlyphs : nat;
  lineStartIndex : Z;
  lineLength : Z;
  segment : Z;
  writingMode : Z;
  lineOffsetX : num;
  lineOffsetY : num;
  hidden : bool;
  flipState : FlipState
}.

Definition set_flipState (f : FlipState) (s : PlacedSymbol) : PlacedSymbol :=
  mkPlacedSymbol (tileAnchorX s) (tileAnchorY s) (glyphStartIndex s)
    (numGlyphs s) (lineStartIndex s) (lineLength s) (segment s)
    (writingMode s) (lineOffsetX s) (lineOffsetY s) (hidden s) f.

(** Element [i] of a struct array; a read outside the array yields
    [undefined]. *)
Definition array_get {A : Type} (arr : list A) (i : Z) : option A :=
  if (i <? 0)%Z then None else arr !! Z.to_nat i.

(** [new Point(lineVertexArray.getx(i), lineVertexArray.gety(i))] *)
Definition lineVertex (lineVertexArray : list Point) (i : Z) : Point :=
  default (Point.mk NaN NaN) (array_get lineVertexArray i).

(** [glyphOffsetArray.getoffsetX(i)] *)
Definition getoffsetX (glyphOffsetArray : list num) (i : Z) : num :=
  default NaN (array_get glyphOffsetArray i).

(** *** Completions

    A call either returns, or throws (a property read on [null]), or runs
    out of the fuel given to the model of a loop. *)
Inductive Completion (A : Type) : Type :=
| Normal (a : A)
| Throw
| Diverge.
Arguments Normal {A} a.
Arguments Throw {A}.
Arguments Diverge {A}.

Global Instance Completion_ret : MRet Completion := fun _ a => Normal a.

Global Instance Completion_bind : MBind Completion := fun _ _ k c =>
  match c with
  | Normal a => k a
  | Throw => Throw
  | Diverge => Diverge
  end.

(** *** Flip decisions *)

(** [isInFlipRetainRange]: a rough estimate, in gl coordinates, of whether
    the text line is within 5 degrees of the y axis. *)
Definition isInFlipRetainRange `{MathLib}
    (firstPoint lastPoint : Point) (aspectRatio : num) : bool :=
  let deltaY := Point.y lastPoint - Point.y firstPoint in
  let deltaX := (Point.x lastPoint - Point.x firstPoint) * aspectRatio in
  if deltaX =? zero then true
  else
    let absTangent := JS.abs (deltaY / deltaX) in
    absTangent >? tan85.

(** What [requiresOrientationChange] returns, when it is not [null]:
    [{useVertical: true}] or [{needsFlipping: true}]. *)
Inductive OrientationChange : Type :=
| UseVertical
| NeedsFlipping.

(** [requiresOrientationChange]: for a horizontal symbol whose rise exceeds
    its run, the vertical glyphs; for a vertical symbol, a flip by the y
    coordinates; otherwise the decision of the frame before, when it is
    known and the points are in the retain range, or a flip by the x
    coordinates. *)
Definition requiresOrientationChange `{MathLib}
    (symbol : PlacedSymbol) (firstPoint lastPoint : Point) (aspectRatio : num)
  : option OrientationChange :=
  let rise := JS.abs (Point.y lastPoint - Point.y firstPoint) in
  let run := JS.abs (Point.x lastPoint - Point.x firstPoint) * aspectRatio in
  if (writingMode symbol =? WritingMode.horizontal)%Z && (rise >? run) then
    Some UseVertical
  else if (writingMode symbol =? WritingMode.vertical)%Z then
    if Point.y firstPoint <? Point.y lastPoint then Some NeedsFlipping else None
  else if negb (bool_decide (flipState symbol = unknown))
          && isInFlipRetainRange firstPoint lastPoint aspectRatio then
    if bool_decide (flipState symbol = flipRequired) then Some NeedsFlipping
    else None
  else
    if Point.x firstPoint >? Point.x lastPoint then Some NeedsFlipping else None.

(** The flip state that [placeGlyphsAlongLine] stores after the decision. *)
Definition flipState_of (orientationChange : option OrientationChange)
  : FlipState :=
  match orientationChange with
  | Some NeedsFlipping => flipRequired
  | _ => flipNotRequired
  end.


(** *** Projection of line vertices *)

Definition elevatePointAndProject
    (p : Point) (tileID : CanonicalTileID) (posMatrix : Mat4)
    (projection : Projection) (getElevation : option ElevationFn) : Projected :=
  let '(px, py, pz) := projectTilePoint projection (Point.x p) (Point.y p) tileID in
  match getElevation with
  | None => project (Point.mk px py) posMatrix pz
  | Some getElevation =>
      let '(e0, e1, e2) := getElevation p in
      project (Point.mk (px + e0) (py + e1)) posMatrix (pz + e2)
  end.

(** [projectTruncatedLineSegment]: the substitute for a vertex that cannot
    be projected.  The tile point one unit from [previousTilePoint], on the
    line through [currentTilePoint], is projected; the result lies
    [minimumLength] from [previousProjectedPoint] along the projected unit
    segment. *)
Definition projectTruncatedLineSegment `{MathLib}
    (previousTilePoint currentTilePoint previousProjectedPoint : Point)
    (minimumLength : num) (projectionMatrix : Mat4)
    (getElevation : option ElevationFn) (projection : Projection)
    (tileID : CanonicalTileID) : Point :=
  let unitVertex :=
    Point.add previousTilePoint
      (Point.unit (Point.sub previousTilePoint currentTilePoint)) in
  let projectedUnitVertex :=
    point (elevatePointAndProject unitVertex tileID projectionMatrix
             projection getElevation) in
  let projectedUnitSegment :=
    Point.sub previousProjectedPoint projectedUnitVertex in
  Point.add previousProjectedPoint
    (Point.mult projectedUnitSegment
       (minimumLength / Point.mag projectedUnitSegment)).

Definition interpolate (p1 p2 : Point) (a : num) : Point :=
  let b := one - a in
  Point.mk (Point.x p1 * b + Point.x p2 * a) (Point.y p1 * b + Point.y p2 * a).

(** *** [placeGlyphAlongLine] *)

(** The object [placeGlyphAlongLine] returns. *)
Record PlacedGlyph : Type := mkPlacedGlyph {
  glyph_point : Point;
  glyph_angle : num;
  glyph_path : list Point;
  glyph_tilePath : list Point
}.

(** The [projectionCache]: line vertex index to projected point. *)
Abbreviation ProjectionCache := (gmap Z Point).

(** The local variables of [placeGlyphAlongLine] that its loop updates,
    with the cache. [currentVertex] is [None] where the source holds
    [null]. *)
Record Walk : Type := mkWalk {
  currentIndex : Z;
  current : Point;
  prev : Point;
  distanceToPrev : num;
  currentSegmentDistance : num;
  pathVertices : list Point;
  tilePath : list Point;
  currentVertex : option Point;
  projectionCache : ProjectionCache
}.

Definition set_current (c : Point) (w : Walk) : Walk :=
  mkWalk (currentIndex w) c (prev w) (distanceToPrev w)
    (currentSegmentDistance w) (pathVertices w) (tilePath w)
    (currentVertex w) (projectionCache w).

Definition set_currentVertex (v : option Point) (w : Walk) : Walk :=
  mkWalk (currentIndex w) (current w) (prev w) (distanceToPrev w)
    (currentSegmentDistance w) (pathVertices w) (tilePath w)
    v (projectionCache w).

Definition set_projectionCache (c : ProjectionCache) (w : Walk) : Walk :=
  mkWalk (currentIndex w) (current w) (prev w) (distanceToPrev w)
    (currentSegmentDistance w) (pathVertices w) (tilePath w)
    (currentVertex w) c.

Definition push_tilePath (p : Point) (w : Walk) : Walk :=
  mkWalk (currentIndex w) (current w) (prev w) (distanceToPrev w)
    (currentSegmentDistance w) (pathVertices w) (tilePath w ++ [p])
    (currentVertex w) (projectionCache w).

Definition set_distances (d c : num) (w : Walk) : Walk :=
  mkWalk (currentIndex w) (current w) (prev w) d c (pathVertices w)
    (tilePath w) (currentVertex w) (projectionCache w).

Section PlaceGlyphAlongLine.
Context `{MathLib}.
Context (offsetX lineOffsetX lineOffsetY : num) (flip : bool)
        (anchorPoint tileAnchorPoint : Point)
        (anchorSegment lineStartIndex lineEndIndex : Z)
        (lineVertexArray : list Point) (labelPlaneMatrix : Mat4)
        (getElevation : option ElevationFn)
        (returnPathInTileCoords endGlyph : bool)
        (reprojection : Projection) (tileID : OverscaledTileID).

Definition combinedOffsetX : num :=
  if flip then offsetX - lineOffsetX else offsetX + lineOffsetX.

(** [dir] after the adjustment for [flip]. *)
Definition dir : Z :=
  let dir := if combinedOffsetX >? zero then 1 else -1 in
  if flip then (dir * -1)%Z else dir.

(** [angle] after the adjustments for [flip] and [dir]. *)
Definition angle : num :=
  let angle := if flip then PI else zero in
  if (dir <? 0)%Z then angle + PI else angle.

Definition absOffsetX : num := JS.abs combinedOffsetX.

Definition previousTilePoint (w : Walk) : Point :=
  let previousLineVertexIndex := (currentIndex w - dir)%Z in
  if distanceToPrev w =? zero then tileAnchorPoint
  else lineVertex lineVertexArray previousLineVertexIndex.

(** [getTruncatedLineSegment]; reading [currentVertex] when it is [null]
    throws. *)
Definition getTruncatedLineSegment (w : Walk) : Completion Point :=
  match currentVertex w with
  | None => Throw
  | Some cv =>
      Normal (projectTruncatedLineSegment (previousTilePoint w) cv (prev w)
                (absOffsetX - distanceToPrev w + one) labelPlaneMatrix
                getElevation reprojection (canonical tileID))
  end.

Definition walk_init (projectionCache : ProjectionCache) : Walk :=
  mkWalk
    (if (dir >? 0)%Z then lineStartIndex + anchorSegment
     else lineStartIndex + anchorSegment + 1)%Z
    anchorPoint anchorPoint zero zero [] [] (Some tileAnchorPoint)
    projectionCache.

(** The loop condition. *)
Definition walk_continues (w : Walk) : bool :=
  distanceToPrev w + currentSegmentDistance w <=? absOffsetX.

(** One pass through the loop body; [Normal None] is [return null]. *)
Definition walk_step (w : Walk) : Completion (option Walk) :=
  let index' := (currentIndex w + dir)%Z in
  if (index' <? lineStartIndex)%Z || (index' >=? lineEndIndex)%Z
  then Normal None
  else
    (* currentIndex += dir; prev = current; pathVertices.push(current) *)
    let w1 :=
      mkWalk index' (current w) (current w) (distanceToPrev w)
        (currentSegmentDistance w) (pathVertices w ++ [current w])
        (tilePath w) (currentVertex w) (projectionCache w) in
    (* tilePath.push(currentVertex || previousTilePoint()) *)
    let w2 :=
      if returnPathInTileCoords
      then push_tilePath (default (previousTilePoint w1) (currentVertex w1)) w1
      else w1 in
    w3 ←
      match projectionCache w2 !! index' with
      | None =>
          let w2 := set_currentVertex (Some (lineVertex lineVertexArray index')) w2 in
          let projection :=
            elevatePointAndProject (lineVertex lineVertexArray index')
              (canonical tileID) labelPlaneMatrix reprojection getElevation in
          if signedDistanceFromCamera projection >? zero then
            Normal (set_projectionCache
                      (<[index' := point projection]> (projectionCache w2))
                      (set_current (point projection) w2))
          else
            (* behind the plane of the camera: not cached *)
            truncated ← getTruncatedLineSegment w2;
            Normal (set_current truncated w2)
      | Some cached =>
          Normal (set_currentVertex None (set_current cached w2))
      end;
    Normal (Some
      (set_distances (distanceToPrev w3 + currentSegmentDistance w3)
         (Point.dist (prev w3) (current w3)) w3)).

(** The [while] loop; with the walk it ends on, [true] when the loop was
    left by its condition and [false] when it was left by [return null]. *)
Fixpoint walk (fuel : nat) (w : Walk) : Completion (bool * Walk) :=
  if walk_continues w then
    match fuel with
    | O => Diverge
    | S fuel =>
        r ← walk_step w;
        match r with
        | None => Normal (false, w)
        | Some w' => walk fuel w'
        end
    end
  else Normal (true, w).

(** The loop visits each index of the line at most once. *)
Definition walk_fuel : nat := S (Z.to_nat (lineEndIndex - lineStartIndex)).

(** Over terrain, the point of an end glyph is truncated once more and
    cached. *)
Definition truncate_end (w : Walk) : Completion Walk :=
  if endGlyph && bool_decide (is_Some getElevation) then
    let w1 :=
      set_currentVertex
        (Some (default (lineVertex lineVertexArray (currentIndex w))
                 (currentVertex w))) w in
    truncated ←
      match projectionCache w1 !! currentIndex w1 with
      | None => Normal (current w1)
      | Some _ => getTruncatedLineSegment w1
      end;
    let w2 :=
      set_projectionCache (<[currentIndex w1 := truncated]> (projectionCache w1))
        (set_current truncated w1) in
    Normal (set_distances (distanceToPrev w2)
              (Point.dist (prev w2) (current w2)) w2)
  else Normal w.

(** The glyph on the segment from [prev] to [current]. *)
Definition glyph_on_segment (w : Walk) : PlacedGlyph :=
  let segmentInterpolationT :=
    (absOffsetX - distanceToPrev w) / currentSegmentDistance w in
  let prevToCurrent := Point.sub (current w) (prev w) in
  let p := Point.add (Point.mult prevToCurrent segmentInterpolationT) (prev w) in
  let p :=
    if truthy lineOffsetY then
      Point.add p
        (Point.mult (Point.perp (Point.unit prevToCurrent))
           (lineOffsetY * of_Z dir))
    else p in
  let segmentAngle :=
    angle + atan2 (Point.y (current w) - Point.y (prev w))
                  (Point.x (current w) - Point.x (prev w)) in
  let tilePath :=
    if returnPathInTileCoords then
      let currentVertex :=
        default (lineVertex lineVertexArray (currentIndex w)) (currentVertex w) in
      let prevVertex := default currentVertex (last (tilePath w)) in
      tilePath w ++ [interpolate prevVertex currentVertex segmentInterpolationT]
    else tilePath w in
  mkPlacedGlyph p segmentAngle (pathVertices w ++ [p]) tilePath.

(** [placeGlyphAlongLine]: the glyph, or [None] for [null], and the
    projection cache as the call leaves it. *)
Definition placeGlyphAlongLine (projectionCache0 : ProjectionCache)
  : Completion (option PlacedGlyph * ProjectionCache) :=
  '(placed, w) ← walk walk_fuel (walk_init projectionCache0);
  if placed : bool then
    w ← truncate_end w;
    Normal (Some (glyph_on_segment w), projectionCache w)
  else Normal (None, projectionCache w).

End PlaceGlyphAlongLine.


(** *** The dynamic layout vertex array *)

(** Modelled from the spec: [SymbolDynamicLayoutArray] of
    [data/array_types.js] is not among the sources.  It is the dynamic
    per-glyph output buffer, a sequence of vertices of three floats
    [(x, y, z)] each; [float32] is the flat view of the same storage,
    [resize] sets the number of vertices (new ones are zero until written),
    [emplaceBack] appends one vertex at the end, and a [set] on the flat
    view copies a run of floats over the floats at an offset (a
    [RangeError] when the run does not fit). *)
Module DynamicLayout.

Definition t : Type := list Vec3.

Definition length (a : t) : nat := List.length a.

Definition clear (a : t) : t := [].

Definition resize (n : nat) (a : t) : t :=
  take n a ++ replicate (n - List.length a) (zero, zero, zero).

Definition emplaceBack (x y z : num) (a : t) : t := a ++ [(x, y, z)].

(** The flat view and its inverse. *)
Definition float32 (a : t) : list num :=
  a ≫= (fun v => let '(x, y, z) := v in [x; y; z]).

Fixpoint of_float32 (l : list num) : t :=
  match l with
  | x :: y :: z :: l => (x, y, z) :: of_float32 l
  | _ => []
  end.

Definition float32_set (src : list num) (offset : nat) (a : t)
  : Completion t :=
  let view := float32 a in
  if decide (offset + List.length src ≤ List.length view)%nat then
    Normal (of_float32
              (take offset view ++ src ++ drop (offset + List.length src) view))
  else Throw.

End DynamicLayout.

Abbreviation SymbolDynamicLayoutArray := DynamicLayout.t.

(** Modelled from the spec: [addDynamicAttributes] of
    [data/bucket/symbol_bucket.js] is not among the sources.  It writes the
    final position and rotation angle of one glyph to the output buffer, on
    each of the four vertices of the glyph's quad. *)
Definition addDynamicAttributes
    (dynamicLayoutVertexArray : SymbolDynamicLayoutArray) (p : Point)
    (angle : num) : SymbolDynamicLayoutArray :=
  Nat.iter 4 (DynamicLayout.emplaceBack (Point.x p) (Point.y p) angle)
    dynamicLayoutVertexArray.

Definition hiddenGlyphAttributes : list num :=
  [NegInf; NegInf; zero; NegInf; NegInf; zero;
   NegInf; NegInf; zero; NegInf; NegInf; zero].

(** The vertex of a hidden glyph. *)
Definition hiddenVertex : Vec3 := (NegInf, NegInf, zero).

(** [hideGlyphs]: the glyphs are moved off screen; they stay in the buffer,
    which is paired with a static buffer. *)
Fixpoint hideGlyphs (num : nat)
    (dynamicLayoutVertexArray : SymbolDynamicLayoutArray)
  : Completion SymbolDynamicLayoutArray :=
  match num with
  | O => Normal dynamicLayoutVertexArray
  | S num =>
      let offset := DynamicLayout.length dynamicLayoutVertexArray in
      resized ←
        DynamicLayout.float32_set hiddenGlyphAttributes (offset * 3)
          (DynamicLayout.resize (offset + 4) dynamicLayoutVertexArray);
      hideGlyphs num resized
  end.

(** *** Placement of the glyphs of one symbol *)

(** What [placeGlyphsAlongLine] returns: [{notEnoughRoom: true}], an
    orientation change, or [{}]; an absent property reads as [false]. *)
Record Placement : Type := mkPlacement {
  notEnoughRoom : bool;
  useVertical : bool;
  needsFlipping : bool
}.

Definition placement_of (o : OrientationChange) : Placement :=
  match o with
  | UseVertical => mkPlacement false true false
  | NeedsFlipping => mkPlacement false false true
  end.

Section PlaceGlyphs.
Context `{MathLib}.

Definition placeFirstAndLastGlyph
    (fontScale : num) (glyphOffsetArray : list num)
    (lineOffsetX lineOffsetY : num) (flip : bool)
    (anchorPoint tileAnchorPoint : Point) (symbol : PlacedSymbol)
    (lineVertexArray : list Point) (labelPlaneMatrix : Mat4)
    (projectionCache : ProjectionCache) (getElevation : option ElevationFn)
    (returnPathInTileCoords : bool) (projection : Projection)
    (tileID : OverscaledTileID)
  : Completion (option (PlacedGlyph * PlacedGlyph) * ProjectionCache) :=
  let glyphEndIndex := (glyphStartIndex symbol + Z.of_nat (numGlyphs symbol))%Z in
  let lineStartIndex := lineStartIndex symbol in
  let lineEndIndex := (lineStartIndex + lineLength symbol)%Z in
  let firstGlyphOffset := getoffsetX glyphOffsetArray (glyphStartIndex symbol) in
  let lastGlyphOffset := getoffsetX glyphOffsetArray (glyphEndIndex - 1) in
  '(firstPlacedGlyph, projectionCache) ←
    placeGlyphAlongLine (fontScale * firstGlyphOffset) lineOffsetX lineOffsetY
      flip anchorPoint tileAnchorPoint (segment symbol) lineStartIndex
      lineEndIndex lineVertexArray labelPlaneMatrix getElevation
      returnPathInTileCoords true projection tileID projectionCache;
  match firstPlacedGlyph with
  | None => Normal (None, projectionCache)
  | Some first =>
      '(lastPlacedGlyph, projectionCache) ←
        placeGlyphAlongLine (fontScale * lastGlyphOffset) lineOffsetX
          lineOffsetY flip anchorPoint tileAnchorPoint (segment symbol)
          lineStartIndex lineEndIndex lineVertexArray labelPlaneMatrix
          getElevation returnPathInTileCoords true projection tileID
          projectionCache;
      match lastPlacedGlyph with
      | None => Normal (None, projectionCache)
      | Some last => Normal (Some (first, last), projectionCache)
      end
  end.

(** The glyphs between the first and the last, in order; each call sees the
    cache the one before left. *)
Fixpoint placeInteriorGlyphs
    (glyphIndices : list Z) (place : Z -> ProjectionCache ->
       Completion (option PlacedGlyph * ProjectionCache))
    (projectionCache : ProjectionCache)
  : Completion (list (option PlacedGlyph) * ProjectionCache) :=
  match glyphIndices with
  | [] => Normal ([], projectionCache)
  | glyphIndex :: rest =>
      '(glyph, projectionCache) ← place glyphIndex projectionCache;
      '(glyphs, projectionCache) ← placeInteriorGlyphs rest place projectionCache;
      Normal (glyph :: glyphs, projectionCache)
  end.

(** The final loop of [placeGlyphsAlongLine]; reading [glyph.point] of a
    [null] glyph throws. *)
Fixpoint addPlacedGlyphs (placedGlyphs : list (option PlacedGlyph))
    (dynamicLayoutVertexArray : SymbolDynamicLayoutArray)
  : Completion SymbolDynamicLayoutArray :=
  match placedGlyphs with
  | [] => Normal dynamicLayoutVertexArray
  | None :: _ => Throw
  | Some glyph :: rest =>
      addPlacedGlyphs rest
        (addDynamicAttributes dynamicLayoutVertexArray (glyph_point glyph)
           (glyph_angle glyph))
  end.

(** The orientation decision for a label of a single glyph, from the
    projected angle of the line segment the glyph is on: the anchor and the
    next vertex of the line, or a point on the segment when that vertex is
    behind the plane of the camera. *)
Definition singleGlyphOrientation
    (symbol : PlacedSymbol) (posMatrix : Mat4) (lineVertexArray : list Point)
    (tileAnchorPoint : Point) (aspectRatio : num) (projection : Projection)
    (tileID : OverscaledTileID) : option OrientationChange :=
  let a := point (project tileAnchorPoint posMatrix zero) in
  let tileVertexIndex := (lineStartIndex symbol + segment symbol + 1)%Z in
  let tileSegmentEnd := lineVertex lineVertexArray tileVertexIndex in
  let projectedVertex := project tileSegmentEnd posMatrix zero in
  let b :=
    if signedDistanceFromCamera projectedVertex >? zero
    then point projectedVertex
    else projectTruncatedLineSegment tileAnchorPoint tileSegmentEnd a
           one posMatrix None projection (canonical tileID) in
  requiresOrientationChange symbol a b aspectRatio.

(** The state a call of [placeGlyphsAlongLine] leaves behind: the symbol
    (its flip state), the projection cache and the output array. *)
Record Placed : Type := mkPlaced {
  placement : Placement;
  placed_symbol : PlacedSymbol;
  placed_cache : ProjectionCache;
  placed_array : SymbolDynamicLayoutArray
}.

Definition placeGlyphsAlongLine
    (symbol : PlacedSymbol) (fontSize : num) (flip keepUpright : bool)
    (posMatrix labelPlaneMatrix glCoordMatrix : Mat4)
    (glyphOffsetArray : list num) (lineVertexArray : list Point)
    (dynamicLayoutVertexArray : SymbolDynamicLayoutArray)
    (anchorPoint tileAnchorPoint : Point) (projectionCache : ProjectionCache)
    (aspectRatio : num) (getElevation : option ElevationFn)
    (projection : Projection) (tileID : OverscaledTileID)
  : Completion Placed :=
  let fontScale := fontSize / fin 24 in
  let lineOffsetX := lineOffsetX symbol * fontScale in
  let lineOffsetY := lineOffsetY symbol * fontScale in
  let place (glyphIndex : Z) :=
    placeGlyphAlongLine (fontScale * getoffsetX glyphOffsetArray glyphIndex)
      lineOffsetX lineOffsetY flip anchorPoint tileAnchorPoint
      (segment symbol) (lineStartIndex symbol)
      (lineStartIndex symbol + lineLength symbol)%Z lineVertexArray
      labelPlaneMatrix getElevation false false projection tileID in
  if (1 <? numGlyphs symbol)%nat then
    let glyphEndIndex :=
      (glyphStartIndex symbol + Z.of_nat (numGlyphs symbol))%Z in
    '(firstAndLastGlyph, projectionCache) ←
      placeFirstAndLastGlyph fontScale glyphOffsetArray lineOffsetX
        lineOffsetY flip anchorPoint tileAnchorPoint symbol lineVertexArray
        labelPlaneMatrix projectionCache getElevation false projection tileID;
    match firstAndLastGlyph with
    | None =>
        Normal (mkPlaced (mkPlacement true false false) symbol projectionCache
                  dynamicLayoutVertexArray)
    | Some (first, last) =>
        let firstPoint := point (project (glyph_point first) glCoordMatrix zero) in
        let lastPoint := point (project (glyph_point last) glCoordMatrix zero) in
        let orientationChange :=
          if keepUpright && negb flip
          then requiresOrientationChange symbol firstPoint lastPoint aspectRatio
          else None in
        let symbol :=
          if keepUpright && negb flip
          then set_flipState (flipState_of orientationChange) symbol
          else symbol in
        match orientationChange with
        | Some change =>
            Normal (mkPlaced (placement_of change) symbol projectionCache
                      dynamicLayoutVertexArray)
        | None =>
            '(interior, projectionCache) ←
              placeInteriorGlyphs
                (seqZ (glyphStartIndex symbol + 1)
                      (glyphEndIndex - 1 - (glyphStartIndex symbol + 1)))
                place projectionCache;
            dynamicLayoutVertexArray ←
              addPlacedGlyphs ([Some first] ++ interior ++ [Some last])
                dynamicLayoutVertexArray;
            Normal (mkPlaced (mkPlacement false false false) symbol
                      projectionCache dynamicLayoutVertexArray)
        end
    end
  else
    (* a single glyph: the flip follows the projected angle of its segment *)
    let orientationChange :=
      if keepUpright && negb flip then
        singleGlyphOrientation symbol posMatrix lineVertexArray
          tileAnchorPoint aspectRatio projection tileID
      else None in
    let symbol :=
      if keepUpright && negb flip
      then set_flipState (flipState_of orientationChange) symbol
      else symbol in
    match orientationChange with
    | Some change =>
        Normal (mkPlaced (placement_of change) symbol projectionCache
                  dynamicLayoutVertexArray)
    | None =>
        '(singleGlyph, projectionCache) ←
          place (glyphStartIndex symbol) projectionCache;
        match singleGlyph with
        | None =>
            Normal (mkPlaced (mkPlacement true false false) symbol
                      projectionCache dynamicLayoutVertexArray)
        | Some glyph =>
            dynamicLayoutVertexArray ←
              addPlacedGlyphs [Some glyph] dynamicLayoutVertexArray;
            Normal (mkPlaced (mkPlacement false false false) symbol
                      projectionCache dynamicLayoutVertexArray)
        end
    end.

End PlaceGlyphs.


(** *** [updateLineLabels] *)

(** The camera state the placement code reads from [Transform]. *)
Record Transform : Type := mkTransform {
  width : num;
  height : num;
  cameraToCenterDistance : num;
  zoom : num;
  (** [transform.pitch], in degrees, and [transform._pitch], in radians *)
  pitch : num;
  _pitch : num;
  projection : Projection;
  (** whether [transform.elevation] is set (terrain) *)
  has_elevation : bool;
  center_lat : num;
  worldSize : num
}.

Record Painter : Type := mkPainter {
  painter_width : num;
  painter_height : num;
  transform : Transform
}.

(** The text or the icon buffers of a bucket. *)
Record SymbolBuffers : Type := mkSymbolBuffers {
  dynamicLayoutVertexArray : SymbolDynamicLayoutArray;
  placedSymbolArray : list PlacedSymbol
}.

(** Which exit of the loop body a symbol took. *)
Inductive LabelOutcome : Type :=
| SkippedHiddenOrUnpaired
| SkippedNotVisible
| SkippedBehindCamera
| Attempted (placeUnflipped : Placement).

(** The variables the loop over the symbols updates. *)
Record Labels : Type := mkLabels {
  labels_useVertical : bool;
  labels_array : SymbolDynamicLayoutArray;
  labels_symbols : list PlacedSymbol
}.

Section UpdateLineLabels.
Context `{MathLib}.
(** [symbol_size.js] is not among the sources; its two evaluators are taken
    as given. *)
Context {SizeData EvaluatedZoomSize : Type}
        (evaluateSizeForZoom : SizeData -> num -> EvaluatedZoomSize)
        (evaluateSizeForFeature :
           SizeData -> EvaluatedZoomSize -> PlacedSymbol -> num).

Record SymbolBucket : Type := mkSymbolBucket {
  textSizeData : SizeData;
  iconSizeData : SizeData;
  text : SymbolBuffers;
  icon : SymbolBuffers;
  lineVertexArray : list Point;
  glyphOffsetArray : list num
}.

Context (bucket : SymbolBucket) (posMatrix : Mat4) (painter : Painter)
        (isText : bool) (labelPlaneMatrix glCoordMatrix : Mat4)
        (pitchWithMap keepUpright : bool) (getElevation : option ElevationFn)
        (tileID : OverscaledTileID).

Definition tr : Transform := transform painter.
Definition sizeData : SizeData :=
  if isText then textSizeData bucket else iconSizeData bucket.
Definition partiallyEvaluatedSize : EvaluatedZoomSize :=
  evaluateSizeForZoom sizeData (zoom (transform painter)).
Definition clippingBuffer : num * num :=
  (fin 256 / painter_width painter * fin 2 + one,
   fin 256 / painter_height painter * fin 2 + one).
Definition aspectRatio : num :=
  width (transform painter) / height (transform painter).

(** The override of [useVertical] for a vertical symbol that does not
    follow its horizontal counterpart. *)
Definition overrideUseVertical (placedSymbols : list PlacedSymbol) (s : nat)
    (symbol : PlacedSymbol) (useVertical : bool) : bool :=
  if (writingMode symbol =? WritingMode.vertical)%Z && negb useVertical then
    if bool_decide (s = O)
       || negb (default 0%Z (writingMode <$> placedSymbols !! (s - 1)%nat)
                =? WritingMode.horizontal)%Z
    then true
    else useVertical
  else useVertical.

(** The anchor of the symbol, lifted by the elevation at the anchor. *)
Definition elevatedAnchor (symbol : PlacedSymbol) : Vec3 :=
  let tileAnchorPoint := Point.mk (tileAnchorX symbol) (tileAnchorY symbol) in
  let '(e0, e1, e2) :=
    match getElevation with
    | Some getElevation => getElevation tileAnchorPoint
    | None => (zero, zero, zero)
    end in
  let '(px, py, pz) :=
    projectTilePoint (projection tr) (Point.x tileAnchorPoint)
      (Point.y tileAnchorPoint) (canonical tileID) in
  (px + e0, py + e1, pz + e2).

Definition anchorPos (symbol : PlacedSymbol) : Vec4 :=
  let '(ex, ey, ez) := elevatedAnchor symbol in
  transformMat4 (mkVec4 ex ey ez one) posMatrix.

Definition labelPlaneAnchorPoint (symbol : PlacedSymbol) : Projected :=
  let '(ex, ey, ez) := elevatedAnchor symbol in
  project (Point.mk ex ey) labelPlaneMatrix ez.

(** One pass through the body of the loop, for the symbol at index [s]. *)
Definition updateLineLabel (s : nat) (symbol : PlacedSymbol) (st : Labels)
  : Completion (LabelOutcome * Labels) :=
  let placedSymbols := labels_symbols st in
  let dynamicLayoutVertexArray := labels_array st in
  let useVertical0 :=
    overrideUseVertical placedSymbols s symbol (labels_useVertical st) in
  if (hidden symbol || (writingMode symbol =? WritingMode.vertical)%Z)
     && negb useVertical0 then
    arr ← hideGlyphs (numGlyphs symbol) dynamicLayoutVertexArray;
    Normal (SkippedHiddenOrUnpaired, mkLabels useVertical0 arr placedSymbols)
  else
    (* [useVertical = false]: the paired vertical symbol comes right after
       its horizontal one *)
    let tileAnchorPoint := Point.mk (tileAnchorX symbol) (tileAnchorY symbol) in
    if negb (isVisible (anchorPos symbol) clippingBuffer) then
      arr ← hideGlyphs (numGlyphs symbol) dynamicLayoutVertexArray;
      Normal (SkippedNotVisible, mkLabels false arr placedSymbols)
    else
      let cameraToAnchorDistance := v3 (anchorPos symbol) in
      let perspectiveRatio :=
        getPerspectiveRatio (cameraToCenterDistance (transform painter))
          cameraToAnchorDistance in
      let fontSize :=
        evaluateSizeForFeature sizeData partiallyEvaluatedSize symbol in
      let pitchScaledFontSize :=
        if pitchWithMap then fontSize / perspectiveRatio
        else fontSize * perspectiveRatio in
      if signedDistanceFromCamera (labelPlaneAnchorPoint symbol) <=? zero then
        arr ← hideGlyphs (numGlyphs symbol) dynamicLayoutVertexArray;
        Normal (SkippedBehindCamera, mkLabels false arr placedSymbols)
      else
        let getElevationForPlacement :=
          if pitchWithMap then None else getElevation in
        placeUnflipped ←
          placeGlyphsAlongLine symbol pitchScaledFontSize false keepUpright
            posMatrix labelPlaneMatrix glCoordMatrix (glyphOffsetArray bucket)
            (lineVertexArray bucket) dynamicLayoutVertexArray
            (point (labelPlaneAnchorPoint symbol)) tileAnchorPoint ∅
            aspectRatio getElevationForPlacement (projection tr) tileID;
        let useVertical1 := useVertical (placement placeUnflipped) in
        let projectionCache :=
          if bool_decide (is_Some getElevationForPlacement)
             && needsFlipping (placement placeUnflipped)
          then ∅ else placed_cache placeUnflipped in
        let symbol := placed_symbol placeUnflipped in
        let dynamicLayoutVertexArray := placed_array placeUnflipped in
        '(hide, symbol, dynamicLayoutVertexArray) ←
          (if notEnoughRoom (placement placeUnflipped) || useVertical1
           then Normal (true, symbol, dynamicLayoutVertexArray)
           else if needsFlipping (placement placeUnflipped) then
             placeFlipped ←
               placeGlyphsAlongLine symbol pitchScaledFontSize true keepUpright
                 posMatrix labelPlaneMatrix glCoordMatrix
                 (glyphOffsetArray bucket) (lineVertexArray bucket)
                 dynamicLayoutVertexArray
                 (point (labelPlaneAnchorPoint symbol)) tileAnchorPoint
                 projectionCache aspectRatio getElevationForPlacement
                 (projection tr) tileID;
             Normal (notEnoughRoom (placement placeFlipped),
                     placed_symbol placeFlipped, placed_array placeFlipped)
           else Normal (false, symbol, dynamicLayoutVertexArray));
        arr ←
          (if hide : bool
           then hideGlyphs (numGlyphs symbol) dynamicLayoutVertexArray
           else Normal dynamicLayoutVertexArray);
        Normal (Attempted (placement placeUnflipped),
                mkLabels useVertical1 arr (<[s := symbol]> placedSymbols)).

(** The variables of the loop over the symbols when it reaches index [s]:
    the array is cleared, [useVertical] starts [false], and the body has run
    for the symbols before [s] in the order of the array. *)
Fixpoint labels_before (s : nat) : Completion Labels :=
  match s with
  | O =>
      let buffers := if isText then text bucket else icon bucket in
      Normal (mkLabels false
                (DynamicLayout.clear (dynamicLayoutVertexArray buffers))
                (placedSymbolArray buffers))
  | S s =>
      st ← labels_before s;
      match labels_symbols st !! s with
      | None => Normal st
      | Some symbol =>
          '(_, st) ← updateLineLabel s symbol st;
          Normal st
      end
  end.

(** [updateLineLabels]: the buffers as the call leaves them, the array
    being what is handed to [dynamicLayoutVertexBuffer.updateData]. *)
Definition updateLineLabels : Completion SymbolBuffers :=
  let buffers := if isText then text bucket else icon bucket in
  st ← labels_before (List.length (placedSymbolArray buffers));
  Normal (mkSymbolBuffers (labels_array st) (labels_symbols st)).

End UpdateLineLabels.


(* ================================================================== *)
(** ** [src/symbol/collision_index.js] *)
(* ================================================================== *)

(** Modelled from the spec: the spatial grid of [symbol/grid_index.js] is
    not among the sources; the specification gives its contract only.  A
    grid has a size and holds the boxes inserted so far, each under its key;
    [hitTest] reports whether an entry that the optional predicate on keys
    allows intersects the box asked for. *)
Module Grid.

Record Key : Type := mkKey {
  bucketInstanceId : Z;
  featureIndex : Z;
  collisionGroupID : Z
}.

Record Entry : Type := mkEntry {
  key : Key;
  x1 : num;
  y1 : num;
  x2 : num;
  y2 : num
}.

Record t : Type := mk {
  width : num;
  height : num;
  cellSize : num;
  entries : list Entry
}.

Definition empty (width height cellSize : num) : t :=
  mk width height cellSize [].

Definition insert (k : Key) (x1 y1 x2 y2 : num) (g : t) : t :=
  mk (width g) (height g) (cellSize g) (entries g ++ [mkEntry k x1 y1 x2 y2]).

(** Two boxes intersect when they share a point. *)
Definition intersects (ax1 ay1 ax2 ay2 bx1 by1 bx2 by2 : num) : bool :=
  (ax1 <=? bx2) && (ay1 <=? by2) && (ax2 >=? bx1) && (ay2 >=? by1).

Definition allows (predicate : option (Key -> bool)) (k : Key) : bool :=
  match predicate with
  | None => true
  | Some predicate => predicate k
  end.

Definition hitTest (x1' y1' x2' y2' : num) (predicate : option (Key -> bool))
    (g : t) : bool :=
  existsb
    (fun e =>
       intersects x1' y1' x2' y2' (x1 e) (y1 e) (x2 e) (y2 e)
       && allows predicate (key e))
    (entries g).

End Grid.

Definition viewportPadding : num := fin 100.

(** A [SingleCollisionBox]; [elevation] and [tileID] may be undefined. *)
Record SingleCollisionBox : Type := mkSingleCollisionBox {
  box_x1 : num;
  box_y1 : num;
  box_x2 : num;
  box_y2 : num;
  padding : num;
  projectedAnchorX : num;
  projectedAnchorY : num;
  projectedAnchorZ : num;
  box_tileAnchorX : num;
  box_tileAnchorY : num;
  box_elevation : option num;
  box_tileID : option OverscaledTileID
}.

Record UnwrappedTileID : Type := mkUnwrappedTileID {
  unwrapped_wrap : Z;
  unwrapped_canonical : CanonicalTileID
}.

Definition toUnwrapped (tileID : OverscaledTileID) : UnwrappedTileID :=
  mkUnwrappedTileID (wrap tileID) (canonical tileID).

(** The point [projectAndGetPerspectiveRatio] returns. *)
Record ProjectedPoint : Type := mkProjectedPoint {
  pp_point : Point;
  pp_perspectiveRatio : num;
  pp_signedDistanceFromCamera : num;
  pp_occluded : bool
}.

(** What [placeCollisionBox] returns. *)
Record PlacedBox : Type := mkPlacedBox {
  box : list num;
  offscreen : bool;
  occluded : bool
}.

Section CollisionIndex.
Context `{MathLib}.
(** [style/fog_helpers.js] is not among the sources; the fog state, the fog
    opacity at a tile coordinate and the clipping threshold are taken as
    given. *)
Context {FogState : Type}
        (getFogOpacityAtTileCoord :
           FogState -> num -> num -> num -> UnwrappedTileID -> Transform -> num)
        (FOG_SYMBOL_CLIPPING_THRESHOLD : num).

Record CollisionIndex : Type := mkCollisionIndex {
  grid : Grid.t;
  ignoredGrid : Grid.t;
  ci_transform : Transform;
  pitchfactor : num;
  screenRightBoundary : num;
  screenBottomBoundary : num;
  gridRightBoundary : num;
  gridBottomBoundary : num;
  fogState : option FogState
}.

(** The constructor; the grids default to empty ones of the padded size. *)
Definition newCollisionIndex (transform : Transform)
    (fogState : option FogState) (grid ignoredGrid : option Grid.t)
  : CollisionIndex :=
  let fresh :=
    Grid.empty (width transform + fin 2 * viewportPadding)
      (height transform + fin 2 * viewportPadding) (fin 25) in
  mkCollisionIndex (default fresh grid) (default fresh ignoredGrid) transform
    (cos (_pitch transform) * cameraToCenterDistance transform)
    (width transform + viewportPadding)
    (height transform + viewportPadding)
    (width transform + fin 2 * viewportPadding)
    (height transform + fin 2 * viewportPadding)
    fogState.

Definition set_grids (grid ignoredGrid : Grid.t) (ci : CollisionIndex)
  : CollisionIndex :=
  mkCollisionIndex grid ignoredGrid (ci_transform ci) (pitchfactor ci)
    (screenRightBoundary ci) (screenBottomBoundary ci)
    (gridRightBoundary ci) (gridBottomBoundary ci) (fogState ci).

Definition isOffscreen (ci : CollisionIndex) (x1 y1 x2 y2 : num) : bool :=
  (x2 <? viewportPadding) || (x1 >=? screenRightBoundary ci)
  || (y2 <? viewportPadding) || (y1 >? screenBottomBoundary ci).

Definition isInsideGrid (ci : CollisionIndex) (x1 y1 x2 y2 : num) : bool :=
  (x2 >=? zero) && (x1 <? gridRightBoundary ci)
  && (y2 >=? zero) && (y1 <? gridBottomBoundary ci).

Definition projectAndGetPerspectiveRatio (ci : CollisionIndex)
    (posMatrix : Mat4) (point : Vec3) (tileID : option OverscaledTileID)
    (checkOcclusion : bool) : ProjectedPoint :=
  let '(p0, p1, p2) := point in
  let p := mkVec4 p0 p1 p2 one in
  let '(p, behindFog) :=
    if truthy p2 || (pitch (ci_transform ci) >? zero) then
      (transformMat4 p posMatrix,
       match fogState ci, tileID with
       | Some fogState, Some tileID =>
           let fogOpacity :=
             getFogOpacityAtTileCoord fogState p0 p1 p2 (toUnwrapped tileID)
               (ci_transform ci) in
           fogOpacity >? FOG_SYMBOL_CLIPPING_THRESHOLD
       | _, _ => false
       end)
    else (xyTransformMat4 p posMatrix, false) in
  let a :=
    Point.mk
      (((v0 p / v3 p + one) / fin 2) * width (ci_transform ci) + viewportPadding)
      (((- (v1 p) / v3 p + one) / fin 2) * height (ci_transform ci)
       + viewportPadding) in
  mkProjectedPoint a
    (JS.min (fin 0.5 + fin 0.5 * (cameraToCenterDistance (ci_transform ci) / v3 p))
            (fin 1.5))
    (v3 p)
    ((checkOcclusion && (v2 p >? v3 p)) || behindFog).

(** The anchor of the box, lifted along the up vector by its elevation. *)
Definition boxAnchor (ci : CollisionIndex) (collisionBox : SingleCollisionBox)
  : Vec3 :=
  let anchorX := projectedAnchorX collisionBox in
  let anchorY := projectedAnchorY collisionBox in
  let anchorZ := projectedAnchorZ collisionBox in
  match box_elevation collisionBox, box_tileID collisionBox with
  | Some elevation, Some tileID =>
      if truthy elevation then
        let '(up0, up1, up2) :=
          upVector (projection (ci_transform ci)) (canonical tileID)
            (box_tileAnchorX collisionBox) (box_tileAnchorY collisionBox) in
        let upScale :=
          upVectorScale (projection (ci_transform ci)) (canonical tileID)
            (center_lat (ci_transform ci)) (worldSize (ci_transform ci)) in
        (anchorX + up0 * elevation * upScale,
         anchorY + up1 * elevation * upScale,
         anchorZ + up2 * elevation * upScale)
      else (anchorX, anchorY, anchorZ)
  | _, _ => (anchorX, anchorY, anchorZ)
  end.

(** [checkOcclusion] and [projectedPoint] of [placeCollisionBox]. *)
Definition boxProjectedPoint (ci : CollisionIndex)
    (collisionBox : SingleCollisionBox) (posMatrix : Mat4) : ProjectedPoint :=
  let checkOcclusion :=
    is_globe (projection (ci_transform ci))
    || default false (truthy <$> box_elevation collisionBox)
    || (pitch (ci_transform ci) >? zero) in
  projectAndGetPerspectiveRatio ci posMatrix (boxAnchor ci collisionBox)
    (box_tileID collisionBox) checkOcclusion.

(** The corners [tlX, tlY, brX, brY] of the box in the viewport. *)
Definition boxCorners (ci : CollisionIndex) (scale : num)
    (collisionBox : SingleCollisionBox) (shift : Point)
    (textPixelRatio : num) (posMatrix : Mat4) : num * num * num * num :=
  let projectedPoint := boxProjectedPoint ci collisionBox posMatrix in
  let tileToViewport := textPixelRatio * pp_perspectiveRatio projectedPoint in
  let tlX := (box_x1 collisionBox * scale + Point.x shift - padding collisionBox)
             * tileToViewport + Point.x (pp_point projectedPoint) in
  let tlY := (box_y1 collisionBox * scale + Point.y shift - padding collisionBox)
             * tileToViewport + Point.y (pp_point projectedPoint) in
  let brX := (box_x2 collisionBox * scale + Point.x shift + padding collisionBox)
             * tileToViewport + Point.x (pp_point projectedPoint) in
  let brY := (box_y2 collisionBox * scale + Point.y shift + padding collisionBox)
             * tileToViewport + Point.y (pp_point projectedPoint) in
  (tlX, tlY, brX, brY).

Definition minPerspectiveRatio : num := fin 0.55.

(** The assertion at the head of [placeCollisionBox] holds: there is no
    terrain, or the box carries an elevation. *)
Definition elevation_asserted (ci : CollisionIndex)
    (collisionBox : SingleCollisionBox) : Prop :=
  has_elevation (ci_transform ci) = false
  \/ is_Some (box_elevation collisionBox).

(** [placeCollisionBox], a method of the index: its result and the index as
    the call leaves it.  The assertion at its head throws when terrain is on
    and the box carries no elevation. *)
Definition placeCollisionBox (scale : num)
    (collisionBox : SingleCollisionBox) (shift : Point) (allowOverlap : bool)
    (textPixelRatio : num) (posMatrix : Mat4)
    (collisionGroupPredicate : option (Grid.Key -> bool))
    (ci : CollisionIndex)
  : Completion (PlacedBox * CollisionIndex) :=
  if has_elevation (ci_transform ci)
     && negb (bool_decide (is_Some (box_elevation collisionBox)))
  then Throw
  else
    let projectedPoint := boxProjectedPoint ci collisionBox posMatrix in
    let '(tlX, tlY, brX, brY) :=
      boxCorners ci scale collisionBox shift textPixelRatio posMatrix in
    let isClipped :=
      (pp_perspectiveRatio projectedPoint <=? minPerspectiveRatio)
      || pp_occluded projectedPoint in
    if negb (isInsideGrid ci tlX tlY brX brY)
       || (negb allowOverlap
           && Grid.hitTest tlX tlY brX brY collisionGroupPredicate (grid ci))
       || isClipped
    then Normal (mkPlacedBox [] false (pp_occluded projectedPoint), ci)
    else
      Normal (mkPlacedBox [tlX; tlY; brX; brY]
                (isOffscreen ci tlX tlY brX brY) false, ci).

(** [insertCollisionBox]: the index after the insertion; a coordinate the
    array does not hold reads as [undefined]. *)
Definition insertCollisionBox (collisionBox : list num)
    (ignorePlacement : bool) (bucketInstanceId featureIndex collisionGroupID : Z)
    (ci : CollisionIndex) : CollisionIndex :=
  let key := Grid.mkKey bucketInstanceId featureIndex collisionGroupID in
  let insert :=
    Grid.insert key (nth 0 collisionBox NaN) (nth 1 collisionBox NaN)
      (nth 2 collisionBox NaN) (nth 3 collisionBox NaN) in
  if ignorePlacement
  then set_grids (grid ci) (insert (ignoredGrid ci)) ci
  else set_grids (insert (grid ci)) (ignoredGrid ci) ci.

End CollisionIndex.


(* ================================================================== *)
(** ** A host and a scene for examples *)
(* ================================================================== *)

Module Example.

(** Square root, exact on the squares of rationals (and rounded towards
    zero, numerator and denominator apart, elsewhere). *)
Definition sqrt (x : num) : num :=
  match x with
  | NaN | NegInf => NaN
  | PosInf => PosInf
  | Fin q =>
      if Qle_bool 0 q then fin (Z.sqrt (Qnum q) # Pos.sqrt (Qden q)) else NaN
  end.

Definition PI : num := fin 3.141592653589793.

(** [Math.atan2], on the directions of the axes; it is not defined here for
    other directions. *)
Definition atan2 (y x : num) : num :=
  match sign y, sign x with
  | Some Eq, Some Gt => zero
  | Some Eq, Some Lt => PI
  | Some Gt, Some Eq => PI / fin 2
  | Some Lt, Some Eq => - (PI / fin 2)
  | Some Eq, Some Eq => zero
  | _, _ => NaN
  end.

(** [Math.cos], at zero. *)
Definition cos (x : num) : num := if x =? zero then one else NaN.

(** The double next to the tangent of 85 degrees. *)
Definition tan85 : num := fin 11.430052302761348.

Definition math : MathLib := {|
  JS.sqrt := sqrt;
  JS.atan2 := atan2;
  JS.tan85 := tan85;
  JS.PI := PI;
  JS.cos := cos
|}.

Definition identity : Mat4 :=
  [one; zero; zero; zero;
   zero; one; zero; zero;
   zero; zero; one; zero;
   zero; zero; zero; one].

(** From tile units to clip space: a tile unit is a hundredth of the half
    width of the viewport. *)
Definition tileToClip : Mat4 :=
  [fin 0.01; zero; zero; zero;
   zero; fin 0.01; zero; zero;
   zero; zero; one; zero;
   zero; zero; zero; one].

(** A flat projection that leaves tile points where they are. *)
Definition flat : Projection :=
  mkProjection false (fun x y _ => (x, y, zero))
    (fun _ _ _ => (zero, zero, one)) (fun _ _ _ => one).

Definition tile : OverscaledTileID :=
  mkOverscaledTileID 0 0 (mkCanonicalTileID 0 0 0).

(** An 800 by 600 viewport, seen from straight above. *)
Definition camera : Transform :=
  mkTransform (fin 800) (fin 600) one zero zero zero flat false zero (fin 512).

Definition painter : Painter := mkPainter (fin 800) (fin 600) camera.

(** No fog. *)
Definition fogOpacity (_ : unit) (_ _ _ : num) (_ : UnwrappedTileID)
    (_ : Transform) : num := zero.

Definition index : CollisionIndex (FogState := unit) :=
  newCollisionIndex (H := math) camera None None None.

(** Two boxes around the centre of the viewport that overlap. *)
Definition boxA : SingleCollisionBox :=
  mkSingleCollisionBox (fin (-10)) (fin (-10)) (fin 10) (fin 10) zero
    zero zero zero zero zero None None.

Definition boxB : SingleCollisionBox :=
  mkSingleCollisionBox zero zero (fin 20) (fin 20) zero
    zero zero zero zero zero None None.

(** A box ten times as far from the camera as the centre of the map:
    [w = 10] through the last row of the matrix. *)
Definition distant : Mat4 :=
  [one; zero; zero; zero;
   zero; one; zero; zero;
   zero; zero; one; zero;
   zero; zero; zero; fin 10].

(** A line along the x axis, with vertices at 0, 50 and 100. *)
Definition line : list Point :=
  [Point.mk zero zero; Point.mk (fin 50) zero; Point.mk (fin 100) zero].

(** A horizontal symbol of one glyph anchored at the middle of [line], and
    its vertical counterpart. *)
Definition horizontalSymbol : PlacedSymbol :=
  mkPlacedSymbol (fin 50) zero 0 1 0 3 1 WritingMode.horizontal
    zero zero false unknown.

Definition verticalSymbol : PlacedSymbol :=
  mkPlacedSymbol (fin 50) zero 1 1 0 3 1 WritingMode.vertical
    zero zero false unknown.

(** A symbol whose flip state is known, its writing mode neither horizontal
    nor vertical. *)
Definition flippedSymbol : PlacedSymbol :=
  mkPlacedSymbol (fin 50) zero 0 2 0 3 1 0 zero zero false flipRequired.

(** A symbol whose anchor is far to the right of the viewport. *)
Definition farSymbol : PlacedSymbol :=
  mkPlacedSymbol (fin 500) zero 0 3 0 3 1 WritingMode.horizontal
    zero zero false unknown.

(** A text size of 24 for every symbol. *)
Definition evaluateSizeForZoom (_ : unit) (_ : num) : unit := tt.
Definition evaluateSizeForFeature (_ _ : unit) (_ : PlacedSymbol) : num :=
  fin 24.

(** A bucket with the given text symbols along [line], each glyph 30 units
    after the anchor. *)
Definition bucketOf (symbols : list PlacedSymbol)
  : SymbolBucket (SizeData := unit) :=
  mkSymbolBucket tt tt (mkSymbolBuffers [] symbols) (mkSymbolBuffers [] [])
    line [fin 30; fin 30; fin 30].

(** A label plane that recedes along the x axis: [w = 1 - x / 75], so that
    the anchor at 50 is in front of the camera and the vertex at 100 is
    behind its plane. *)
Definition receding : Mat4 :=
  [one; zero; zero; fin (-1 # 75);
   zero; one; zero; zero;
   zero; zero; one; zero;
   zero; zero; zero; one].

End Example.

(* ================================================================== *)
(** ** Further functions of the two files *)
(* ================================================================== *)

(** [projectVector(point, matrix)]: the full transform of a point given with
    its three coordinates. *)
Definition projectVector (p : Vec3) (matrix : Mat4) : Projected :=
  let '(p0, p1, p2) := p in
  let pos := transformMat4 (mkVec4 p0 p1 p2 one) matrix in
  let w := v3 pos in
  mkProjected (Point.mk (v0 pos / w) (v1 pos / w)) w.


(** *** [queryRenderedSymbols] *)

(** The state of the loop over the features found: [seenFeatures], from a
    bucket to the set of its feature indices seen, and [result], from a
    bucket to the list of its feature indices. *)
Abbreviation SeenFeatures := (gmap Z (gset Z)).
Abbreviation QueryResult := (gmap Z (list Z)).

(** The first loop: the query polygon in grid coordinates and its bounding
    box [minX, minY, maxX, maxY]. *)
Definition queryBounds (viewportQueryGeometry : list Point)
  : list Point * (num * num * num * num) :=
  fold_left
    (fun '(query, (minX, minY, maxX, maxY)) point =>
       let gridPoint :=
         Point.mk (Point.x point + viewportPadding)
                  (Point.y point + viewportPadding) in
       (query ++ [gridPoint],
        (JS.min minX (Point.x gridPoint), JS.min minY (Point.y gridPoint),
         JS.max maxX (Point.x gridPoint), JS.max maxY (Point.y gridPoint))))
    viewportQueryGeometry
    ([], (PosInf, PosInf, NegInf, NegInf)).

(** The corners of the box of a feature. *)
Definition featureBox (feature : Grid.Entry) : list Point :=
  [Point.mk (Grid.x1 feature) (Grid.y1 feature);
   Point.mk (Grid.x2 feature) (Grid.y1 feature);
   Point.mk (Grid.x2 feature) (Grid.y2 feature);
   Point.mk (Grid.x1 feature) (Grid.y2 feature)].

Section QueryRenderedSymbols.
(** [symbol/grid_index.js] and [util/intersection_tests.js] are not among
    the sources; the two operations of the grid that the query calls and
    the test of two polygons are taken as given. *)
Context (keysLength : Grid.t -> Z)
        (gridQuery : num -> num -> num -> num -> Grid.t -> list Grid.Entry)
        (polygonIntersectsPolygon : list Point -> list Point -> bool).

(** One pass through the body of the loop over the features. *)
Definition queryFeature (query : list Point)
    (st : SeenFeatures * QueryResult) (feature : Grid.Entry)
  : SeenFeatures * QueryResult :=
  let '(seenFeatures, result) := st in
  let featureKey := Grid.key feature in
  let seenFeatures :=
    match seenFeatures !! Grid.bucketInstanceId featureKey with
    | None => <[Grid.bucketInstanceId featureKey := ∅]> seenFeatures
    | Some _ => seenFeatures
    end in
  if bool_decide
       (Grid.featureIndex featureKey
        ∈ default ∅ (seenFeatures !! Grid.bucketInstanceId featureKey))
  then (seenFeatures, result)
  else if negb (polygonIntersectsPolygon query (featureBox feature))
  then (seenFeatures, result)
  else
    let seenFeatures :=
      <[Grid.bucketInstanceId featureKey :=
          {[Grid.featureIndex featureKey]}
          ∪ default ∅ (seenFeatures !! Grid.bucketInstanceId featureKey)]>
        seenFeatures in
    let result :=
      match result !! Grid.bucketInstanceId featureKey with
      | None => <[Grid.bucketInstanceId featureKey := []]> result
      | Some _ => result
      end in
    let result :=
      <[Grid.bucketInstanceId featureKey :=
          default [] (result !! Grid.bucketInstanceId featureKey)
          ++ [Grid.featureIndex featureKey]]> result in
    (seenFeatures, result).

Definition queryRenderedSymbols {FogState : Type}
    (ci : CollisionIndex (FogState := FogState))
    (viewportQueryGeometry : list Point) : QueryResult :=
  if bool_decide (List.length viewportQueryGeometry = 0%nat)
     || ((keysLength (grid ci) =? 0)%Z && (keysLength (ignoredGrid ci) =? 0)%Z)
  then ∅
  else
    let '(query, (minX, minY, maxX, maxY)) :=
      queryBounds viewportQueryGeometry in
    let features :=
      gridQuery minX minY maxX maxY (grid ci)
      ++ gridQuery minX minY maxX maxY (ignoredGrid ci) in
    snd (fold_left (queryFeature query) features (∅, ∅)).

End QueryRenderedSymbols.

(** *** [getViewportMatrix] *)

(** [mat4.identity(out)] of [gl-matrix]. *)
Definition mat4_identity : Mat4 :=
  [one; zero; zero; zero;
   zero; one; zero; zero;
   zero; zero; one; zero;
   zero; zero; zero; one].

(** [mat4.translate(out, a, v)] of [gl-matrix] with [out] and [a] the same
    array: the last column only is written. *)
Definition mat4_translate (a : Mat4) (v : Vec3) : Mat4 :=
  let '(x, y, z) := v in
  map (mat_get a) (seq 0 12)
  ++ [mat_get a 0 * x + mat_get a 4 * y + mat_get a 8 * z + mat_get a 12;
      mat_get a 1 * x + mat_get a 5 * y + mat_get a 9 * z + mat_get a 13;
      mat_get a 2 * x + mat_get a 6 * y + mat_get a 10 * z + mat_get a 14;
      mat_get a 3 * x + mat_get a 7 * y + mat_get a 11 * z + mat_get a 15].

Definition getViewportMatrix : Mat4 :=
  let m := mat4_identity in
  mat4_translate m (- viewportPadding, - viewportPadding, zero).


(** An instance of what [queryRenderedSymbols] takes as given, on the boxes
    of [Grid]: the number of entries, the entries whose box intersects the
    box asked for, and a test of two polygons by their bounding boxes. *)
Module QueryExample.

Definition keysLength (g : Grid.t) : Z :=
  Z.of_nat (List.length (Grid.entries g)).

Definition gridQuery (x1 y1 x2 y2 : num) (g : Grid.t) : list Grid.Entry :=
  List.filter
    (fun e =>
       Grid.intersects x1 y1 x2 y2
         (Grid.x1 e) (Grid.y1 e) (Grid.x2 e) (Grid.y2 e))
    (Grid.entries g).

Definition bounds (polygon : list Point) : num * num * num * num :=
  fold_left
    (fun '(minX, minY, maxX, maxY) p =>
       (JS.min minX (Point.x p), JS.min minY (Point.y p),
        JS.max maxX (Point.x p), JS.max maxY (Point.y p)))
    polygon (PosInf, PosInf, NegInf, NegInf).

Definition polygonIntersectsPolygon (a b : list Point) : bool :=
  let '(ax1, ay1, ax2, ay2) := bounds a in
  let '(bx1, by1, bx2, by2) := bounds b in
  Grid.intersects ax1 ay1 ax2 ay2 bx1 by1 bx2 by2.

(** Feature 7 of bucket 1 with two boxes and feature 8 of bucket 1 with one
    in the active grid, feature 3 of bucket 2 in the ignored grid, and a
    box of feature 9 of bucket 1 far away. *)
Definition index : CollisionIndex (FogState := unit) :=
  insertCollisionBox [fin 900; fin 900; fin 910; fin 910] false 1 9 0
    (insertCollisionBox [fin 150; fin 150; fin 170; fin 170] true 2 3 0
       (insertCollisionBox [fin 140; fin 140; fin 160; fin 160] false 1 7 0
          (insertCollisionBox [fin 120; fin 120; fin 140; fin 140] false 1 8 0
             (insertCollisionBox [fin 100; fin 100; fin 120; fin 120] false
                1 7 0 Example.index)))).

(** A square of the viewport from (0, 0) to (100, 100). *)
Definition square : list Point :=
  [Point.mk zero zero; Point.mk (fin 100) zero;
   Point.mk (fin 100) (fin 100); Point.mk zero (fin 100)].

End QueryExample.


(** A camera matrix under which the anchor of [Example.line] is behind the
    camera, at [w = -2], while its mirror image is in the viewport; and a
    bucket of one symbol whose glyph is 8 units after the anchor. *)
Module Mirror.

Definition posMatrix : Mat4 :=
  [fin (-1 # 64); zero; zero; zero;
   zero; fin (-1 # 64); zero; zero;
   zero; zero; one; zero;
   zero; zero; zero; fin (-2)].

Definition bucket : SymbolBucket (SizeData := unit) :=
  mkSymbolBucket tt tt (mkSymbolBuffers [] [Example.horizontalSymbol])
    (mkSymbolBuffers [] []) Example.line [fin 8].

End Mirror.

(** A line that turns away from the x axis at its second vertex, under a
    label plane that recedes along the y axis: [w = 1 - y], so that the
    vertices on the x axis are in front of the camera and the third vertex
    is behind its plane.  The anchor is on the first segment. *)
Module Bend.

Definition labelPlane : Mat4 :=
  [one; zero; zero; zero;
   zero; one; zero; fin (-1);
   zero; zero; one; zero;
   zero; zero; zero; one].

Definition line : list Point :=
  [Point.mk zero zero; Point.mk (fin (5 # 8)) zero;
   Point.mk (fin (1 # 2)) (fin 2)].

Definition anchor : Point := Point.mk (fin (1 # 2)) zero.

(** The walk of a glyph 4 units after the anchor, after its first pass:
    at the second vertex, no distance covered yet. *)
Definition afterFirstPass : Walk :=
  mkWalk 1 (Point.mk (fin (5 # 8)) zero) anchor zero (fin (1 # 8)) [anchor]
    [] (Some (Point.mk (fin (5 # 8)) zero))
    {[ 1%Z := Point.mk (fin (5 # 8)) zero ]}.

(** A symbol of three glyphs anchored at the middle of [Example.line]. *)
Definition threeGlyphs : PlacedSymbol :=
  mkPlacedSymbol (fin 50) zero 0 3 0 3 1 WritingMode.horizontal
    zero zero false unknown.

End Bend.


(* ================================================================== *)
(** * Properties *)
(* ================================================================== *)

(** ** Numbers *)

Lemma fin_eq (a b : Q) : (a == b)%Q -> fin a = fin b.
Proof. intros E. unfold fin. f_equal. now apply Qred_complete. Qed.

Lemma ltb_Fin (a b : Q) : (Fin a <? Fin b) = true <-> (a < b)%Q.
Proof.
  cbn. rewrite negb_true_iff, <- not_true_iff_false, Qle_bool_iff.
  split; [apply Qnot_le_lt | apply Qlt_not_le].
Qed.

Lemma ltb_Fin_false (a b : Q) : (Fin a <? Fin b) = false <-> (b <= a)%Q.
Proof. cbn. now rewrite negb_false_iff, Qle_bool_iff. Qed.

Lemma eqb_Fin (a b : Q) : (Fin a =? Fin b) = true <-> (a == b)%Q.
Proof. cbn. apply Qeq_bool_iff. Qed.

Lemma leb_Fin (a b : Q) : (Fin a <=? Fin b) = true <-> (a <= b)%Q.
Proof.
  unfold leb. rewrite orb_true_iff, ltb_Fin, eqb_Fin. split.
  - intros [L | E]; [now apply Qlt_le_weak | rewrite E; apply Qle_refl].
  - intros L. destruct (Qlt_le_dec a b) as [L' | G]; [now left | right].
    now apply Qle_antisym.
Qed.

Lemma ltb_irrefl (x : num) : (x <? x) = false.
Proof.
  destruct x as [| | q |]; try reflexivity.
  apply ltb_Fin_false, Qle_refl.
Qed.

Lemma min_not_above (x y : num) : (JS.min x y >? y) = false.
Proof.
  unfold gtb, JS.min.
  destruct x as [| | a |], y as [| | b |]; try reflexivity;
    match goal with
    | |- context [if ?c then _ else _] =>
        destruct c eqn:E; [apply ltb_irrefl | exact E]
    end.
Qed.

Lemma Qcompare_pos (q : Q) : (0 < q)%Q -> Qcompare q 0 = Gt.
Proof. intros L. now apply Qgt_alt. Qed.

(** ** The perspective ratio *)

Lemma getPerspectiveRatio_same (q : Q) :
  (0 < q)%Q -> getPerspectiveRatio (Fin q) (Fin q) = one.
Proof.
  intros Hq. unfold getPerspectiveRatio, JS.div.
  rewrite (Qcompare_pos q Hq).
  assert (E : fin (q / q) = fin 1).
  { apply fin_eq. field. intros Z. rewrite Z in Hq. now apply Qlt_irrefl in Hq. }
  rewrite E. reflexivity.
Qed.

Lemma min_clamp (v : num) (q : Q) : JS.min v (Fin q) = clamp_upper v (Fin q).
Proof. destruct v; reflexivity. Qed.

Lemma Qcompare_half (a : Q) : Qcompare (Qred (Qred 0.5 * a)) 0 = Qcompare a 0.
Proof.
  assert (E : (Qred (Qred 0.5 * a) == 0.5 * a)%Q) by now rewrite !Qred_correct.
  rewrite E.
  destruct (Qcompare a 0) eqn:C.
  - apply Qeq_alt in C. apply (proj1 (Qeq_alt _ _)). rewrite C. reflexivity.
  - apply Qlt_alt in C. apply (proj1 (Qlt_alt _ _)). lra.
  - apply Qgt_alt in C. apply (proj1 (Qgt_alt _ _)). lra.
Qed.

Lemma perspective_sum_assoc (c s : num) :
  fin 0.5 + fin 0.5 * (c / s) = fin 0.5 + (fin 0.5 * c) / s.
Proof.
  destruct c as [| | a |], s as [| | b |]; try reflexivity;
    try (unfold JS.div, JS.mul, sign; destruct (Qcompare b 0);
         vm_compute; reflexivity).
  unfold JS.mul at 2. unfold fin at 4. unfold JS.div.
  change (fin (Qred 0.5 * a)) with (Fin (Qred (Qred 0.5 * a))). cbv iota.
  rewrite Qcompare_half.
  destruct (Qcompare b 0) eqn:Cb.
  - destruct (Qcompare a 0); reflexivity.
  - cbn. apply fin_eq. rewrite !Qred_correct. field.
    intros Z. apply Qeq_alt in Z. congruence.
  - cbn. apply fin_eq. rewrite !Qred_correct. field.
    intros Z. apply Qeq_alt in Z. congruence.
Qed.

Lemma min_Fin_le (a b : Q) : (a <= b)%Q -> JS.min (Fin a) (Fin b) = Fin a.
Proof.
  intros L. unfold JS.min.
  now rewrite (proj2 (ltb_Fin_false b a) L).
Qed.

Lemma getPerspectiveRatio_far (q : Q) (s : num) :
  (0 < q)%Q ->
  (s >=? fin 10 * Fin q) = true ->
  (getPerspectiveRatio (Fin q) s <=? fin 0.55) = true.
Proof.
  intros Hq Hs. destruct s as [| | r |]; try discriminate Hs.
  - apply leb_Fin in Hs. rewrite !Qred_correct in Hs.
    assert (Hr : (0 < r)%Q) by lra.
    unfold getPerspectiveRatio, JS.div. rewrite (Qcompare_pos r Hr).
    assert (Hd : (q / r <= 1 # 10)%Q).
    { apply Qle_shift_div_r; [exact Hr | lra]. }
    unfold fin. cbn [JS.mul JS.add]. unfold fin.
    set (v := Qred (Qred 0.5 + Qred (Qred 0.5 * Qred (q / r)))).
    assert (Hv : (v == 0.5 + 0.5 * (q / r))%Q).
    { unfold v. now rewrite !Qred_correct. }
    rewrite min_Fin_le.
    + apply leb_Fin. rewrite Qred_correct, Hv. lra.
    + rewrite Qred_correct, Hv. lra.
  - reflexivity.
Qed.

(** ** C1 *)

(** C1, as stated, fails: at camera-to-center distance 1 and signed distance
    4 (which is at least 3.64 times 1) the ratio is 0.625, above 0.55. *)
Lemma getPerspectiveRatio_not_small_at_4 :
  ~ (forall d s : num,
        (d >? zero) = true ->
        (s >=? fin 3.64 * d) = true ->
        (getPerspectiveRatio d s <=? fin 0.55) = true).
Proof.
  intros H. specialize (H (fin 1) (fin 4) eq_refl eq_refl).
  vm_compute in H. discriminate H.
Qed.

(** C1 (amended): [getPerspectiveRatio c s] is the specification's formula,
    the sum [0.5 + 0.5 * c / s] clamped from above at 1.5; it is 1 at
    [(d, d)] for every finite [d > 0]; it never exceeds 1.5; and it is at
    most 0.55 whenever the signed distance is at least 10 times a finite
    [d > 0]. *)
Theorem getPerspectiveRatio_formula_and_bounds :
  (forall c s : num, getPerspectiveRatio c s = perspectiveRatio_spec c s) /\
  (forall d : Q, (0 < d)%Q -> getPerspectiveRatio (Fin d) (Fin d) = fin 1) /\
  (forall c s : num, (getPerspectiveRatio c s >? fin 1.5) = false) /\
  (forall (d : Q) (s : num),
      (0 < d)%Q ->
      (s >=? fin 10 * Fin d) = true ->
      (getPerspectiveRatio (Fin d) s <=? fin 0.55) = true).
Proof.
  repeat split.
  - intros c s. unfold getPerspectiveRatio, perspectiveRatio_spec.
    rewrite perspective_sum_assoc. apply min_clamp.
  - apply getPerspectiveRatio_same.
  - intros c s. apply min_not_above.
  - apply getPerspectiveRatio_far.
Qed.

Lemma getPerspectiveRatio_formula_and_bounds_witness :
  getPerspectiveRatio (Fin 2) (Fin 2) = fin 1 /\
  (getPerspectiveRatio (Fin 3) (Fin 30) <=? fin 0.55) = true /\
  getPerspectiveRatio (Fin 3) (Fin 30) = fin 0.55.
Proof.
  destruct getPerspectiveRatio_formula_and_bounds as (_ & Hsame & _ & Hfar).
  split; [| split].
  - apply (Hsame 2%Q). reflexivity.
  - apply (Hfar 3%Q (Fin 30)); reflexivity.
  - reflexivity.
Defined.

(** ** The hidden sentinel *)

Lemma of_float32_float32 (a : DynamicLayout.t) :
  DynamicLayout.of_float32 (DynamicLayout.float32 a) = a.
Proof.
  induction a as [| [[x y] z] a IH]; [reflexivity |].
  cbn. f_equal. exact IH.
Qed.

Lemma float32_app (a b : DynamicLayout.t) :
  DynamicLayout.float32 (a ++ b)
  = DynamicLayout.float32 a ++ DynamicLayout.float32 b.
Proof. unfold DynamicLayout.float32. apply bind_app. Qed.

Lemma float32_length (a : DynamicLayout.t) :
  List.length (DynamicLayout.float32 a) = (List.length a * 3)%nat.
Proof.
  induction a as [| [[x y] z] a IH]; [reflexivity |].
  change (DynamicLayout.float32 ((x, y, z) :: a))
    with ([x; y; z] ++ DynamicLayout.float32 a).
  rewrite length_app, IH. cbn. lia.
Qed.

Lemma resize_grow (n : nat) (a : DynamicLayout.t) :
  DynamicLayout.resize (List.length a + n) a
  = a ++ replicate n (zero, zero, zero).
Proof.
  unfold DynamicLayout.resize.
  rewrite take_ge by lia. do 2 f_equal. lia.
Qed.

(** One pass of the loop of [hideGlyphs] appends the four hidden vertices. *)
Lemma hide_one_glyph (a : DynamicLayout.t) :
  DynamicLayout.float32_set hiddenGlyphAttributes (DynamicLayout.length a * 3)
    (DynamicLayout.resize (DynamicLayout.length a + 4) a)
  = Normal (a ++ replicate 4 hiddenVertex).
Proof.
  unfold DynamicLayout.length. rewrite resize_grow.
  unfold DynamicLayout.float32_set.
  rewrite float32_app, length_app, float32_length.
  rewrite decide_True by (cbn; lia).
  f_equal.
  rewrite take_app_length' by (symmetry; apply float32_length).
  rewrite drop_ge by (rewrite length_app, float32_length; cbn; lia).
  rewrite app_nil_r.
  change hiddenGlyphAttributes
    with (DynamicLayout.float32 (replicate 4 hiddenVertex)).
  rewrite <- float32_app. apply of_float32_float32.
Qed.

Lemma hideGlyphs_appends (N : nat) (a : SymbolDynamicLayoutArray) :
  hideGlyphs N a = Normal (a ++ replicate (4 * N) hiddenVertex).
Proof.
  revert a. induction N as [| N IH]; intros a.
  - cbn. now rewrite app_nil_r.
  - cbn [hideGlyphs]. rewrite hide_one_glyph. cbn [mbind Completion_bind].
    rewrite IH. rewrite <- app_assoc, <- replicate_add.
    do 3 f_equal. lia.
Qed.

(** ** C8 *)

(** C8: for every [N], [hideGlyphs] for [N] glyphs returns the array it was
    given followed by exactly [4 * N] vertices, each [(-Infinity, -Infinity,
    0)]; the vertices that were in the array are unchanged. *)
Theorem hideGlyphs_appends_hidden_vertices
    (N : nat) (dynamicLayoutVertexArray : SymbolDynamicLayoutArray) :
  hideGlyphs N dynamicLayoutVertexArray
  = Normal (dynamicLayoutVertexArray ++ replicate (4 * N) hiddenVertex)
  /\ hiddenVertex = (NegInf, NegInf, fin 0).
Proof. split; [apply hideGlyphs_appends | reflexivity]. Qed.

(** ** Flip decisions *)

Section Flip.
Context `{MathLib}.

Lemma isInFlipRetainRange_deltaX_zero (firstPoint lastPoint : Point)
    (aspectRatio : num) :
  ((Point.x lastPoint - Point.x firstPoint) * aspectRatio =? zero) = true ->
  isInFlipRetainRange firstPoint lastPoint aspectRatio = true.
Proof. intros E. unfold isInFlipRetainRange. now rewrite E. Qed.

Lemma deltaX_zero_of_equal_x (a b r : Q) :
  (a == b)%Q -> ((Fin b - Fin a) * Fin r =? zero) = true.
Proof.
  intros E. cbn. apply Qeq_bool_iff.
  rewrite !Qred_correct, E. ring.
Qed.

(** ** C10 *)

(** C10: when [deltaX] is zero, [isInFlipRetainRange] returns [true] without
    dividing: the quotient [deltaY / deltaX] is never formed.  In
    particular two points with equal (finite) x coordinates are inside the
    retain range, whatever their y coordinates and the (finite) aspect
    ratio. *)
Theorem isInFlipRetainRange_vertical_segment :
  (forall (firstPoint lastPoint : Point) (aspectRatio : num),
      ((Point.x lastPoint - Point.x firstPoint) * aspectRatio =? zero) = true ->
      isInFlipRetainRange firstPoint lastPoint aspectRatio = true) /\
  (forall (x x' r : Q) (y y' : num),
      (x == x')%Q ->
      isInFlipRetainRange (Point.mk (Fin x) y) (Point.mk (Fin x') y') (Fin r)
      = true).
Proof.
  split.
  - apply isInFlipRetainRange_deltaX_zero.
  - intros x x' r y y' E. apply isInFlipRetainRange_deltaX_zero.
    cbn [Point.x]. now apply deltaX_zero_of_equal_x.
Qed.

Lemma isInFlipRetainRange_tangent (firstPoint lastPoint : Point)
    (aspectRatio : num) :
  ((Point.x lastPoint - Point.x firstPoint) * aspectRatio =? zero) = false ->
  isInFlipRetainRange firstPoint lastPoint aspectRatio
  = (JS.abs ((Point.y lastPoint - Point.y firstPoint)
             / ((Point.x lastPoint - Point.x firstPoint) * aspectRatio))
     >? tan85).
Proof. intros E. unfold isInFlipRetainRange. now rewrite E. Qed.

Lemma flipState_of_reused (f : FlipState) :
  f <> unknown ->
  flipState_of (if bool_decide (f = flipRequired) then Some NeedsFlipping else None)
  = f.
Proof. destruct f; intros N; [congruence | reflexivity | reflexivity]. Qed.

(** The flip state a call of [placeGlyphsAlongLine] for an unflipped,
    upright label of several glyphs leaves in the symbol. *)
Lemma placeGlyphsAlongLine_persists_flipState
    (symbol : PlacedSymbol) (fontSize : num)
    (posMatrix labelPlaneMatrix glCoordMatrix : Mat4)
    (glyphOffsetArray : list num) (lineVertexArray : list Point)
    (dynamicLayoutVertexArray : SymbolDynamicLayoutArray)
    (anchorPoint tileAnchorPoint : Point) (projectionCache : ProjectionCache)
    (aspectRatio : num) (getElevation : option ElevationFn)
    (projection : Projection) (tileID : OverscaledTileID)
    (first last : PlacedGlyph) (projectionCache' : ProjectionCache)
    (placed : Placed) :
  (1 <? numGlyphs symbol)%nat = true ->
  placeFirstAndLastGlyph (fontSize / fin 24) glyphOffsetArray
    (lineOffsetX symbol * (fontSize / fin 24))
    (lineOffsetY symbol * (fontSize / fin 24)) false anchorPoint
    tileAnchorPoint symbol lineVertexArray labelPlaneMatrix projectionCache
    getElevation false projection tileID
  = Normal (Some (first, last), projectionCache') ->
  placeGlyphsAlongLine symbol fontSize false true posMatrix labelPlaneMatrix
    glCoordMatrix glyphOffsetArray lineVertexArray dynamicLayoutVertexArray
    anchorPoint tileAnchorPoint projectionCache aspectRatio getElevation
    projection tileID
  = Normal placed ->
  flipState (placed_symbol placed)
  = flipState_of
      (requiresOrientationChange symbol
         (point (project (glyph_point first) glCoordMatrix zero))
         (point (project (glyph_point last) glCoordMatrix zero))
         aspectRatio).
Proof.
  intros Hn Hfl. unfold placeGlyphsAlongLine.
  rewrite Hn, Hfl. cbn [mbind Completion_bind andb negb].
  destruct (requiresOrientationChange _ _ _ _) as [change |].
  - intros [= <-]. reflexivity.
  - destruct (placeInteriorGlyphs _ _ _) as [[interior c] | |]; try discriminate.
    cbn [mbind Completion_bind].
    destruct (addPlacedGlyphs _ _) as [arr | |]; try discriminate.
    cbn [mbind Completion_bind]. intros [= <-]. reflexivity.
Qed.

(** ** C4 *)

(** C4: flip hysteresis.  In the general case of [requiresOrientationChange]
    (the symbol is not vertical, and not a horizontal one whose rise exceeds
    its run): when the flip state is known and the points are in the retain
    range, the previous decision is returned and the flip state that results
    is the one the symbol had; otherwise a flip is needed exactly when
    [firstPoint.x > lastPoint.x].  The retain range is the tangent test
    [|deltaY / (deltaX * aspectRatio)| > tan 85] whenever [deltaX] is not
    zero.  [placeGlyphsAlongLine] stores the decision in the symbol's flip
    state. *)
Theorem flip_hysteresis
    (symbol : PlacedSymbol) (firstPoint lastPoint : Point) (aspectRatio : num) :
  (writingMode symbol =? WritingMode.vertical)%Z = false ->
  ((writingMode symbol =? WritingMode.horizontal)%Z
   && (JS.abs (Point.y lastPoint - Point.y firstPoint)
       >? JS.abs (Point.x lastPoint - Point.x firstPoint) * aspectRatio))
  = false ->
  let decision :=
    requiresOrientationChange symbol firstPoint lastPoint aspectRatio in
  (* the previous decision is reused *)
  (flipState symbol <> unknown ->
   isInFlipRetainRange firstPoint lastPoint aspectRatio = true ->
   decision = (if bool_decide (flipState symbol = flipRequired)
               then Some NeedsFlipping else None)
   /\ flipState_of decision = flipState symbol) /\
  (* or the decision is taken anew *)
  (flipState symbol = unknown
   \/ isInFlipRetainRange firstPoint lastPoint aspectRatio = false ->
   decision = (if Point.x firstPoint >? Point.x lastPoint
               then Some NeedsFlipping else None)) /\
  (* the retain range is the tangent test *)
  (((Point.x lastPoint - Point.x firstPoint) * aspectRatio =? zero) = false ->
   isInFlipRetainRange firstPoint lastPoint aspectRatio
   = (JS.abs ((Point.y lastPoint - Point.y firstPoint)
              / ((Point.x lastPoint - Point.x firstPoint) * aspectRatio))
      >? tan85)) /\
  (* the decision is stored in the symbol *)
  (forall fontSize posMatrix labelPlaneMatrix glCoordMatrix glyphOffsetArray
          lineVertexArray dynamicLayoutVertexArray anchorPoint tileAnchorPoint
          projectionCache getElevation projection tileID first last
          projectionCache' placed,
      (1 <? numGlyphs symbol)%nat = true ->
      placeFirstAndLastGlyph (fontSize / fin 24) glyphOffsetArray
        (lineOffsetX symbol * (fontSize / fin 24))
        (lineOffsetY symbol * (fontSize / fin 24)) false anchorPoint
        tileAnchorPoint symbol lineVertexArray labelPlaneMatrix
        projectionCache getElevation false projection tileID
      = Normal (Some (first, last), projectionCache') ->
      firstPoint = point (project (glyph_point first) glCoordMatrix zero) ->
      lastPoint = point (project (glyph_point last) glCoordMatrix zero) ->
      placeGlyphsAlongLine symbol fontSize false true posMatrix
        labelPlaneMatrix glCoordMatrix glyphOffsetArray lineVertexArray
        dynamicLayoutVertexArray anchorPoint tileAnchorPoint projectionCache
        aspectRatio getElevation projection tileID
      = Normal placed ->
      flipState (placed_symbol placed) = flipState_of decision).
Proof.
  intros Hv Hh decision.
  assert (Hd : decision =
    if negb (bool_decide (flipState symbol = unknown))
       && isInFlipRetainRange firstPoint lastPoint aspectRatio
    then if bool_decide (flipState symbol = flipRequired)
         then Some NeedsFlipping else None
    else if Point.x firstPoint >? Point.x lastPoint
         then Some NeedsFlipping else None).
  { unfold decision, requiresOrientationChange. now rewrite Hh, Hv. }
  split; [| split; [| split]].
  - intros K R.
    assert (Hr : decision = if bool_decide (flipState symbol = flipRequired)
                            then Some NeedsFlipping else None).
    { now rewrite Hd, R, bool_decide_eq_false_2. }
    split; [exact Hr |]. rewrite Hr. now apply flipState_of_reused.
  - intros [U | R]; rewrite Hd.
    + now rewrite bool_decide_eq_true_2.
    + rewrite R. now rewrite andb_false_r.
  - apply isInFlipRetainRange_tangent.
  - intros * Hn Hfl -> -> Hp.
    now apply (placeGlyphsAlongLine_persists_flipState _ _ _ _ _ _ _ _ _ _ _ _
                 _ _ _ _ _ _ _ Hn Hfl Hp).
Qed.

End Flip.

(** ** The collision index *)

Section CollisionProperties.
Context `{MathLib}.
Context {FogState : Type}
        (getFogOpacityAtTileCoord :
           FogState -> num -> num -> num -> UnwrappedTileID -> Transform -> num)
        (FOG_SYMBOL_CLIPPING_THRESHOLD : num).

Local Abbreviation placeBox := (placeCollisionBox getFogOpacityAtTileCoord
                        FOG_SYMBOL_CLIPPING_THRESHOLD).
Local Abbreviation corners := (boxCorners getFogOpacityAtTileCoord
                       FOG_SYMBOL_CLIPPING_THRESHOLD).
Local Abbreviation projected := (boxProjectedPoint getFogOpacityAtTileCoord
                         FOG_SYMBOL_CLIPPING_THRESHOLD).

Lemma assertion_passes (ci : CollisionIndex (FogState := FogState))
    collisionBox :
  elevation_asserted ci collisionBox ->
  has_elevation (ci_transform ci)
  && negb (bool_decide (is_Some (box_elevation collisionBox))) = false.
Proof.
  intros [E | S].
  - now rewrite E.
  - rewrite (bool_decide_eq_true_2 _ S). apply andb_false_r.
Qed.

(** The two ways [placeCollisionBox] returns. *)
Lemma placeCollisionBox_cases
    scale collisionBox shift allowOverlap textPixelRatio posMatrix predicate
    (ci : CollisionIndex (FogState := FogState)) tlX tlY brX brY :
  elevation_asserted ci collisionBox ->
  corners ci scale collisionBox shift textPixelRatio posMatrix
  = (tlX, tlY, brX, brY) ->
  exists r,
    placeBox scale collisionBox shift allowOverlap textPixelRatio posMatrix
      predicate ci = Normal (r, ci)
    /\ (box r = [] <->
        isInsideGrid ci tlX tlY brX brY = false
        \/ (allowOverlap = false
            /\ Grid.hitTest tlX tlY brX brY predicate (grid ci) = true)
        \/ (pp_perspectiveRatio (projected ci collisionBox posMatrix)
            <=? fin 0.55) = true
        \/ pp_occluded (projected ci collisionBox posMatrix) = true)
    /\ (box r <> [] ->
        r = mkPlacedBox [tlX; tlY; brX; brY]
              (isOffscreen ci tlX tlY brX brY) false).
Proof.
  intros A C.
  unfold placeCollisionBox. rewrite (assertion_passes _ _ A), C.
  set (inside := isInsideGrid ci tlX tlY brX brY).
  set (hit := Grid.hitTest tlX tlY brX brY predicate (grid ci)).
  set (pp := projected ci collisionBox posMatrix).
  change minPerspectiveRatio with (fin 0.55).
  destruct inside, allowOverlap, hit,
    (pp_perspectiveRatio pp <=? fin 0.55), (pp_occluded pp);
    cbn [negb orb andb];
    (eexists; split; [reflexivity |]; cbn [box]; split;
     [split; [intros E; try discriminate E; tauto
             | intros D; try reflexivity;
               repeat (destruct D as [D | D]; try discriminate D);
               try (destruct D as [D1 D2]; discriminate)]
     | intros N; try reflexivity; now contradiction N]).
Qed.

(** ** C3 *)

(** C3: [placeCollisionBox] returns an empty box exactly when the transformed
    box is not inside the padded grid, or overlap is not allowed and the
    grid's hit test (under the group predicate) reports an entry, or the
    perspective ratio of the projected point is at most 0.55, or the point is
    occluded.  Otherwise the box it returns is the four transformed corners,
    with the flag that tells whether they lie off screen. *)
Theorem placeCollisionBox_rejects_iff
    scale collisionBox shift allowOverlap textPixelRatio posMatrix predicate
    (ci : CollisionIndex (FogState := FogState)) tlX tlY brX brY :
  elevation_asserted ci collisionBox ->
  corners ci scale collisionBox shift textPixelRatio posMatrix
  = (tlX, tlY, brX, brY) ->
  exists r,
    placeBox scale collisionBox shift allowOverlap textPixelRatio posMatrix
      predicate ci = Normal (r, ci)
    /\ (box r = [] <->
        isInsideGrid ci tlX tlY brX brY = false
        \/ (allowOverlap = false
            /\ Grid.hitTest tlX tlY brX brY predicate (grid ci) = true)
        \/ (pp_perspectiveRatio (projected ci collisionBox posMatrix)
            <=? fin 0.55) = true
        \/ pp_occluded (projected ci collisionBox posMatrix) = true)
    /\ (box r <> [] ->
        r = mkPlacedBox [tlX; tlY; brX; brY]
              (isOffscreen ci tlX tlY brX brY) false).
Proof. apply placeCollisionBox_cases. Qed.

(** ** C9 *)

(** C9: a call of [placeCollisionBox] leaves the index, and with it both
    grids, as they were; a second call with the same arguments then returns
    the same result.  The call returns whenever its assertion holds. *)
Theorem placeCollisionBox_leaves_grids
    scale collisionBox shift allowOverlap textPixelRatio posMatrix predicate
    (ci : CollisionIndex (FogState := FogState)) :
  (forall r ci',
      placeBox scale collisionBox shift allowOverlap textPixelRatio posMatrix
        predicate ci = Normal (r, ci') ->
      ci' = ci
      /\ grid ci' = grid ci
      /\ ignoredGrid ci' = ignoredGrid ci
      /\ placeBox scale collisionBox shift allowOverlap textPixelRatio
           posMatrix predicate ci' = Normal (r, ci'))
  /\ (elevation_asserted ci collisionBox ->
      exists r,
        placeBox scale collisionBox shift allowOverlap textPixelRatio
          posMatrix predicate ci = Normal (r, ci)).
Proof.
  split.
  - intros r ci' P.
    assert (E : ci' = ci).
    { revert P. unfold placeCollisionBox.
      destruct (_ && _); [discriminate |].
      destruct (corners _ _ _ _ _ _) as [[[tlX tlY] brX] brY].
      destruct (_ || _); now intros [= _ <-]. }
    subst ci'. now repeat split.
  - intros A. unfold placeCollisionBox. rewrite (assertion_passes _ _ A).
    destruct (corners _ _ _ _ _ _) as [[[tlX tlY] brX] brY].
    destruct (_ || _); eexists; reflexivity.
Qed.

(** *** Insertion and the grid's hit test *)

Lemma intersects_sym a1 a2 a3 a4 b1 b2 b3 b4 :
  Grid.intersects a1 a2 a3 a4 b1 b2 b3 b4
  = Grid.intersects b1 b2 b3 b4 a1 a2 a3 a4.
Proof.
  unfold Grid.intersects, geb.
  destruct (a1 <=? b3), (a2 <=? b4), (b1 <=? a3), (b2 <=? a4); reflexivity.
Qed.

Lemma hitTest_insert k x1 y1 x2 y2 q1 q2 q3 q4 predicate g :
  Grid.intersects q1 q2 q3 q4 x1 y1 x2 y2 = true ->
  Grid.allows predicate k = true ->
  Grid.hitTest q1 q2 q3 q4 predicate (Grid.insert k x1 y1 x2 y2 g) = true.
Proof.
  intros I P. unfold Grid.hitTest, Grid.insert. cbn [Grid.entries].
  rewrite existsb_app. cbn. rewrite I, P. cbn. apply orb_true_r.
Qed.

Lemma corners_insert b i k1 k2 k3 (ci : CollisionIndex (FogState := FogState))
    scale collisionBox shift textPixelRatio posMatrix :
  corners (insertCollisionBox b i k1 k2 k3 ci) scale collisionBox shift
    textPixelRatio posMatrix
  = corners ci scale collisionBox shift textPixelRatio posMatrix.
Proof. unfold insertCollisionBox. destruct i; reflexivity. Qed.

(** A box that [placeCollisionBox] accepts is the transformed corners. *)
Lemma accepted_box scale collisionBox shift allowOverlap textPixelRatio
    posMatrix predicate (ci ci' : CollisionIndex (FogState := FogState)) r :
  placeBox scale collisionBox shift allowOverlap textPixelRatio posMatrix
    predicate ci = Normal (r, ci') ->
  box r <> [] ->
  elevation_asserted ci collisionBox
  /\ exists tlX tlY brX brY,
      corners ci scale collisionBox shift textPixelRatio posMatrix
      = (tlX, tlY, brX, brY)
      /\ box r = [tlX; tlY; brX; brY].
Proof.
  unfold placeCollisionBox, elevation_asserted.
  destruct (has_elevation (ci_transform ci)) eqn:E,
    (bool_decide (is_Some (box_elevation collisionBox))) eqn:S;
    cbn [andb negb]; try discriminate;
    (destruct (corners _ _ _ _ _ _) as [[[tlX tlY] brX] brY];
     destruct (_ || _); intros [= <- _] N; [now contradiction N |];
     split; [| now exists tlX, tlY, brX, brY]).
  - right. now apply bool_decide_eq_true in S.
  - now left.
  - now left.
Qed.

(** After a box has been inserted in the active grid, a box that intersects
    it, whose predicate allows its key and that may not overlap, is
    rejected. *)
Lemma rejected_after_insert
    scale collisionBox shift textPixelRatio posMatrix predicate
    (ci : CollisionIndex (FogState := FogState)) tlX tlY brX brY
    x1 y1 x2 y2 k1 k2 k3 :
  elevation_asserted ci collisionBox ->
  corners ci scale collisionBox shift textPixelRatio posMatrix
  = (tlX, tlY, brX, brY) ->
  Grid.intersects tlX tlY brX brY x1 y1 x2 y2 = true ->
  Grid.allows predicate (Grid.mkKey k1 k2 k3) = true ->
  exists r,
    placeBox scale collisionBox shift false textPixelRatio posMatrix predicate
      (insertCollisionBox [x1; y1; x2; y2] false k1 k2 k3 ci)
    = Normal (r, insertCollisionBox [x1; y1; x2; y2] false k1 k2 k3 ci)
    /\ box r = [].
Proof.
  intros A C I P.
  set (ci' := insertCollisionBox [x1; y1; x2; y2] false k1 k2 k3 ci).
  assert (A' : elevation_asserted ci' collisionBox) by exact A.
  assert (C' : corners ci' scale collisionBox shift textPixelRatio posMatrix
               = (tlX, tlY, brX, brY)).
  { unfold ci'. now rewrite corners_insert. }
  destruct (placeCollisionBox_cases scale collisionBox shift false
              textPixelRatio posMatrix predicate ci' tlX tlY brX brY A' C')
    as (r & Hr & Hiff & _).
  exists r. split; [exact Hr |]. apply Hiff.
  right. left. split; [reflexivity |].
  unfold ci', insertCollisionBox. cbn [grid set_grids nth].
  now apply hitTest_insert.
Qed.

(** ** C2 *)

(** C2 (amended): take two boxes that [placeCollisionBox], with overlap not
    allowed, accepts on the index as it stands, whose returned boxes
    intersect, and such that the group predicate of each allows the key of
    the other.  Once the first has been inserted in the active grid
    ([ignorePlacement] false), the second is rejected; and in the reverse
    order the first is. *)
Theorem first_come_first_served
    scaleA boxA shiftA pixelRatioA matrixA predicateA bucketA featureA groupA
    scaleB boxB shiftB pixelRatioB matrixB predicateB bucketB featureB groupB
    (ci : CollisionIndex (FogState := FogState)) rA rB
    a1 a2 a3 a4 b1 b2 b3 b4 :
  placeBox scaleA boxA shiftA false pixelRatioA matrixA predicateA ci
  = Normal (rA, ci) ->
  placeBox scaleB boxB shiftB false pixelRatioB matrixB predicateB ci
  = Normal (rB, ci) ->
  box rA = [a1; a2; a3; a4] ->
  box rB = [b1; b2; b3; b4] ->
  Grid.intersects a1 a2 a3 a4 b1 b2 b3 b4 = true ->
  Grid.allows predicateB (Grid.mkKey bucketA featureA groupA) = true ->
  Grid.allows predicateA (Grid.mkKey bucketB featureB groupB) = true ->
  (exists r,
      placeBox scaleB boxB shiftB false pixelRatioB matrixB predicateB
        (insertCollisionBox (box rA) false bucketA featureA groupA ci)
      = Normal (r, insertCollisionBox (box rA) false bucketA featureA groupA ci)
      /\ box r = [])
  /\ (exists r,
      placeBox scaleA boxA shiftA false pixelRatioA matrixA predicateA
        (insertCollisionBox (box rB) false bucketB featureB groupB ci)
      = Normal (r, insertCollisionBox (box rB) false bucketB featureB groupB ci)
      /\ box r = []).
Proof.
  intros PA PB EA EB I AdmB AdmA.
  destruct (accepted_box _ _ _ _ _ _ _ _ _ _ PA) as (AA & ta1 & ta2 & ta3 & ta4 & CA & BA);
    [rewrite EA; discriminate |].
  destruct (accepted_box _ _ _ _ _ _ _ _ _ _ PB) as (AB & tb1 & tb2 & tb3 & tb4 & CB & BB);
    [rewrite EB; discriminate |].
  rewrite EA in BA. injection BA as <- <- <- <-.
  rewrite EB in BB. injection BB as <- <- <- <-.
  rewrite EA, EB. split.
  - apply rejected_after_insert with (tlX := b1) (tlY := b2) (brX := b3) (brY := b4);
      try assumption.
    now rewrite intersects_sym.
  - now apply rejected_after_insert
      with (tlX := a1) (tlY := a2) (brX := a3) (brY := a4).
Qed.

End CollisionProperties.

(** The boxes of the example, each placed on the empty index. *)
Lemma example_boxes_alone :
  placeCollisionBox Example.fogOpacity zero one Example.boxA
    (Point.mk zero zero) false one Example.identity None Example.index
  = Normal (mkPlacedBox [fin 490; fin 390; fin 510; fin 410] false false,
            Example.index)
  /\ placeCollisionBox Example.fogOpacity zero one Example.boxB
       (Point.mk zero zero) false one Example.identity None Example.index
     = Normal (mkPlacedBox [fin 500; fin 400; fin 520; fin 420] false false,
               Example.index).
Proof. split; vm_compute; reflexivity. Qed.

(** C2, as stated, fails, in three ways.  (1) Box A is placed and then
    committed with [insertCollisionBox], with [ignorePlacement] set, so that
    it goes to the ignored grid: box B, whose footprint overlaps that of A
    and for which overlap is not allowed, is accepted all the same.  (2) Box
    A is committed to the active grid under collision group 7, and the group
    predicate given for B does not allow that group: B is accepted.  (3) Box
    A, first on an empty index, is ten times as far from the camera as the
    centre of the map: it is rejected, its perspective ratio being 0.55. *)
Lemma later_box_accepted_after_earlier_insert :
  let place box :=
    placeCollisionBox Example.fogOpacity zero one box (Point.mk zero zero)
      false one Example.identity in
  let boxA := [fin 490; fin 390; fin 510; fin 410] in
  let boxB := [fin 500; fin 400; fin 520; fin 420] in
  let ignored := insertCollisionBox boxA true 1 1 0 Example.index in
  let grouped := insertCollisionBox boxA false 1 1 7 Example.index in
  let others := Some (fun k => negb (Grid.collisionGroupID k =? 7)%Z) in
  place Example.boxA None Example.index
  = Normal (mkPlacedBox boxA false false, Example.index)
  /\ Grid.intersects (fin 490) (fin 390) (fin 510) (fin 410)
       (fin 500) (fin 400) (fin 520) (fin 420) = true
  /\ place Example.boxB None ignored
     = Normal (mkPlacedBox boxB false false, ignored)
  /\ place Example.boxB others grouped
     = Normal (mkPlacedBox boxB false false, grouped)
  /\ placeCollisionBox Example.fogOpacity zero one Example.boxA
       (Point.mk zero zero) false one Example.distant None Example.index
     = Normal (mkPlacedBox [] false false, Example.index).
Proof. cbv zeta. repeat split; vm_compute; reflexivity. Qed.

Lemma first_come_first_served_witness :
  let place box :=
    placeCollisionBox Example.fogOpacity zero one box (Point.mk zero zero)
      false one Example.identity None in
  let boxA := [fin 490; fin 390; fin 510; fin 410] in
  let boxB := [fin 500; fin 400; fin 520; fin 420] in
  (exists r,
      place Example.boxB (insertCollisionBox boxA false 1 1 0 Example.index)
      = Normal (r, insertCollisionBox boxA false 1 1 0 Example.index)
      /\ box r = [])
  /\ (exists r,
      place Example.boxA (insertCollisionBox boxB false 1 2 0 Example.index)
      = Normal (r, insertCollisionBox boxB false 1 2 0 Example.index)
      /\ box r = []).
Proof.
  cbv zeta.
  apply (first_come_first_served Example.fogOpacity zero
           one Example.boxA (Point.mk zero zero) one Example.identity None 1 1 0
           one Example.boxB (Point.mk zero zero) one Example.identity None 1 2 0
           Example.index
           (mkPlacedBox [fin 490; fin 390; fin 510; fin 410] false false)
           (mkPlacedBox [fin 500; fin 400; fin 520; fin 420] false false)
           (fin 490) (fin 390) (fin 510) (fin 410)
           (fin 500) (fin 400) (fin 520) (fin 420));
    vm_compute; reflexivity.
Defined.

(** ** The walk along the line *)

Section WalkProperties.
Context `{MathLib}.
Context (offsetX lineOffsetX lineOffsetY : num) (flip : bool)
        (anchorPoint tileAnchorPoint : Point)
        (anchorSegment lineStartIndex lineEndIndex : Z)
        (lineVertexArray : list Point) (labelPlaneMatrix : Mat4)
        (getElevation : option ElevationFn)
        (returnPathInTileCoords endGlyph : bool)
        (reprojection : Projection) (tileID : OverscaledTileID).

Local Abbreviation dir_ := (dir offsetX lineOffsetX flip).
Local Abbreviation absOffsetX_ := (absOffsetX offsetX lineOffsetX flip).
Local Abbreviation truncated_ :=
  (getTruncatedLineSegment offsetX lineOffsetX flip tileAnchorPoint
     lineVertexArray labelPlaneMatrix getElevation reprojection tileID).
Local Abbreviation continues_ := (walk_continues offsetX lineOffsetX flip).
Local Abbreviation step_ :=
  (walk_step offsetX lineOffsetX flip tileAnchorPoint lineStartIndex
     lineEndIndex lineVertexArray labelPlaneMatrix getElevation
     returnPathInTileCoords reprojection tileID).
Local Abbreviation walk_ :=
  (walk offsetX lineOffsetX flip tileAnchorPoint lineStartIndex
     lineEndIndex lineVertexArray labelPlaneMatrix getElevation
     returnPathInTileCoords reprojection tileID).
Local Abbreviation init_ :=
  (walk_init offsetX lineOffsetX flip anchorPoint tileAnchorPoint
     anchorSegment lineStartIndex).
Local Abbreviation finish_ :=
  (truncate_end offsetX lineOffsetX flip tileAnchorPoint lineVertexArray
     labelPlaneMatrix getElevation endGlyph reprojection tileID).
Local Abbreviation place_ :=
  (placeGlyphAlongLine offsetX lineOffsetX lineOffsetY flip anchorPoint
     tileAnchorPoint anchorSegment lineStartIndex lineEndIndex
     lineVertexArray labelPlaneMatrix getElevation returnPathInTileCoords
     endGlyph reprojection tileID).

Lemma dir_cases : dir_ = 1%Z \/ dir_ = (-1)%Z.
Proof. unfold dir. destruct (_ >? _), flip; auto. Qed.

Lemma truncated_returns (w : Walk) (v : Point) :
  currentVertex w = Some v -> exists p, truncated_ w = Normal p.
Proof. intros E. unfold getTruncatedLineSegment. rewrite E. eauto. Qed.

(** When the next index is off the line of the symbol, the loop body
    returns [null]. *)
Lemma step_off_line (w : Walk) :
  ((currentIndex w + dir_ <? lineStartIndex)%Z
   || (currentIndex w + dir_ >=? lineEndIndex)%Z) = true ->
  step_ w = Normal None.
Proof. unfold walk_step. intros E. now rewrite E. Qed.

(** Otherwise it goes through, to the next index. *)
Lemma step_on_line (w : Walk) :
  ((currentIndex w + dir_ <? lineStartIndex)%Z
   || (currentIndex w + dir_ >=? lineEndIndex)%Z) = false ->
  exists w', step_ w = Normal (Some w')
             /\ currentIndex w' = (currentIndex w + dir_)%Z.
Proof.
  unfold walk_step. intros E. rewrite E.
  destruct returnPathInTileCoords; cbn [projectionCache push_tilePath];
    destruct (projectionCache w !! (currentIndex w + dir_)%Z);
    try (eexists; split; reflexivity);
    destruct (_ >? _); eexists; split; reflexivity.
Qed.

(** The loop ends within the fuel: every pass moves the index one step
    further along the line, and a pass off the line ends the loop. *)
Lemma walk_returns (fuel : nat) (w : Walk) :
  (Z.max 0
     (if (dir_ >? 0)%Z
      then lineEndIndex - 1 - Z.max (currentIndex w) (lineStartIndex - 1)
      else Z.min (currentIndex w) lineEndIndex - lineStartIndex)
   < Z.of_nat fuel)%Z ->
  exists r, walk_ fuel w = Normal r.
Proof.
  revert w. induction fuel as [| fuel IH]; intros w Hm; [lia |].
  cbn [walk]. destruct (continues_ w); [| eauto].
  destruct ((currentIndex w + dir_ <? lineStartIndex)%Z
            || (currentIndex w + dir_ >=? lineEndIndex)%Z) eqn:E.
  - rewrite (step_off_line w E). cbn. eauto.
  - destruct (step_on_line w E) as (w' & -> & Hi). cbn [mbind Completion_bind].
    apply IH. rewrite Hi.
    apply orb_false_iff in E. destruct E as [E1 E2].
    apply Z.ltb_ge in E1. rewrite Z.geb_leb in E2. apply Z.leb_gt in E2.
    destruct dir_cases as [D | D]; rewrite D in *; cbn [Z.gtb Z.compare] in *; lia.
Qed.

Lemma walk_init_returns (projectionCache0 : ProjectionCache) :
  exists r, walk_ (walk_fuel lineStartIndex lineEndIndex) (init_ projectionCache0)
            = Normal r.
Proof.
  apply walk_returns. unfold walk_fuel, walk_init. cbn [currentIndex].
  destruct dir_cases as [D | D]; rewrite D; cbn [Z.gtb Z.compare]; lia.
Qed.

(** The loop is left by [return null] only from a state whose next index
    is off the line. *)
Lemma walk_null (fuel : nat) (w w' : Walk) :
  walk_ fuel w = Normal (false, w') ->
  continues_ w' = true
  /\ ((currentIndex w' + dir_ <? lineStartIndex)%Z
      || (currentIndex w' + dir_ >=? lineEndIndex)%Z) = true.
Proof.
  revert w. induction fuel as [| fuel IH]; intros w; cbn [walk].
  - destruct (continues_ w); discriminate.
  - destruct (continues_ w) eqn:C; [| discriminate].
    destruct ((currentIndex w + dir_ <? lineStartIndex)%Z
              || (currentIndex w + dir_ >=? lineEndIndex)%Z) eqn:E.
    + rewrite (step_off_line w E). cbn. intros [= <-]. now split.
    + destruct (step_on_line w E) as (w1 & -> & _). cbn [mbind Completion_bind].
      apply IH.
Qed.

Lemma finish_returns (w : Walk) : exists w', finish_ w = Normal w'.
Proof.
  unfold truncate_end. destruct (_ && _); [| eauto].
  cbn [projectionCache set_currentVertex currentIndex].
  destruct (projectionCache w !! currentIndex w); [| cbn; eauto].
  unfold getTruncatedLineSegment. cbn [currentVertex set_currentVertex].
  cbn. eauto.
Qed.

(** [placeGlyphAlongLine] returns: it neither throws nor loops. *)
Lemma placeGlyphAlongLine_returns (projectionCache0 : ProjectionCache) :
  exists glyph projectionCache',
    place_ projectionCache0 = Normal (glyph, projectionCache').
Proof.
  unfold placeGlyphAlongLine.
  destruct (walk_init_returns projectionCache0) as ([placed w] & ->).
  cbn [mbind Completion_bind]. destruct placed; [| eauto].
  destruct (finish_returns w) as (w' & ->). cbn. eauto.
Qed.

(** It returns [null] exactly when the walk has run off the line. *)
Lemma placeGlyphAlongLine_null (projectionCache0 projectionCache' : ProjectionCache) :
  place_ projectionCache0 = Normal (None, projectionCache') <->
  exists w,
    walk_ (walk_fuel lineStartIndex lineEndIndex) (init_ projectionCache0)
    = Normal (false, w)
    /\ projectionCache' = projectionCache w.
Proof.
  unfold placeGlyphAlongLine.
  destruct (walk_init_returns projectionCache0) as ([placed w] & ->).
  cbn [mbind Completion_bind]. destruct placed.
  - destruct (finish_returns w) as (w' & ->). cbn. split.
    + discriminate.
    + intros (w0 & [=] & _).
  - split.
    + intros [= <-]. eauto.
    + intros (w0 & [= <-] & ->). reflexivity.
Qed.

(** One more pass allowed: the loop as the [while] of the source. *)
Lemma walk_S (fuel : nat) (w : Walk) :
  walk_ (S fuel) w
  = (if continues_ w
     then r ← step_ w;
          match r with
          | None => Normal (false, w)
          | Some w' => walk_ fuel w'
          end
     else Normal (true, w)).
Proof. reflexivity. Qed.

Lemma walk_more_fuel (fuel : nat) (w : Walk) r :
  walk_ fuel w = Normal r -> walk_ (S fuel) w = Normal r.
Proof.
  revert w. induction fuel as [| fuel IH]; intros w.
  - rewrite walk_S. cbn [walk].
    destruct (continues_ w); [discriminate | auto].
  - rewrite (walk_S (S fuel)), (walk_S fuel).
    destruct (continues_ w); [| auto].
    destruct (step_ w) as [[w' |] | |]; cbn [mbind Completion_bind];
      try discriminate; auto.
Qed.

Lemma walk_fuel_enough (fuel more : nat) (w : Walk) r :
  walk_ fuel w = Normal r -> walk_ (fuel + more) w = Normal r.
Proof.
  intros L. induction more as [| more IH].
  - now rewrite Nat.add_0_r.
  - rewrite Nat.add_succ_r. now apply walk_more_fuel.
Qed.

(** The loop makes the passes of its body one after the other: after [n]
    passes that go on, from [ws 0] through [ws n], it is at [ws n]. *)
Lemma walk_run (ws : nat -> Walk) (n fuel : nat) :
  (forall k, (k < n)%nat ->
             continues_ (ws k) = true
             /\ step_ (ws k) = Normal (Some (ws (S k)))) ->
  walk_ (n + fuel) (ws O) = walk_ fuel (ws n).
Proof.
  revert fuel. induction n as [| n IH]; intros fuel Run; [reflexivity |].
  replace (S n + fuel)%nat with (n + S fuel)%nat by lia.
  rewrite IH by (intros k Hk; apply Run; lia).
  rewrite walk_S. destruct (Run n (Nat.lt_succ_diag_r n)) as (-> & ->).
  reflexivity.
Qed.

(** A run of passes that ends before an index off the line ends the loop by
    [return null]; one that ends with the offset reached ends it by its
    condition. *)
Lemma walk_runs_off (projectionCache0 : ProjectionCache) (ws : nat -> Walk)
    (n : nat) :
  ws O = init_ projectionCache0 ->
  (forall k, (k < n)%nat ->
             continues_ (ws k) = true
             /\ step_ (ws k) = Normal (Some (ws (S k)))) ->
  continues_ (ws n) = true ->
  step_ (ws n) = Normal None ->
  walk_ (walk_fuel lineStartIndex lineEndIndex) (init_ projectionCache0)
  = Normal (false, ws n).
Proof.
  intros Start Run Goes Off.
  assert (W : walk_ (n + 1) (ws O) = Normal (false, ws n)).
  { rewrite (walk_run ws n 1 Run), walk_S, Goes, Off. reflexivity. }
  destruct (walk_init_returns projectionCache0) as (r & R).
  pose proof (walk_fuel_enough _ (n + 1) _ _ R) as R'.
  pose proof (walk_fuel_enough _ (walk_fuel lineStartIndex lineEndIndex)
                _ _ W) as W'.
  rewrite Start, Nat.add_comm in W'. congruence.
Qed.

Lemma walk_runs_out (projectionCache0 : ProjectionCache) (ws : nat -> Walk)
    (n : nat) :
  ws O = init_ projectionCache0 ->
  (forall k, (k < n)%nat ->
             continues_ (ws k) = true
             /\ step_ (ws k) = Normal (Some (ws (S k)))) ->
  continues_ (ws n) = false ->
  walk_ (walk_fuel lineStartIndex lineEndIndex) (init_ projectionCache0)
  = Normal (true, ws n).
Proof.
  intros Start Run Stops.
  assert (W : walk_ (n + 0) (ws O) = Normal (true, ws n)).
  { rewrite (walk_run ws n 0 Run). cbn [walk]. now rewrite Stops. }
  destruct (walk_init_returns projectionCache0) as (r & R).
  pose proof (walk_fuel_enough _ (n + 0) _ _ R) as R'.
  pose proof (walk_fuel_enough _ (walk_fuel lineStartIndex lineEndIndex)
                _ _ W) as W'.
  rewrite Start, Nat.add_comm in W'. congruence.
Qed.

(** The walk runs past the vertices of the line: [null]. *)
Lemma placeGlyphAlongLine_runs_off (projectionCache0 : ProjectionCache)
    (ws : nat -> Walk) (n : nat) :
  ws O = init_ projectionCache0 ->
  (forall k, (k < n)%nat ->
             continues_ (ws k) = true
             /\ step_ (ws k) = Normal (Some (ws (S k)))) ->
  continues_ (ws n) = true ->
  ((currentIndex (ws n) + dir_ <? lineStartIndex)%Z
   || (currentIndex (ws n) + dir_ >=? lineEndIndex)%Z) = true ->
  place_ projectionCache0 = Normal (None, projectionCache (ws n)).
Proof.
  intros Start Run Goes Off. apply placeGlyphAlongLine_null.
  exists (ws n). split; [| reflexivity].
  apply walk_runs_off; auto using step_off_line.
Qed.

(** The walk reaches the offset on the line: a glyph. *)
Lemma placeGlyphAlongLine_fits (projectionCache0 : ProjectionCache)
    (ws : nat -> Walk) (n : nat) :
  ws O = init_ projectionCache0 ->
  (forall k, (k < n)%nat ->
             continues_ (ws k) = true
             /\ step_ (ws k) = Normal (Some (ws (S k)))) ->
  continues_ (ws n) = false ->
  exists glyph projectionCache',
    place_ projectionCache0 = Normal (Some glyph, projectionCache').
Proof.
  intros Start Run Stops. unfold placeGlyphAlongLine.
  rewrite (walk_runs_out _ ws n Start Run Stops).
  cbn [mbind Completion_bind].
  destruct (finish_returns (ws n)) as (w' & ->).
  cbn [mbind Completion_bind]. now eexists _, _.
Qed.

(** A vertex behind the plane of the camera: the loop body goes on with the
    truncated segment in its place, and does not cache it. *)
Lemma step_truncates (w : Walk) :
  ((currentIndex w + dir_ <? lineStartIndex)%Z
   || (currentIndex w + dir_ >=? lineEndIndex)%Z) = false ->
  projectionCache w !! (currentIndex w + dir_)%Z = None ->
  (signedDistanceFromCamera
     (elevatePointAndProject
        (lineVertex lineVertexArray (currentIndex w + dir_))
        (canonical tileID) labelPlaneMatrix reprojection getElevation)
   >? zero) = false ->
  exists w',
    step_ w = Normal (Some w')
    /\ currentIndex w' = (currentIndex w + dir_)%Z
    /\ prev w' = current w
    /\ current w'
       = projectTruncatedLineSegment
           (if distanceToPrev w =? zero then tileAnchorPoint
            else lineVertex lineVertexArray (currentIndex w + dir_ - dir_))
           (lineVertex lineVertexArray (currentIndex w + dir_))
           (current w)
           (absOffsetX_ - distanceToPrev w + one)
           labelPlaneMatrix getElevation reprojection (canonical tileID)
    /\ projectionCache w' = projectionCache w.
Proof.
  intros E M B. unfold walk_step. rewrite E.
  destruct returnPathInTileCoords;
    cbn [projectionCache push_tilePath]; rewrite M, B;
    eexists; (split; [reflexivity |]); now repeat split.
Qed.

End WalkProperties.

(** ** Not enough room *)

Section NoRoom.
Context `{MathLib}.
Context (symbol : PlacedSymbol) (fontSize : num) (flip keepUpright : bool)
        (posMatrix labelPlaneMatrix glCoordMatrix : Mat4)
        (glyphOffsetArray : list num) (lineVertexArray : list Point)
        (dynamicLayoutVertexArray : SymbolDynamicLayoutArray)
        (anchorPoint tileAnchorPoint : Point)
        (projectionCache projectionCache' : ProjectionCache)
        (aspectRatio : num) (getElevation : option ElevationFn)
        (projection : Projection) (tileID : OverscaledTileID).

(** The call that places the glyph at [glyphIndex] for the symbol. *)
Local Abbreviation place_glyph glyphIndex endGlyph :=
  (placeGlyphAlongLine
     (fontSize / fin 24 * getoffsetX glyphOffsetArray glyphIndex)
     (lineOffsetX symbol * (fontSize / fin 24))
     (lineOffsetY symbol * (fontSize / fin 24)) flip anchorPoint
     tileAnchorPoint (segment symbol) (lineStartIndex symbol)
     (lineStartIndex symbol + lineLength symbol)%Z lineVertexArray
     labelPlaneMatrix getElevation false endGlyph projection tileID).

Local Abbreviation place_glyphs :=
  (placeGlyphsAlongLine symbol fontSize flip keepUpright posMatrix
     labelPlaneMatrix glCoordMatrix glyphOffsetArray lineVertexArray
     dynamicLayoutVertexArray anchorPoint tileAnchorPoint projectionCache
     aspectRatio getElevation projection tileID).

Local Abbreviation no_room :=
  (Normal (mkPlaced (mkPlacement true false false) symbol projectionCache'
             dynamicLayoutVertexArray)).

(** Several glyphs, and the first does not fit. *)
Lemma no_room_for_first_glyph :
  (1 <? numGlyphs symbol)%nat = true ->
  place_glyph (glyphStartIndex symbol) true projectionCache
  = Normal (None, projectionCache') ->
  place_glyphs = no_room.
Proof.
  intros Hn Hp. unfold placeGlyphsAlongLine, placeFirstAndLastGlyph.
  rewrite Hn, Hp. reflexivity.
Qed.

(** Several glyphs, the first fits and the last does not. *)
Lemma no_room_for_last_glyph (first : PlacedGlyph) (cache1 : ProjectionCache) :
  (1 <? numGlyphs symbol)%nat = true ->
  place_glyph (glyphStartIndex symbol) true projectionCache
  = Normal (Some first, cache1) ->
  place_glyph (glyphStartIndex symbol + Z.of_nat (numGlyphs symbol) - 1)%Z
    true cache1
  = Normal (None, projectionCache') ->
  place_glyphs = no_room.
Proof.
  intros Hn Hf Hl. unfold placeGlyphsAlongLine, placeFirstAndLastGlyph.
  rewrite Hn, Hf. cbn [mbind Completion_bind]. rewrite Hl. reflexivity.
Qed.

(** A single glyph that does not fit, the orientation of the label being
    kept; the flip state stored with that decision stays. *)
Lemma no_room_for_single_glyph :
  (1 <? numGlyphs symbol)%nat = false ->
  (keepUpright && negb flip = true ->
   singleGlyphOrientation symbol posMatrix lineVertexArray tileAnchorPoint
     aspectRatio projection tileID = None) ->
  place_glyph (glyphStartIndex symbol) false projectionCache
  = Normal (None, projectionCache') ->
  place_glyphs
  = Normal (mkPlaced (mkPlacement true false false)
              (if keepUpright && negb flip
               then set_flipState flipNotRequired symbol else symbol)
              projectionCache' dynamicLayoutVertexArray).
Proof.
  intros Hn Hk Hp. unfold placeGlyphsAlongLine. rewrite Hn.
  destruct (keepUpright && negb flip).
  - rewrite (Hk eq_refl). cbn [flipState_of set_flipState glyphStartIndex].
    rewrite Hp. reflexivity.
  - rewrite Hp. reflexivity.
Qed.

End NoRoom.

(** ** C6 *)

(** C6: [placeGlyphAlongLine] always returns, a glyph or [null]; it neither
    throws nor runs on.  When the vertex at the next index of the walk is
    not cached and projects with a signed distance from the camera that is
    not positive, the loop body goes on: the current point becomes the
    segment that [projectTruncatedLineSegment] truncates to the length
    [absOffsetX - distanceToPrev + 1], extrapolated from the tile anchor on
    the first pass and from the line vertex before once the walk has
    covered a distance, and nothing is cached.  The loop makes its passes
    one after the other: when passes that all go on lead to a state from
    which the walk still goes on and whose next index is off the vertices
    of the symbol's line, [placeGlyphAlongLine] returns [null]; when they
    lead to a state where the offset is reached, it returns a glyph; and
    [null] is returned in the first way only.  For the first, the last and
    the only glyph of a label the caller, [placeGlyphsAlongLine], then
    returns [{notEnoughRoom: true}]. *)
Theorem behind_camera_truncation_and_not_enough_room `{MathLib}
    (offsetX lineOffX lineOffY : num) (flip : bool)
    (anchorPoint tileAnchorPoint : Point)
    (anchorSegment lineStart lineEnd : Z)
    (lineVertexArray : list Point) (labelPlaneMatrix : Mat4)
    (getElevation : option ElevationFn)
    (returnPathInTileCoords endGlyph : bool)
    (reprojection : Projection) (tileID : OverscaledTileID) :
  let dir := dir offsetX lineOffX flip in
  let step :=
    walk_step offsetX lineOffX flip tileAnchorPoint lineStart
      lineEnd lineVertexArray labelPlaneMatrix getElevation
      returnPathInTileCoords reprojection tileID in
  let goes_on := walk_continues offsetX lineOffX flip in
  let init :=
    walk_init offsetX lineOffX flip anchorPoint tileAnchorPoint anchorSegment
      lineStart in
  let place :=
    placeGlyphAlongLine offsetX lineOffX lineOffY flip anchorPoint
      tileAnchorPoint anchorSegment lineStart lineEnd
      lineVertexArray labelPlaneMatrix getElevation returnPathInTileCoords
      endGlyph reprojection tileID in
  let off_the_line (w : Walk) :=
    (currentIndex w + dir <? lineStart)%Z
    || (currentIndex w + dir >=? lineEnd)%Z in
  let behind (w : Walk) :=
    projectionCache w !! (currentIndex w + dir)%Z = None
    /\ (signedDistanceFromCamera
          (elevatePointAndProject
             (lineVertex lineVertexArray (currentIndex w + dir))
             (canonical tileID) labelPlaneMatrix reprojection getElevation)
        >? zero) = false in
  let truncated_from (previousTilePoint : Point) (w w' : Walk) :=
    step w = Normal (Some w')
    /\ currentIndex w' = (currentIndex w + dir)%Z
    /\ prev w' = current w
    /\ current w'
       = projectTruncatedLineSegment previousTilePoint
           (lineVertex lineVertexArray (currentIndex w + dir))
           (current w)
           (absOffsetX offsetX lineOffX flip - distanceToPrev w + one)
           labelPlaneMatrix getElevation reprojection (canonical tileID)
    /\ projectionCache w' = projectionCache w in
  (* no abort *)
  (forall cache,
      exists glyph cache', place cache = Normal (glyph, cache')) /\
  (* a vertex behind the camera, on the first pass *)
  (forall cache,
      off_the_line (init cache) = false ->
      behind (init cache) ->
      exists w',
        truncated_from tileAnchorPoint (init cache) w'
        /\ prev w' = anchorPoint) /\
  (* and on a later pass, with a distance covered *)
  (forall w : Walk,
      off_the_line w = false ->
      behind w ->
      (distanceToPrev w =? zero) = false ->
      exists w',
        truncated_from (lineVertex lineVertexArray (currentIndex w)) w w') /\
  (* the walk runs off the line: [null] *)
  (forall cache (ws : nat -> Walk) (n : nat),
      ws O = init cache ->
      (forall k, (k < n)%nat ->
                 goes_on (ws k) = true
                 /\ step (ws k) = Normal (Some (ws (S k)))) ->
      goes_on (ws n) = true ->
      off_the_line (ws n) = true ->
      place cache = Normal (None, projectionCache (ws n))) /\
  (* the walk reaches the offset: a glyph *)
  (forall cache (ws : nat -> Walk) (n : nat),
      ws O = init cache ->
      (forall k, (k < n)%nat ->
                 goes_on (ws k) = true
                 /\ step (ws k) = Normal (Some (ws (S k)))) ->
      goes_on (ws n) = false ->
      exists glyph cache', place cache = Normal (Some glyph, cache')) /\
  (* [null] only off the line *)
  (forall cache cache',
      place cache = Normal (None, cache') ->
      exists w,
        walk offsetX lineOffX flip tileAnchorPoint lineStart
          lineEnd lineVertexArray labelPlaneMatrix getElevation
          returnPathInTileCoords reprojection tileID
          (walk_fuel lineStart lineEnd) (init cache)
        = Normal (false, w)
        /\ goes_on w = true
        /\ off_the_line w = true) /\
  (* the caller reports that there is not enough room *)
  (forall symbol fontSize keepUpright posMatrix glCoordMatrix glyphOffsetArray
          dynamicLayoutVertexArray projectionCache projectionCache'
          aspectRatio,
      let glyph glyphIndex endGlyph :=
        placeGlyphAlongLine
          (fontSize / fin 24 * getoffsetX glyphOffsetArray glyphIndex)
          (lineOffsetX symbol * (fontSize / fin 24))
          (lineOffsetY symbol * (fontSize / fin 24)) flip
          anchorPoint tileAnchorPoint (segment symbol)
          (lineStartIndex symbol)
          (lineStartIndex symbol + lineLength symbol)%Z
          lineVertexArray labelPlaneMatrix getElevation false endGlyph
          reprojection tileID in
      let glyphs :=
        placeGlyphsAlongLine symbol fontSize flip keepUpright posMatrix
          labelPlaneMatrix glCoordMatrix glyphOffsetArray lineVertexArray
          dynamicLayoutVertexArray anchorPoint tileAnchorPoint projectionCache
          aspectRatio getElevation reprojection tileID in
      let no_room :=
        Normal (mkPlaced (mkPlacement true false false) symbol
                  projectionCache' dynamicLayoutVertexArray) in
      (* the first of several glyphs *)
      ((1 <? numGlyphs symbol)%nat = true ->
       glyph (glyphStartIndex symbol) true projectionCache
       = Normal (None, projectionCache') ->
       glyphs = no_room)
      (* the last of several glyphs *)
      /\ (forall first cache1,
             (1 <? numGlyphs symbol)%nat = true ->
             glyph (glyphStartIndex symbol) true projectionCache
             = Normal (Some first, cache1) ->
             glyph (glyphStartIndex symbol + Z.of_nat (numGlyphs symbol) - 1)%Z
               true cache1
             = Normal (None, projectionCache') ->
             glyphs = no_room)
      (* a single glyph, with the flip state stored before it is placed *)
      /\ ((1 <? numGlyphs symbol)%nat = false ->
          (keepUpright && negb flip = true ->
           singleGlyphOrientation symbol posMatrix lineVertexArray
             tileAnchorPoint aspectRatio reprojection tileID = None) ->
          glyph (glyphStartIndex symbol) false projectionCache
          = Normal (None, projectionCache') ->
          glyphs
          = Normal (mkPlaced (mkPlacement true false false)
                      (if keepUpright && negb flip
                       then set_flipState flipNotRequired symbol else symbol)
                      projectionCache' dynamicLayoutVertexArray))).
Proof.
  cbv zeta. repeat apply conj.
  - apply placeGlyphAlongLine_returns.
  - intros c E (M & B).
    destruct (step_truncates offsetX lineOffX flip tileAnchorPoint lineStart
                lineEnd lineVertexArray labelPlaneMatrix getElevation
                returnPathInTileCoords reprojection tileID _ E M B)
      as (w' & S & I & P & C & K).
    exists w'. split; [| exact P].
    cbn [walk_init distanceToPrev] in C.
    change (zero =? zero) with true in C. cbv iota in C.
    now repeat split.
  - intros w E (M & B) D.
    destruct (step_truncates offsetX lineOffX flip tileAnchorPoint lineStart
                lineEnd lineVertexArray labelPlaneMatrix getElevation
                returnPathInTileCoords reprojection tileID _ E M B)
      as (w' & S & I & P & C & K).
    exists w'. rewrite D, Z.add_simpl_r in C. now repeat split.
  - intros c ws n. apply placeGlyphAlongLine_runs_off.
  - intros c ws n. apply placeGlyphAlongLine_fits.
  - intros c c' P. apply placeGlyphAlongLine_null in P.
    destruct P as (w & W & _). exists w. split; [exact W |].
    exact (walk_null _ _ _ _ _ _ _ _ _ _ _ _ _ _ _ W).
  - intros. repeat apply conj.
    + apply no_room_for_first_glyph.
    + apply no_room_for_last_glyph.
    + apply no_room_for_single_glyph.
Qed.

(** ** The loop over the symbols *)

Section LabelProperties.
Context `{MathLib}.
Context {SizeData EvaluatedZoomSize : Type}
        (evaluateSizeForZoom : SizeData -> num -> EvaluatedZoomSize)
        (evaluateSizeForFeature :
           SizeData -> EvaluatedZoomSize -> PlacedSymbol -> num).
Context (bucket : SymbolBucket (SizeData := SizeData))
        (posMatrix : Mat4) (painter : Painter)
        (isText : bool) (labelPlaneMatrix glCoordMatrix : Mat4)
        (pitchWithMap keepUpright : bool) (getElevation : option ElevationFn)
        (tileID : OverscaledTileID).

Local Abbreviation body_ :=
  (updateLineLabel evaluateSizeForZoom evaluateSizeForFeature bucket posMatrix
     painter isText labelPlaneMatrix glCoordMatrix pitchWithMap keepUpright
     getElevation tileID).
Local Abbreviation before_ :=
  (labels_before evaluateSizeForZoom evaluateSizeForFeature bucket posMatrix
     painter isText labelPlaneMatrix glCoordMatrix pitchWithMap keepUpright
     getElevation tileID).
Local Abbreviation visible_ symbol :=
  (isVisible (anchorPos posMatrix painter getElevation tileID symbol)
     (clippingBuffer painter)).
Local Abbreviation behind_ symbol :=
  (signedDistanceFromCamera
     (labelPlaneAnchorPoint painter labelPlaneMatrix getElevation tileID symbol)
   <=? zero).

Lemma requiresOrientationChange_UseVertical symbol firstPoint lastPoint ratio :
  requiresOrientationChange symbol firstPoint lastPoint ratio = Some UseVertical ->
  writingMode symbol = WritingMode.horizontal.
Proof.
  unfold requiresOrientationChange.
  destruct (writingMode symbol =? WritingMode.horizontal)%Z eqn:E.
  - intros _. now apply Z.eqb_eq in E.
  - cbn [andb].
    repeat match goal with
           | |- context [if ?c then _ else _] => destruct c
           end; discriminate.
Qed.

(** Only a horizontal symbol makes [placeGlyphsAlongLine] return
    [{useVertical: true}]. *)
Lemma useVertical_of_horizontal symbol fontSize flip upright
    dynamicLayoutVertexArray anchorPoint tileAnchorPoint projectionCache
    ratio getElevation' projection placed :
  placeGlyphsAlongLine symbol fontSize flip upright posMatrix
    labelPlaneMatrix glCoordMatrix (glyphOffsetArray bucket)
    (lineVertexArray bucket) dynamicLayoutVertexArray anchorPoint
    tileAnchorPoint projectionCache ratio getElevation' projection tileID
  = Normal placed ->
  useVertical (placement placed) = true ->
  writingMode symbol = WritingMode.horizontal.
Proof.
  unfold placeGlyphsAlongLine.
  destruct (1 <? numGlyphs symbol)%nat.
  - destruct (placeFirstAndLastGlyph _ _ _ _ _ _ _ _ _ _ _ _ _ _ _)
      as [[[[first last] |] c] | |]; try discriminate;
      cbn [mbind Completion_bind].
    + destruct (upright && negb flip).
      * destruct (requiresOrientationChange _ _ _ _) as [[|] |] eqn:R.
        -- intros _ _. now apply requiresOrientationChange_UseVertical in R.
        -- now intros [= <-].
        -- destruct (placeInteriorGlyphs _ _ _) as [[i c'] | |];
             try discriminate; cbn [mbind Completion_bind].
           destruct (addPlacedGlyphs _ _); try discriminate.
           now intros [= <-].
      * destruct (placeInteriorGlyphs _ _ _) as [[i c'] | |];
          try discriminate; cbn [mbind Completion_bind].
        destruct (addPlacedGlyphs _ _); try discriminate.
        now intros [= <-].
    + now intros [= <-].
  - destruct (upright && negb flip).
    + destruct (singleGlyphOrientation _ _ _ _ _ _ _) as [[|] |] eqn:R.
      * intros _ _. unfold singleGlyphOrientation in R.
        now apply requiresOrientationChange_UseVertical in R.
      * now intros [= <-].
      * destruct (placeGlyphAlongLine _ _ _ _ _ _ _ _ _ _ _ _ _ _ _ _ _)
          as [[[g |] c] | |]; try discriminate; now intros [= <-].
    + destruct (placeGlyphAlongLine _ _ _ _ _ _ _ _ _ _ _ _ _ _ _ _ _)
        as [[[g |] c] | |]; try discriminate; now intros [= <-].
Qed.

(** What one pass through the body of the loop does, by its exit. *)
Lemma body_exits s symbol st outcome st' :
  body_ s symbol st = Normal (outcome, st') ->
  match outcome with
  | SkippedHiddenOrUnpaired =>
      (hidden symbol || (writingMode symbol =? WritingMode.vertical)%Z)
      && negb (overrideUseVertical (labels_symbols st) s symbol
                 (labels_useVertical st)) = true
      /\ st' = mkLabels false
                 (labels_array st ++ replicate (4 * numGlyphs symbol) hiddenVertex)
                 (labels_symbols st)
  | SkippedNotVisible =>
      (hidden symbol || (writingMode symbol =? WritingMode.vertical)%Z)
      && negb (overrideUseVertical (labels_symbols st) s symbol
                 (labels_useVertical st)) = false
      /\ visible_ symbol = false
      /\ st' = mkLabels false
                 (labels_array st ++ replicate (4 * numGlyphs symbol) hiddenVertex)
                 (labels_symbols st)
  | SkippedBehindCamera =>
      (hidden symbol || (writingMode symbol =? WritingMode.vertical)%Z)
      && negb (overrideUseVertical (labels_symbols st) s symbol
                 (labels_useVertical st)) = false
      /\ visible_ symbol = true
      /\ behind_ symbol = true
      /\ st' = mkLabels false
                 (labels_array st ++ replicate (4 * numGlyphs symbol) hiddenVertex)
                 (labels_symbols st)
  | Attempted r =>
      (hidden symbol || (writingMode symbol =? WritingMode.vertical)%Z)
      && negb (overrideUseVertical (labels_symbols st) s symbol
                 (labels_useVertical st)) = false
      /\ visible_ symbol = true
      /\ behind_ symbol = false
      /\ labels_useVertical st' = useVertical r
      /\ (useVertical r = true -> writingMode symbol = WritingMode.horizontal)
      /\ List.length (labels_symbols st') = List.length (labels_symbols st)
  end.
Proof.
  unfold updateLineLabel.
  destruct ((hidden symbol || (writingMode symbol =? WritingMode.vertical)%Z)
            && negb (overrideUseVertical (labels_symbols st) s symbol
                       (labels_useVertical st))) eqn:G.
  { rewrite hideGlyphs_appends. cbn [mbind Completion_bind].
    intros [= <- <-]. split; [reflexivity |].
    apply andb_true_iff in G. destruct G as [_ G].
    apply negb_true_iff in G. now rewrite G. }
  destruct (visible_ symbol) eqn:V; cbn [negb].
  2: { rewrite hideGlyphs_appends. cbn [mbind Completion_bind].
       now intros [= <- <-]. }
  destruct (behind_ symbol) eqn:B.
  { rewrite hideGlyphs_appends. cbn [mbind Completion_bind].
    now intros [= <- <-]. }
  destruct (placeGlyphsAlongLine symbol _ false _ _ _ _ _ _ _ _ _ _ _ _ _ _)
    as [placed | |] eqn:P; try discriminate.
  cbn [mbind Completion_bind].
  pose proof (useVertical_of_horizontal _ _ _ _ _ _ _ _ _ _ _ _ P) as Hh.
  destruct (notEnoughRoom (placement placed) || useVertical (placement placed)).
  - cbn [mbind Completion_bind]. rewrite hideGlyphs_appends.
    cbn [mbind Completion_bind]. intros [= <- <-]. cbn [labels_useVertical labels_symbols].
    repeat split; try assumption. now rewrite length_insert.
  - destruct (needsFlipping (placement placed)).
    + destruct (placeGlyphsAlongLine _ _ true _ _ _ _ _ _ _ _ _ _ _ _ _ _)
        as [flipped | |]; try discriminate.
      cbn [mbind Completion_bind].
      destruct (notEnoughRoom (placement flipped));
        [rewrite hideGlyphs_appends |]; cbn [mbind Completion_bind];
        intros [= <- <-]; cbn [labels_useVertical labels_symbols];
        (repeat split; try assumption; now rewrite length_insert).
    + cbn [mbind Completion_bind]. intros [= <- <-].
      cbn [labels_useVertical labels_symbols].
      repeat split; try assumption. now rewrite length_insert.
Qed.

(** A symbol that fails the visibility gate is hidden, whatever precedes
    it. *)
Lemma gate_hides s symbol st :
  visible_ symbol = false \/ behind_ symbol = true ->
  exists outcome,
    body_ s symbol st
    = Normal (outcome,
              mkLabels false
                (labels_array st ++ replicate (4 * numGlyphs symbol) hiddenVertex)
                (labels_symbols st))
    /\ forall r, outcome <> Attempted r.
Proof.
  intros Gate. unfold updateLineLabel.
  destruct ((hidden symbol || (writingMode symbol =? WritingMode.vertical)%Z)
            && negb (overrideUseVertical (labels_symbols st) s symbol
                       (labels_useVertical st))) eqn:G.
  { rewrite hideGlyphs_appends. cbn [mbind Completion_bind].
    apply andb_true_iff in G. destruct G as [_ G].
    apply negb_true_iff in G. rewrite G.
    eexists. split; [reflexivity | discriminate]. }
  destruct (visible_ symbol) eqn:V; cbn [negb].
  2: { rewrite hideGlyphs_appends. cbn [mbind Completion_bind].
       eexists. split; [reflexivity | discriminate]. }
  destruct Gate as [Gate | Gate]; [discriminate Gate |].
  rewrite Gate, hideGlyphs_appends. cbn [mbind Completion_bind].
  eexists. split; [reflexivity | discriminate].
Qed.

(** The state before a symbol is the state before its predecessor, after
    the body has run on the predecessor. *)
Lemma before_successor p st symbol :
  before_ (S p) = Normal st ->
  labels_symbols st !! S p = Some symbol ->
  exists stp pred outcome,
    before_ p = Normal stp
    /\ labels_symbols stp !! p = Some pred
    /\ body_ p pred stp = Normal (outcome, st).
Proof.
  cbn [labels_before].
  destruct (before_ p) as [stp | |]; try discriminate.
  cbn [mbind Completion_bind].
  destruct (labels_symbols stp !! p) as [pred |] eqn:L.
  - destruct (body_ p pred stp) as [[outcome st1] | |] eqn:B; try discriminate.
    cbn [mbind Completion_bind]. intros [= ->] _.
    exists stp, pred, outcome. now repeat split.
  - intros [= ->] L'. apply lookup_ge_None in L.
    apply lookup_lt_Some in L'. lia.
Qed.

(** [useVertical] is set when the loop reaches a symbol only if the body has
    just attempted the symbol before it, a horizontal one, and its placement
    decided for the vertical glyphs. *)
Lemma useVertical_before s st symbol :
  before_ s = Normal st ->
  labels_symbols st !! s = Some symbol ->
  labels_useVertical st = true ->
  exists p stp pred r,
    s = S p
    /\ before_ p = Normal stp
    /\ labels_symbols stp !! p = Some pred
    /\ writingMode pred = WritingMode.horizontal
    /\ body_ p pred stp = Normal (Attempted r, st)
    /\ useVertical r = true.
Proof.
  destruct s as [| p].
  - cbn [labels_before]. intros [= <-] _ U. discriminate U.
  - intros Hb L U.
    destruct (before_successor p st symbol Hb L) as (stp & pred & o & Hp & Lp & B).
    pose proof (body_exits _ _ _ _ _ B) as E.
    destruct o as [| | | r].
    + destruct E as (_ & ->). discriminate U.
    + destruct E as (_ & _ & ->). discriminate U.
    + destruct E as (_ & _ & _ & ->). discriminate U.
    + destruct E as (_ & _ & _ & Eu & Eh & _).
      rewrite Eu in U. exists p, stp, pred, r. repeat split; auto.
Qed.

(** ** C5 *)

(** C5: when the loop of [updateLineLabels] reaches a symbol whose projected
    anchor fails the padded viewport test (with the clipping buffer
    [256 / width * 2 + 1], [256 / height * 2 + 1]), or whose anchor in the
    label plane has a signed distance from the camera of at most zero, the
    body appends the hidden vertices for all of the symbol's glyphs, leaves
    the symbols as they are and attempts no placement. *)
Theorem visibility_gate s st symbol :
  before_ s = Normal st ->
  labels_symbols st !! s = Some symbol ->
  visible_ symbol = false \/ behind_ symbol = true ->
  clippingBuffer painter
  = (fin 256 / painter_width painter * fin 2 + one,
     fin 256 / painter_height painter * fin 2 + one)
  /\ (exists outcome,
         body_ s symbol st
         = Normal (outcome,
                   mkLabels false
                     (labels_array st
                      ++ replicate (4 * numGlyphs symbol) hiddenVertex)
                     (labels_symbols st))
         /\ forall r, outcome <> Attempted r)
  /\ before_ (S s)
     = Normal (mkLabels false
                 (labels_array st
                  ++ replicate (4 * numGlyphs symbol) hiddenVertex)
                 (labels_symbols st)).
Proof.
  intros Hb L Gate. split; [reflexivity |].
  destruct (gate_hides s symbol st Gate) as (outcome & B & N).
  split; [now exists outcome |].
  cbn [labels_before]. rewrite Hb. cbn [mbind Completion_bind].
  rewrite L, B. reflexivity.
Qed.

Lemma overrideUseVertical_vertical placedSymbols s symbol useVertical0 :
  writingMode symbol = WritingMode.vertical ->
  overrideUseVertical placedSymbols s symbol useVertical0
  = useVertical0
    || bool_decide (s = O)
    || negb (default 0%Z (writingMode <$> placedSymbols !! (s - 1)%nat)
             =? WritingMode.horizontal)%Z.
Proof.
  intros V. unfold overrideUseVertical. rewrite V. cbn [Z.eqb Pos.eqb andb].
  unfold WritingMode.vertical. cbn [Z.eqb Pos.eqb andb].
  destruct useVertical0; cbn [negb orb]; [reflexivity |].
  now destruct (_ || _).
Qed.

(** Whether a vertical symbol passes the pairing test of the body. *)
Lemma pairing_test s st symbol :
  before_ s = Normal st ->
  labels_symbols st !! s = Some symbol ->
  writingMode symbol = WritingMode.vertical ->
  overrideUseVertical (labels_symbols st) s symbol (labels_useVertical st) = true
  <->
  (s = O
   \/ exists pred,
       labels_symbols st !! (s - 1)%nat = Some pred
       /\ writingMode pred <> WritingMode.horizontal)
  \/ (exists p stp pred r,
         s = S p
         /\ before_ p = Normal stp
         /\ labels_symbols stp !! p = Some pred
         /\ writingMode pred = WritingMode.horizontal
         /\ body_ p pred stp = Normal (Attempted r, st)
         /\ useVertical r = true).
Proof.
  intros Hb L V. rewrite (overrideUseVertical_vertical _ _ _ _ V). split.
  - intros O. apply orb_true_iff in O. destruct O as [O | O].
    + apply orb_true_iff in O. destruct O as [U | Z].
      * right. exact (useVertical_before s st symbol Hb L U).
      * left. left. now apply bool_decide_eq_true in Z.
    + destruct (labels_symbols st !! (s - 1)%nat) as [pred |] eqn:Lp.
      * left. right. exists pred. split; [reflexivity |].
        cbn in O. apply negb_true_iff, Z.eqb_neq in O. exact O.
      * apply lookup_ge_None in Lp. apply lookup_lt_Some in L.
        left. left. lia.
  - intros [[Z | (pred & Lp & Np)] | (p & stp & pred & r & -> & Hp & Lp & _ & B & U)].
    + subst s. now rewrite orb_true_r.
    + rewrite Lp. cbn. apply orb_true_iff. right.
      now apply negb_true_iff, Z.eqb_neq.
    + pose proof (body_exits _ _ _ _ _ B) as (_ & _ & _ & Eu & _).
      now rewrite Eu, U.
Qed.

(** ** C7 *)

(** C7: a vertical symbol gets past the pairing test of the loop body
    exactly when it is vertical only (it is the first symbol, or the symbol
    before it is not horizontal), or the symbol before it is horizontal, the
    body has just attempted it and its placement decided for the vertical
    glyphs.  In particular its glyphs are placed only then; in every other
    case the body hides them. *)
Theorem vertical_follows_horizontal s st symbol outcome st' :
  before_ s = Normal st ->
  labels_symbols st !! s = Some symbol ->
  writingMode symbol = WritingMode.vertical ->
  body_ s symbol st = Normal (outcome, st') ->
  let paired :=
    (s = O
     \/ exists pred,
         labels_symbols st !! (s - 1)%nat = Some pred
         /\ writingMode pred <> WritingMode.horizontal)
    \/ (exists p stp pred r,
           s = S p
           /\ before_ p = Normal stp
           /\ labels_symbols stp !! p = Some pred
           /\ writingMode pred = WritingMode.horizontal
           /\ body_ p pred stp = Normal (Attempted r, st)
           /\ useVertical r = true) in
  (outcome <> SkippedHiddenOrUnpaired <-> paired)
  /\ ((exists r, outcome = Attempted r) -> paired)
  /\ (~ paired ->
      st' = mkLabels false
              (labels_array st ++ replicate (4 * numGlyphs symbol) hiddenVertex)
              (labels_symbols st)).
Proof.
  intros Hb L V B paired.
  pose proof (pairing_test s st symbol Hb L V) as T. fold paired in T.
  pose proof (body_exits _ _ _ _ _ B) as E.
  assert (Vb : (writingMode symbol =? WritingMode.vertical)%Z = true)
    by now apply Z.eqb_eq.
  rewrite Vb, orb_true_r in E. cbn [andb] in E.
  assert (I : outcome <> SkippedHiddenOrUnpaired <-> paired).
  { rewrite <- T. destruct outcome; split; intros X.
    - now contradiction X.
    - destruct E as (E & _). rewrite X in E. discriminate E.
    - destruct E as (E & _). now apply negb_false_iff in E.
    - discriminate.
    - destruct E as (E & _). now apply negb_false_iff in E.
    - discriminate.
    - destruct E as (E & _). now apply negb_false_iff in E.
    - discriminate. }
  split; [exact I |]. split.
  - intros (r & ->). apply I. discriminate.
  - intros NP. destruct outcome;
      try (exfalso; apply NP, I; discriminate).
    now destruct E as (_ & ->).
Qed.

End LabelProperties.

(** ** The properties on the examples *)

Lemma placeCollisionBox_rejects_iff_witness :
  exists r,
    placeCollisionBox Example.fogOpacity zero one Example.boxA
      (Point.mk zero zero) false one Example.distant None Example.index
    = Normal (r, Example.index)
    /\ box r = [].
Proof.
  destruct (placeCollisionBox_rejects_iff Example.fogOpacity zero one
              Example.boxA (Point.mk zero zero) false one Example.distant None
              Example.index (fin (989 # 2)) (fin (789 # 2)) (fin (1011 # 2))
              (fin (811 # 2)))
    as (r & Hr & Hiff & _).
  - left. reflexivity.
  - vm_compute. reflexivity.
  - exists r. split; [exact Hr |]. apply Hiff.
    right. right. left. vm_compute. reflexivity.
Defined.

Lemma placeCollisionBox_leaves_grids_witness :
  exists r,
    placeCollisionBox Example.fogOpacity zero one Example.boxA
      (Point.mk zero zero) false one Example.identity None Example.index
    = Normal (r, Example.index).
Proof.
  apply (placeCollisionBox_leaves_grids Example.fogOpacity zero one
           Example.boxA (Point.mk zero zero) false one Example.identity None
           Example.index).
  left. reflexivity.
Defined.

Lemma flip_hysteresis_witness :
  requiresOrientationChange (H := Example.math) Example.flippedSymbol
    (Point.mk zero zero) (Point.mk one (fin 100)) one
  = Some NeedsFlipping
  /\ flipState_of
       (requiresOrientationChange (H := Example.math) Example.flippedSymbol
          (Point.mk zero zero) (Point.mk one (fin 100)) one)
     = flipRequired.
Proof.
  destruct (flip_hysteresis (H := Example.math) Example.flippedSymbol
              (Point.mk zero zero) (Point.mk one (fin 100)) one
              eq_refl eq_refl) as (Hreuse & _).
  apply Hreuse; [discriminate | vm_compute; reflexivity].
Defined.

Lemma isInFlipRetainRange_vertical_segment_witness :
  isInFlipRetainRange (H := Example.math) (Point.mk (Fin 3) zero)
    (Point.mk (Fin 3) (fin 7)) (Fin 2) = true.
Proof.
  apply (proj2 (isInFlipRetainRange_vertical_segment (H := Example.math))).
  reflexivity.
Defined.

Lemma behind_camera_truncation_and_not_enough_room_witness :
  (* a glyph 80 units after the anchor at 50, on a line that ends at 100:
     the walk passes the last vertex and runs off the line *)
  (exists cache',
      placeGlyphAlongLine (H := Example.math) (fin 80) zero zero false
        (Point.mk (fin 50) zero) (Point.mk (fin 50) zero) 1 0 3 Example.line
        Example.identity None false false Example.flat Example.tile ∅
      = Normal (None, cache'))
  (* the vertex at 100 is behind the camera: the walk goes on, to a point 31
     past the anchor at 150 *)
  /\ exists w',
      walk_step (H := Example.math) (fin 30) zero false
        (Point.mk (fin 50) zero) 0 3 Example.line Example.receding None false
        Example.flat Example.tile
        (walk_init (fin 30) zero false (Point.mk (fin 150) zero)
           (Point.mk (fin 50) zero) 1 0 ∅)
      = Normal (Some w')
      /\ current w' = Point.mk (fin 181) zero
      /\ projectionCache w' = ∅.
Proof.
  split.
  - assert (Pass : exists w1,
      walk_step (H := Example.math) (fin 80) zero false
        (Point.mk (fin 50) zero) 0 3 Example.line Example.identity None false
        Example.flat Example.tile
        (walk_init (fin 80) zero false (Point.mk (fin 50) zero)
           (Point.mk (fin 50) zero) 1 0 ∅)
      = Normal (Some w1)
      /\ walk_continues (fin 80) zero false w1 = true
      /\ ((currentIndex w1 + dir (fin 80) zero false <? 0)%Z
          || (currentIndex w1 + dir (fin 80) zero false >=? 3)%Z) = true).
    { eexists. split; [vm_compute; reflexivity |].
      split; vm_compute; reflexivity. }
    destruct Pass as (w1 & Step & Goes & Off).
    exists (projectionCache w1).
    apply (proj1 (proj2 (proj2 (proj2
      (behind_camera_truncation_and_not_enough_room (H := Example.math)
         (fin 80) zero zero false (Point.mk (fin 50) zero)
         (Point.mk (fin 50) zero) 1 0 3 Example.line Example.identity None
         false false Example.flat Example.tile))))
      ∅
      (fun k =>
         match k with
         | O => walk_init (fin 80) zero false (Point.mk (fin 50) zero)
                  (Point.mk (fin 50) zero) 1 0 ∅
         | S _ => w1
         end)
      1%nat).
    + reflexivity.
    + intros k Hk. assert (E : k = O) by lia. subst k.
      split; [vm_compute; reflexivity | exact Step].
    + exact Goes.
    + exact Off.
  - destruct (proj1 (proj2
      (behind_camera_truncation_and_not_enough_room (H := Example.math)
         (fin 30) zero zero false (Point.mk (fin 150) zero)
         (Point.mk (fin 50) zero) 1 0 3 Example.line Example.receding None
         false false Example.flat Example.tile)) ∅)
      as (w' & (Hstep & _ & _ & Hcurrent & Hcache) & _).
    + reflexivity.
    + split; vm_compute; reflexivity.
    + exists w'. split; [exact Hstep |]. split; [| exact Hcache].
      rewrite Hcurrent. vm_compute. reflexivity.
Defined.

(** C6 does not hold as the specification states it, in two places.  A
    [null] among the glyphs between the first and the last is not reported
    as [notEnoughRoom]: with glyphs 8, 80 and 16 units after the anchor at 50
    of a line that ends at 100, the first and the last glyph fit, the one in
    between runs off the line, and the final loop of [placeGlyphsAlongLine]
    throws.  And a vertex behind the camera on the second pass, when no
    distance is covered yet, is extrapolated from the tile anchor and not
    from the line vertex before it: on [Bend.line] the walk goes to
    (29/8, 4), which is not where the extrapolation from the vertex at
    (5/8, 0) leads. *)
Lemma null_between_throws_and_second_pass_from_anchor :
  (* the glyph in between *)
  ((exists cache',
       placeGlyphAlongLine (H := Example.math) (fin 80) zero zero false
         (Point.mk (fin 50) zero) (Point.mk (fin 50) zero) 1 0 3 Example.line
         Example.identity None false false Example.flat Example.tile
         {[ 2%Z := Point.mk (fin 100) zero ]}
       = Normal (None, cache'))
   /\ placeGlyphsAlongLine (H := Example.math) Bend.threeGlyphs (fin 24)
        false false Example.tileToClip Example.identity Example.tileToClip
        [fin 8; fin 80; fin 16] Example.line [] (Point.mk (fin 50) zero)
        (Point.mk (fin 50) zero) ∅ (fin (4 # 3)) None Example.flat
        Example.tile
      = Throw)
  (* the second pass *)
  /\ walk_step (H := Example.math) (fin 4) zero false Bend.anchor 0 3
       Bend.line Bend.labelPlane None false Example.flat Example.tile
       (walk_init (fin 4) zero false Bend.anchor Bend.anchor 0 0 ∅)
     = Normal (Some Bend.afterFirstPass)
  /\ exists w2,
      walk_step (H := Example.math) (fin 4) zero false Bend.anchor 0 3
        Bend.line Bend.labelPlane None false Example.flat Example.tile
        Bend.afterFirstPass
      = Normal (Some w2)
      /\ current w2 = Point.mk (fin (29 # 8)) (fin 4)
      /\ current w2
         = projectTruncatedLineSegment (H := Example.math) Bend.anchor
             (lineVertex Bend.line 2) (current Bend.afterFirstPass)
             (absOffsetX (fin 4) zero false
              - distanceToPrev Bend.afterFirstPass + one)
             Bend.labelPlane None Example.flat (canonical Example.tile)
      /\ current w2
         <> projectTruncatedLineSegment (H := Example.math)
              (lineVertex Bend.line 1) (lineVertex Bend.line 2)
              (current Bend.afterFirstPass)
              (absOffsetX (fin 4) zero false
               - distanceToPrev Bend.afterFirstPass + one)
              Bend.labelPlane None Example.flat (canonical Example.tile).
Proof.
  split; [split |].
  - eexists. vm_compute. reflexivity.
  - vm_compute. reflexivity.
  - split; [vm_compute; reflexivity |].
    eexists. split; [vm_compute; reflexivity |].
    split; [vm_compute; reflexivity |].
    split; [vm_compute; reflexivity |].
    vm_compute. discriminate.
Qed.


(** The glyph of the example, 30 units after an anchor whose next vertex is
    behind the plane of the camera, is placed on the truncated segment. *)
Example glyph_before_the_camera_plane :
  placeGlyphAlongLine (H := Example.math) (fin 30) zero zero false
    (Point.mk (fin 150) zero) (Point.mk (fin 50) zero) 1 0 3 Example.line
    Example.receding None false false Example.flat Example.tile ∅
  = Normal
      (Some (mkPlacedGlyph (Point.mk (fin 180) zero) zero
               [Point.mk (fin 150) zero; Point.mk (fin 180) zero] []),
       ∅).
Proof. vm_compute. reflexivity. Qed.

Lemma visibility_gate_witness :
  labels_before (H := Example.math) Example.evaluateSizeForZoom
    Example.evaluateSizeForFeature (Example.bucketOf [Example.farSymbol])
    Example.tileToClip Example.painter true Example.identity
    Example.tileToClip false true None Example.tile 1
  = Normal (mkLabels false (replicate 12 hiddenVertex) [Example.farSymbol]).
Proof.
  apply (visibility_gate (H := Example.math) Example.evaluateSizeForZoom
           Example.evaluateSizeForFeature
           (Example.bucketOf [Example.farSymbol]) Example.tileToClip
           Example.painter true Example.identity Example.tileToClip false true
           None Example.tile 0
           (mkLabels false [] [Example.farSymbol]) Example.farSymbol).
  - reflexivity.
  - reflexivity.
  - left. vm_compute. reflexivity.
Defined.

(** C5 does not hold for the signed distance of the anchor in clip space.
    Under [Mirror.posMatrix] the anchor is at [w = -2], behind the camera;
    its mirror image passes the viewport test, which divides by [w]; in the
    label plane, the identity here as for a label pitched with the map, its
    signed distance is 1; and the glyph is placed, at 82 on the line. *)
Lemma anchor_behind_the_camera_is_placed :
  v3 (anchorPos Mirror.posMatrix Example.painter None Example.tile
        Example.horizontalSymbol)
  = fin (-2)
  /\ isVisible
       (anchorPos Mirror.posMatrix Example.painter None Example.tile
          Example.horizontalSymbol)
       (clippingBuffer Example.painter)
     = true
  /\ signedDistanceFromCamera
       (labelPlaneAnchorPoint Example.painter Example.identity None
          Example.tile Example.horizontalSymbol)
     = one
  /\ updateLineLabel (H := Example.math) Example.evaluateSizeForZoom
       Example.evaluateSizeForFeature Mirror.bucket Mirror.posMatrix
       Example.painter true Example.identity Example.tileToClip true false
       None Example.tile 0 Example.horizontalSymbol
       (mkLabels false [] [Example.horizontalSymbol])
     = Normal (Attempted (mkPlacement false false false),
               mkLabels false (replicate 4 (fin 82, zero, zero))
                 [Example.horizontalSymbol]).
Proof. repeat split; vm_compute; reflexivity. Qed.



Lemma vertical_follows_horizontal_witness :
  exists st',
    updateLineLabel (H := Example.math) Example.evaluateSizeForZoom
      Example.evaluateSizeForFeature
      (Example.bucketOf [Example.verticalSymbol]) Example.tileToClip
      Example.painter true Example.identity Example.tileToClip false true None
      Example.tile 0 Example.verticalSymbol
      (mkLabels false [] [Example.verticalSymbol])
    = Normal (Attempted (mkPlacement false false false), st')
    /\ Attempted (mkPlacement false false false) <> SkippedHiddenOrUnpaired.
Proof.
  assert (B : exists st',
    updateLineLabel (H := Example.math) Example.evaluateSizeForZoom
      Example.evaluateSizeForFeature
      (Example.bucketOf [Example.verticalSymbol]) Example.tileToClip
      Example.painter true Example.identity Example.tileToClip false true None
      Example.tile 0 Example.verticalSymbol
      (mkLabels false [] [Example.verticalSymbol])
    = Normal (Attempted (mkPlacement false false false), st')).
  { vm_compute. eexists. reflexivity. }
  destruct B as [st' B]. exists st'. split; [exact B |].
  apply (proj2 (proj1 (vertical_follows_horizontal (H := Example.math)
                         Example.evaluateSizeForZoom
                         Example.evaluateSizeForFeature
                         (Example.bucketOf [Example.verticalSymbol])
                         Example.tileToClip Example.painter true
                         Example.identity Example.tileToClip false true None
                         Example.tile 0
                         (mkLabels false [] [Example.verticalSymbol])
                         Example.verticalSymbol
                         (Attempted (mkPlacement false false false)) st'
                         eq_refl eq_refl eq_refl B))).
  left. left. reflexivity.
Defined.

(** The scenario of the specification: a straight line of 100 tile units,
    the anchor at its middle, one glyph 30 units after the anchor, no pitch
    and no bearing.  The glyph lands 30 units along the line from the anchor,
    at angle 0 and without a flip; the vertical counterpart that follows is
    hidden. *)
Example straight_line_scenario :
  updateLineLabels (H := Example.math) Example.evaluateSizeForZoom
    Example.evaluateSizeForFeature
    (Example.bucketOf [Example.horizontalSymbol; Example.verticalSymbol])
    Example.tileToClip Example.painter true Example.identity
    Example.tileToClip false true None Example.tile
  = Normal
      (mkSymbolBuffers
         (replicate 4 (fin 80, zero, zero) ++ replicate 4 hiddenVertex)
         [set_flipState flipNotRequired Example.horizontalSymbol;
          Example.verticalSymbol]).
Proof. vm_compute. reflexivity. Qed.

(* ================================================================== *)
(** * Further properties *)
(* ================================================================== *)

(** ** Arithmetic on finite numbers *)

(** Adding a product by zero of a finite number, then a product by one,
    is adding the factor of one. *)
Lemma fast_path_sum (a m z : num) (q : Q) :
  z = Fin q ->
  a + z * zero + m * one = a + m.
Proof.
  intros ->. destruct a as [| | a |], m as [| | m |]; try reflexivity.
  cbn. apply fin_eq. rewrite !Qred_correct. ring.
Qed.

(** ** The fast path of [project] *)

(** X1: when the three entries of the matrix that multiply [z] in the
    [x], [y] and [w] rows are finite, [xyTransformMat4] gives the [x], [y]
    and [w] that [vec4.transformMat4] gives on a point with [z = 0] and
    [w = 1]; so [project], at elevation 0, is [projectVector] at [z = 0]. *)
Theorem project_fast_path (x y : num) (m : Mat4) :
  is_finite (mat_get m 8) ->
  is_finite (mat_get m 9) ->
  is_finite (mat_get m 11) ->
  let fast := xyTransformMat4 (mkVec4 x y zero one) m in
  let full := transformMat4 (mkVec4 x y zero one) m in
  v0 fast = v0 full /\ v1 fast = v1 full /\ v3 fast = v3 full
  /\ project (Point.mk x y) m zero = projectVector (x, y, zero) m.
Proof.
  intros F8 F9 F11. cbv zeta.
  destruct (mat_get m 8) as [| | q8 |] eqn:E8; try contradiction.
  destruct (mat_get m 9) as [| | q9 |] eqn:E9; try contradiction.
  destruct (mat_get m 11) as [| | q11 |] eqn:E11; try contradiction.
  assert (A0 : v0 (xyTransformMat4 (mkVec4 x y zero one) m)
               = v0 (transformMat4 (mkVec4 x y zero one) m)).
  { cbn [v0 v1 xyTransformMat4 transformMat4]. rewrite E8.
    symmetry. now apply fast_path_sum with q8. }
  assert (A1 : v1 (xyTransformMat4 (mkVec4 x y zero one) m)
               = v1 (transformMat4 (mkVec4 x y zero one) m)).
  { cbn [v0 v1 xyTransformMat4 transformMat4]. rewrite E9.
    symmetry. now apply fast_path_sum with q9. }
  assert (A3 : v3 (xyTransformMat4 (mkVec4 x y zero one) m)
               = v3 (transformMat4 (mkVec4 x y zero one) m)).
  { cbn [v0 v1 v3 xyTransformMat4 transformMat4]. rewrite E11.
    symmetry. now apply fast_path_sum with q11. }
  repeat split; try assumption.
  unfold project, projectVector. change (truthy zero) with false.
  cbv iota zeta. cbn [Point.x Point.y].
  now rewrite A0, A1, A3.
Qed.

Lemma div_Fin (a b : Q) : ~ (b == 0)%Q -> Fin a / Fin b = fin (a / b).
Proof.
  intros N. unfold JS.div.
  destruct (Qcompare b 0) eqn:C; try reflexivity.
  apply Qeq_alt in C. contradiction.
Qed.

(** ** The viewport test *)

Lemma div_negated (a b : Q) :
  ~ (b == 0)%Q -> - Fin a / - Fin b = Fin a / Fin b.
Proof.
  intros N. cbn [neg]. unfold fin.
  rewrite !div_Fin; [| exact N | rewrite Qred_correct; lra].
  apply fin_eq. rewrite !Qred_correct. field. exact N.
Qed.

(** X2: [isVisible] does not tell an anchor in front of the camera from its
    mirror image behind it: negating the [x], [y] and [w] of an anchor
    with finite coordinates and [w] other than zero does not change its
    answer, the test dividing by [w] without looking at its sign. *)
Theorem isVisible_mirror_image
    (x y w : Q) (z z' : num) (clippingBuffer : num * num) :
  ~ (w == 0)%Q ->
  isVisible (mkVec4 (- Fin x) (- Fin y) z' (- Fin w)) clippingBuffer
  = isVisible (mkVec4 (Fin x) (Fin y) z (Fin w)) clippingBuffer.
Proof.
  intros Nw. unfold isVisible. cbn [v0 v1 v3].
  now rewrite !div_negated.
Qed.

Lemma isVisible_mirror_image_witness :
  isVisible (mkVec4 (- Fin 1) (- Fin 0) zero (- Fin 2)) (fin 1.64, fin 1.85)
  = isVisible (mkVec4 (Fin 1) (Fin 0) zero (Fin 2)) (fin 1.64, fin 1.85).
Proof.
  apply (isVisible_mirror_image 1 0 2 zero zero (fin 1.64, fin 1.85)).
  intros E. vm_compute in E. discriminate E.
Defined.

(** ** Clipping by distance *)

Lemma getPerspectiveRatio_behind (c : Q) (s : num) :
  (0 <= c)%Q ->
  (s <? zero) = true ->
  (getPerspectiveRatio (Fin c) s <=? fin 0.55) = true.
Proof.
  intros Hc Hs. destruct s as [| | r |]; try discriminate Hs.
  - reflexivity.
  - apply ltb_Fin in Hs. rewrite Qred_correct in Hs.
    unfold getPerspectiveRatio. rewrite div_Fin by lra.
    unfold fin. cbn [JS.mul JS.add]. unfold fin.
    set (v := Qred (Qred 0.5 + Qred (Qred 0.5 * Qred (c / r)))).
    assert (Hd : (c / r <= 0)%Q).
    { assert (Ht : (c / r * r == c)%Q) by (field; lra).
      destruct (Qlt_le_dec 0 (c / r)) as [P | N]; [| exact N].
      exfalso. nra. }
    assert (Hv : (v == 0.5 + 0.5 * (c / r))%Q).
    { unfold v. now rewrite !Qred_correct. }
    rewrite min_Fin_le.
    + apply leb_Fin. rewrite Qred_correct, Hv. lra.
    + rewrite Qred_correct, Hv. lra.
Qed.

Section CollisionFurther.
Context `{MathLib}.
Context {FogState : Type}
        (getFogOpacityAtTileCoord :
           FogState -> num -> num -> num -> UnwrappedTileID -> Transform -> num)
        (FOG_SYMBOL_CLIPPING_THRESHOLD : num).

Local Abbreviation placeBox := (placeCollisionBox getFogOpacityAtTileCoord
                        FOG_SYMBOL_CLIPPING_THRESHOLD).
Local Abbreviation corners := (boxCorners getFogOpacityAtTileCoord
                       FOG_SYMBOL_CLIPPING_THRESHOLD).
Local Abbreviation projected := (boxProjectedPoint getFogOpacityAtTileCoord
                         FOG_SYMBOL_CLIPPING_THRESHOLD).

(** The perspective ratio of the collision index is the one of
    [getPerspectiveRatio], at the signed distance of the projected point. *)
Lemma projected_perspectiveRatio (ci : CollisionIndex (FogState := FogState))
    posMatrix point tileID checkOcclusion :
  let pp :=
    projectAndGetPerspectiveRatio getFogOpacityAtTileCoord
      FOG_SYMBOL_CLIPPING_THRESHOLD ci posMatrix point tileID checkOcclusion in
  pp_perspectiveRatio pp
  = getPerspectiveRatio (cameraToCenterDistance (ci_transform ci))
      (pp_signedDistanceFromCamera pp).
Proof.
  cbv zeta. unfold projectAndGetPerspectiveRatio, getPerspectiveRatio.
  destruct point as [[p0 p1] p2].
  destruct (truthy p2 || (pitch (ci_transform ci) >? zero)); reflexivity.
Qed.

(** X3: a box whose anchor projects behind the camera (its signed distance
    is negative), or at least ten times as far from the camera as the centre
    of the map, is rejected by [placeCollisionBox], whatever the grid holds
    and whether or not overlap is allowed. *)
Theorem placeCollisionBox_clips_by_distance
    scale collisionBox shift allowOverlap textPixelRatio posMatrix predicate
    (ci : CollisionIndex (FogState := FogState)) (c : Q) :
  elevation_asserted ci collisionBox ->
  cameraToCenterDistance (ci_transform ci) = Fin c ->
  (0 < c)%Q ->
  (pp_signedDistanceFromCamera (projected ci collisionBox posMatrix) <? zero)
  = true
  \/ (pp_signedDistanceFromCamera (projected ci collisionBox posMatrix)
      >=? fin 10 * Fin c) = true ->
  exists r,
    placeBox scale collisionBox shift allowOverlap textPixelRatio posMatrix
      predicate ci = Normal (r, ci)
    /\ box r = [].
Proof.
  intros A Ec Hc D.
  assert (R : (pp_perspectiveRatio (projected ci collisionBox posMatrix)
               <=? fin 0.55) = true).
  { unfold boxProjectedPoint in *.
    rewrite projected_perspectiveRatio, Ec.
    destruct D as [B | F].
    - apply getPerspectiveRatio_behind; [lra | exact B].
    - now apply getPerspectiveRatio_far. }
  destruct (corners ci scale collisionBox shift textPixelRatio posMatrix)
    as [[[tlX tlY] brX] brY] eqn:C.
  destruct (placeCollisionBox_cases getFogOpacityAtTileCoord
              FOG_SYMBOL_CLIPPING_THRESHOLD scale collisionBox shift
              allowOverlap textPixelRatio posMatrix predicate ci
              tlX tlY brX brY A C) as (r & Hr & Hiff & _).
  exists r. split; [exact Hr |]. apply Hiff. right. right. left. exact R.
Qed.

(** X4: an insertion with [ignorePlacement] set changes no result of
    [placeCollisionBox]: the call on the index after the insertion returns
    the box, the off-screen flag and the occlusion flag it returns before
    it, and throws when it throws before it. *)
Theorem ignored_insertion_changes_no_placement
    scale collisionBox shift allowOverlap textPixelRatio posMatrix predicate
    (ci : CollisionIndex (FogState := FogState))
    inserted bucketInstanceId featureIndex collisionGroupID :
  let ci' :=
    insertCollisionBox inserted true bucketInstanceId featureIndex
      collisionGroupID ci in
  placeBox scale collisionBox shift allowOverlap textPixelRatio posMatrix
    predicate ci'
  = match placeBox scale collisionBox shift allowOverlap textPixelRatio
            posMatrix predicate ci with
    | Normal (r, _) => Normal (r, ci')
    | Throw => Throw
    | Diverge => Diverge
    end.
Proof.
  cbv zeta. unfold placeCollisionBox, insertCollisionBox.
  cbn [ci_transform set_grids].
  destruct (has_elevation (ci_transform ci) && _); [reflexivity |].
  change (corners (set_grids (grid ci) _ ci))
    with (corners ci).
  change (projected (set_grids (grid ci) _ ci))
    with (projected ci).
  destruct (corners ci scale collisionBox shift textPixelRatio posMatrix)
    as [[[tlX tlY] brX] brY].
  change (isInsideGrid (set_grids (grid ci) _ ci))
    with (isInsideGrid ci).
  cbn [grid set_grids].
  destruct (_ || _); reflexivity.
Qed.

Lemma hitTest_insert_mono k x1 y1 x2 y2 q1 q2 q3 q4 predicate g :
  Grid.hitTest q1 q2 q3 q4 predicate g = true ->
  Grid.hitTest q1 q2 q3 q4 predicate (Grid.insert k x1 y1 x2 y2 g) = true.
Proof.
  unfold Grid.hitTest, Grid.insert. cbn [Grid.entries].
  rewrite existsb_app. intros ->. reflexivity.
Qed.

(** X5: what the active grid holds only ever stands in the way: a box that
    [placeCollisionBox] rejects is still rejected after any insertion, into
    the active or into the ignored grid. *)
Theorem insertion_keeps_rejections
    scale collisionBox shift allowOverlap textPixelRatio posMatrix predicate
    (ci : CollisionIndex (FogState := FogState)) r
    inserted ignorePlacement bucketInstanceId featureIndex collisionGroupID :
  placeBox scale collisionBox shift allowOverlap textPixelRatio posMatrix
    predicate ci = Normal (r, ci) ->
  box r = [] ->
  let ci' :=
    insertCollisionBox inserted ignorePlacement bucketInstanceId featureIndex
      collisionGroupID ci in
  placeBox scale collisionBox shift allowOverlap textPixelRatio posMatrix
    predicate ci' = Normal (r, ci').
Proof.
  intros P E ci'. subst ci'. revert P.
  unfold placeCollisionBox, insertCollisionBox.
  destruct ignorePlacement; cbn [ci_transform set_grids];
    (destruct (has_elevation (ci_transform ci) && _); [discriminate |]);
    change (corners (set_grids _ _ ci)) with (corners ci);
    change (projected (set_grids _ _ ci)) with (projected ci);
    destruct (corners ci scale collisionBox shift textPixelRatio posMatrix)
      as [[[tlX tlY] brX] brY];
    change (isInsideGrid (set_grids _ _ ci)) with (isInsideGrid ci);
    cbn [grid set_grids].
  - destruct (_ || _); intros [= <-]; [reflexivity | discriminate E].
  - destruct (negb (isInsideGrid ci tlX tlY brX brY)); cbn [orb].
    { intros [= <-]. reflexivity. }
    destruct allowOverlap; cbn [negb andb orb].
    { destruct (_ || _); intros [= <-]; [reflexivity | discriminate E]. }
    destruct (Grid.hitTest tlX tlY brX brY predicate (grid ci)) eqn:Hit.
    + rewrite (hitTest_insert_mono _ _ _ _ _ _ _ _ _ _ _ Hit).
      cbn [orb]. intros [= <-]. reflexivity.
    + cbn [orb]. destruct (_ || _) eqn:Clip.
      * intros [= <-]. now rewrite orb_true_r.
      * intros [= <-]. discriminate E.
Qed.





End CollisionFurther.

(** ** What a placement writes *)

Lemma addDynamicAttributes_appends (a : SymbolDynamicLayoutArray) p angle :
  addDynamicAttributes a p angle
  = a ++ replicate 4 (Point.x p, Point.y p, angle).
Proof.
  unfold addDynamicAttributes, DynamicLayout.emplaceBack. cbn.
  now rewrite <- !app_assoc.
Qed.

Lemma addPlacedGlyphs_appends glyphs (a a' : SymbolDynamicLayoutArray) :
  addPlacedGlyphs glyphs a = Normal a' ->
  exists chunk,
    a' = a ++ chunk /\ List.length chunk = (4 * List.length glyphs)%nat.
Proof.
  revert a. induction glyphs as [| [g |] glyphs IH]; intros a; cbn [addPlacedGlyphs].
  - intros [= <-]. exists []. now rewrite app_nil_r.
  - intros P. apply IH in P. destruct P as (chunk & -> & L).
    rewrite addDynamicAttributes_appends, <- app_assoc.
    eexists. split; [reflexivity |]. rewrite length_app, L. cbn. lia.
  - discriminate.
Qed.

Lemma placeInteriorGlyphs_length indices place cache glyphs cache' :
  placeInteriorGlyphs indices place cache = Normal (glyphs, cache') ->
  List.length glyphs = List.length indices.
Proof.
  revert cache glyphs cache'.
  induction indices as [| i indices IH]; intros cache glyphs cache';
    cbn [placeInteriorGlyphs].
  - now intros [= <- _].
  - destruct (place i cache) as [[g c] | |]; try discriminate.
    cbn [mbind Completion_bind].
    destruct (placeInteriorGlyphs indices place c) as [[gs c'] | |] eqn:R;
      try discriminate.
    cbn [mbind Completion_bind]. intros [= <- _]. cbn. f_equal.
    eapply IH. exact R.
Qed.

Lemma set_flipState_same (s : PlacedSymbol) : set_flipState (flipState s) s = s.
Proof. now destruct s. Qed.

Section PlacementFurther.
Context `{MathLib}.

(** What a call of [placeGlyphsAlongLine] that returns leaves behind. *)
Lemma placeGlyphsAlongLine_effect
    symbol fontSize flip keepUpright posMatrix labelPlaneMatrix glCoordMatrix
    glyphOffsetArray lineVertexArray
    (dynamicLayoutVertexArray : SymbolDynamicLayoutArray)
    anchorPoint tileAnchorPoint projectionCache aspectRatio getElevation
    projection tileID placed :
  placeGlyphsAlongLine symbol fontSize flip keepUpright posMatrix
    labelPlaneMatrix glCoordMatrix glyphOffsetArray lineVertexArray
    dynamicLayoutVertexArray anchorPoint tileAnchorPoint projectionCache
    aspectRatio getElevation projection tileID
  = Normal placed ->
  (* the symbol: its flip state at most, and only for an unflipped upright
     label *)
  placed_symbol placed
  = (if keepUpright && negb flip
     then set_flipState (flipState (placed_symbol placed)) symbol
     else symbol)
  (* the answer and the array *)
  /\ ((placement placed = mkPlacement false false false
       /\ exists chunk,
           placed_array placed = dynamicLayoutVertexArray ++ chunk
           /\ List.length chunk = (4 * Nat.max 1 (numGlyphs symbol))%nat)
      \/ (placed_array placed = dynamicLayoutVertexArray
          /\ (placement placed = mkPlacement true false false
              \/ (keepUpright && negb flip = true
                  /\ (placement placed = mkPlacement false true false
                      \/ placement placed = mkPlacement false false true))))).
Proof.
  unfold placeGlyphsAlongLine.
  destruct (1 <? numGlyphs symbol)%nat eqn:Hn.
  - apply Nat.ltb_lt in Hn.
    destruct (placeFirstAndLastGlyph _ _ _ _ _ _ _ _ _ _ _ _ _ _ _)
      as [[[[first last] |] c] | |]; try discriminate;
      cbn [mbind Completion_bind].
    + destruct (keepUpright && negb flip) eqn:K.
      * destruct (requiresOrientationChange _ _ _ _) as [[|] |].
        -- intros [= <-]. cbn. split; [reflexivity |]. right. auto.
        -- intros [= <-]. cbn. split; [reflexivity |]. right. auto.
        -- destruct (placeInteriorGlyphs _ _ _) as [[i c'] | |] eqn:I;
             try discriminate; cbn [mbind Completion_bind].
           destruct (addPlacedGlyphs _ _) as [a' | |] eqn:A; try discriminate.
           intros [= <-]. cbn. split; [reflexivity |]. left.
           split; [reflexivity |].
           apply addPlacedGlyphs_appends in A. destruct A as (chunk & -> & L).
           exists chunk. split; [reflexivity |]. rewrite L.
           apply placeInteriorGlyphs_length in I.
           rewrite !length_app, I, length_seqZ. cbn. lia.
      * destruct (placeInteriorGlyphs _ _ _) as [[i c'] | |] eqn:I;
          try discriminate; cbn [mbind Completion_bind].
        destruct (addPlacedGlyphs _ _) as [a' | |] eqn:A; try discriminate.
        intros [= <-]. cbn. split; [reflexivity |]. left.
        split; [reflexivity |].
        apply addPlacedGlyphs_appends in A. destruct A as (chunk & -> & L).
        exists chunk. split; [reflexivity |]. rewrite L.
        apply placeInteriorGlyphs_length in I.
        rewrite !length_app, I, length_seqZ. cbn. lia.
    + intros [= <-]. cbn. split.
      * destruct (keepUpright && negb flip); [apply eq_sym, set_flipState_same | reflexivity].
      * right. auto.
  - apply Nat.ltb_ge in Hn.
    destruct (keepUpright && negb flip) eqn:K.
    + destruct (singleGlyphOrientation _ _ _ _ _ _ _) as [[|] |].
      * intros [= <-]. cbn. split; [reflexivity |]. right. auto.
      * intros [= <-]. cbn. split; [reflexivity |]. right. auto.
      * destruct (placeGlyphAlongLine _ _ _ _ _ _ _ _ _ _ _ _ _ _ _ _ _)
          as [[[g |] c] | |]; try discriminate; cbn [mbind Completion_bind].
        -- cbn [addPlacedGlyphs mbind Completion_bind].
           rewrite addDynamicAttributes_appends.
           intros [= <-]. cbn [placed_symbol placement placed_array].
           split; [reflexivity |]. left. split; [reflexivity |].
           eexists. split; [reflexivity |]. cbn. lia.
        -- intros [= <-]. cbn. split; [reflexivity |]. right. auto.
    + destruct (placeGlyphAlongLine _ _ _ _ _ _ _ _ _ _ _ _ _ _ _ _ _)
        as [[[g |] c] | |]; try discriminate; cbn [mbind Completion_bind].
      * cbn [addPlacedGlyphs mbind Completion_bind].
        rewrite addDynamicAttributes_appends.
        intros [= <-]. cbn [placed_symbol placement placed_array].
        split; [reflexivity |]. left. split; [reflexivity |].
        eexists. split; [reflexivity |]. cbn. lia.
      * intros [= <-]. cbn. split; [reflexivity |]. right. auto.
Qed.

End PlacementFurther.

(** ** The loop over the symbols of a bucket *)

Section LabelsFurther.
Context `{MathLib}.
Context {SizeData EvaluatedZoomSize : Type}
        (evaluateSizeForZoom : SizeData -> num -> EvaluatedZoomSize)
        (evaluateSizeForFeature :
           SizeData -> EvaluatedZoomSize -> PlacedSymbol -> num).
Context (bucket : SymbolBucket (SizeData := SizeData)) (posMatrix : Mat4)
        (painter : Painter) (isText : bool)
        (labelPlaneMatrix glCoordMatrix : Mat4)
        (pitchWithMap keepUpright : bool) (getElevation : option ElevationFn)
        (tileID : OverscaledTileID).

Local Abbreviation body :=
  (updateLineLabel evaluateSizeForZoom evaluateSizeForFeature bucket posMatrix
     painter isText labelPlaneMatrix glCoordMatrix pitchWithMap keepUpright
     getElevation tileID).
Local Abbreviation before :=
  (labels_before evaluateSizeForZoom evaluateSizeForFeature bucket posMatrix
     painter isText labelPlaneMatrix glCoordMatrix pitchWithMap keepUpright
     getElevation tileID).
Local Abbreviation symbols0 :=
  (placedSymbolArray (if isText then text bucket else icon bucket)).

(** One pass through the body adds four vertices for each glyph of the
    symbol and changes the flip state of that symbol at most. *)
Lemma updateLineLabel_effect (s : nat) (symbol : PlacedSymbol) (st : Labels)
    outcome st' :
  labels_symbols st !! s = Some symbol ->
  body s symbol st = Normal (outcome, st') ->
  ((1 <= numGlyphs symbol)%nat ->
   exists chunk,
     labels_array st' = labels_array st ++ chunk
     /\ List.length chunk = (4 * numGlyphs symbol)%nat)
  /\ (exists f,
        labels_symbols st' = <[s := set_flipState f symbol]> (labels_symbols st))
  /\ (keepUpright = false -> labels_symbols st' = labels_symbols st).
Proof.
  intros At.
  assert (Same : labels_symbols st
                 = <[s := set_flipState (flipState symbol) symbol]>
                     (labels_symbols st)).
  { rewrite set_flipState_same. symmetry. now apply list_insert_id. }
  assert (Hidden : forall a,
             exists chunk,
               a ++ replicate (4 * numGlyphs symbol) hiddenVertex = a ++ chunk
               /\ List.length chunk = (4 * numGlyphs symbol)%nat).
  { intros a. eexists. split; [reflexivity |]. apply length_replicate. }
  unfold updateLineLabel.
  destruct ((hidden symbol || (writingMode symbol =? WritingMode.vertical)%Z)
            && negb _).
  { rewrite hideGlyphs_appends. cbn [mbind Completion_bind].
    intros [= _ <-]. cbn [labels_array labels_symbols]. eauto 6. }
  destruct (negb (isVisible _ _)).
  { rewrite hideGlyphs_appends. cbn [mbind Completion_bind].
    intros [= _ <-]. cbn [labels_array labels_symbols]. eauto 6. }
  destruct (_ <=? zero).
  { rewrite hideGlyphs_appends. cbn [mbind Completion_bind].
    intros [= _ <-]. cbn [labels_array labels_symbols]. eauto 6. }
  destruct (placeGlyphsAlongLine symbol _ false _ _ _ _ _ _ _ _ _ _ _ _ _ _)
    as [unflipped | |] eqn:U; try discriminate.
  cbn [mbind Completion_bind].
  apply placeGlyphsAlongLine_effect in U.
  destruct U as (Sym & Arr). rewrite andb_true_r in Sym, Arr.
  assert (N : numGlyphs (placed_symbol unflipped) = numGlyphs symbol).
  { rewrite Sym. now destruct keepUpright. }
  assert (F : exists f, placed_symbol unflipped = set_flipState f symbol).
  { destruct keepUpright.
    - exists (flipState (placed_symbol unflipped)). exact Sym.
    - exists (flipState symbol). now rewrite set_flipState_same. }
  assert (K : keepUpright = false ->
              <[s := placed_symbol unflipped]> (labels_symbols st)
              = labels_symbols st).
  { intros ->. rewrite Sym. now apply list_insert_id. }
  destruct Arr as [(P & chunk & A & L) | (A & P)].
  - (* placed without a flip *)
    rewrite P. cbn [notEnoughRoom useVertical needsFlipping orb].
    cbn [mbind Completion_bind].
    intros [= _ <-]. cbn [labels_array labels_symbols].
    split; [| split; [| exact K]].
    + intros One. exists chunk. split; [exact A |]. rewrite L. f_equal. lia.
    + destruct F as [f ->]. now exists f.
  - destruct P as [P | (_ & [P | P])]; rewrite P;
      cbn [notEnoughRoom useVertical needsFlipping orb].
    + cbn [mbind Completion_bind]. rewrite hideGlyphs_appends, N, A.
      cbn [mbind Completion_bind].
      intros [= _ <-]. cbn [labels_array labels_symbols].
      split; [intros _; apply Hidden | split; [| exact K]].
      destruct F as [f ->]. now exists f.
    + cbn [mbind Completion_bind]. rewrite hideGlyphs_appends, N, A.
      cbn [mbind Completion_bind].
      intros [= _ <-]. cbn [labels_array labels_symbols].
      split; [intros _; apply Hidden | split; [| exact K]].
      destruct F as [f ->]. now exists f.
    + (* the flipped attempt *)
      destruct (placeGlyphsAlongLine _ _ true _ _ _ _ _ _ _ _ _ _ _ _ _ _)
        as [flipped | |] eqn:Fl; try discriminate.
      cbn [mbind Completion_bind].
      apply placeGlyphsAlongLine_effect in Fl.
      destruct Fl as (Sym' & Arr'). rewrite andb_false_r in Sym', Arr'.
      rewrite Sym'.
      destruct Arr' as [(P' & chunk & A' & L') | (A' & [P' | (? & _)])];
        try discriminate; rewrite P'; cbn [notEnoughRoom].
      * cbn [mbind Completion_bind].
        intros [= _ <-]. cbn [labels_array labels_symbols].
        split; [| split; [| exact K]].
        -- intros One. exists chunk. rewrite A', A. split; [reflexivity |].
           rewrite L', N. f_equal. lia.
        -- destruct F as [f ->]. now exists f.
      * rewrite hideGlyphs_appends, N, A', A. cbn [mbind Completion_bind].
        intros [= _ <-]. cbn [labels_array labels_symbols].
        split; [intros _; apply Hidden | split; [| exact K]].
        destruct F as [f ->]. now exists f.
Qed.

(** The state of the loop at any index: the array holds four vertices for
    each glyph of the symbols passed, and the symbols are the ones of the
    bucket up to their flip states. *)
Lemma labels_before_invariant (s : nat) (st : Labels) :
  before s = Normal st ->
  (Forall (fun symbol => (1 <= numGlyphs symbol)%nat) symbols0 ->
   List.length (labels_array st)
   = (4 * sum_list_with numGlyphs (take s symbols0))%nat)
  /\ Forall2 (fun now was => exists f, now = set_flipState f was)
       (labels_symbols st) symbols0
  /\ (keepUpright = false -> labels_symbols st = symbols0).
Proof.
  revert st. induction s as [| s IH]; intros st.
  - cbn [labels_before]. intros [= <-]. cbn [labels_array labels_symbols].
    split; [intros _; now rewrite take_0 |].
    split; [| reflexivity].
    apply Forall2_same_length_lookup. split; [reflexivity |].
    intros i a b Ha Hb. exists (flipState b).
    rewrite set_flipState_same. congruence.
  - cbn [labels_before].
    destruct (before s) as [st0 | |]; try discriminate.
    cbn [mbind Completion_bind].
    destruct (IH st0 eq_refl) as (Len & Sym & Keep).
    destruct (labels_symbols st0 !! s) as [symbol |] eqn:At.
    + destruct (Forall2_lookup_l _ _ _ _ _ Sym At) as (was & At0 & f0 & ->).
      assert (G : Forall (fun symbol => (1 <= numGlyphs symbol)%nat) symbols0 ->
                  (1 <= numGlyphs (set_flipState f0 was))%nat).
      { intros One. cbn. eapply (proj1 (Forall_lookup _ _) One). exact At0. }
      destruct (body s _ st0) as [[outcome st1] | |] eqn:B; try discriminate.
      cbn [mbind Completion_bind]. intros [= <-].
      destruct (updateLineLabel_effect _ _ _ _ _ At B) as (C & (f & S') & K).
      split; [| split].
      * intros One. destruct (C (G One)) as (chunk & A & L).
        rewrite A, length_app, Len, L by exact One.
        rewrite (take_S_r _ _ _ At0), sum_list_with_app. cbn. lia.
      * rewrite S'. apply Forall2_same_length_lookup. split.
        -- rewrite length_insert. eapply Forall2_length, Sym.
        -- intros i a b Ha Hb. destruct (decide (i = s)) as [-> | Ne].
           ++ rewrite list_lookup_insert_eq in Ha
                by (eapply lookup_lt_Some, At).
             injection Ha as <-. rewrite At0 in Hb. injection Hb as <-.
             now exists f.
           ++ rewrite list_lookup_insert_ne in Ha by congruence.
             exact (Forall2_lookup_lr _ _ _ _ _ _ Sym Ha Hb).
      * intros E. rewrite (K E). auto.
    + intros [= <-]. split; [| split; assumption].
      intros One. rewrite Len by exact One. do 2 f_equal.
      apply lookup_ge_None in At.
      pose proof (Forall2_length _ _ _ Sym) as E.
      rewrite !take_ge by lia. reflexivity.
Qed.

Lemma labels_before_grows (s : nat) (st' : Labels) :
  Forall (fun symbol => (1 <= numGlyphs symbol)%nat) symbols0 ->
  before (S s) = Normal st' ->
  exists st chunk,
    before s = Normal st /\ labels_array st' = labels_array st ++ chunk.
Proof.
  intros One. cbn [labels_before].
  destruct (before s) as [st0 | |] eqn:B0; try discriminate.
  cbn [mbind Completion_bind].
  destruct (labels_before_invariant _ _ B0) as (_ & Sym & _).
  destruct (labels_symbols st0 !! s) as [symbol |] eqn:At.
  - destruct (Forall2_lookup_l _ _ _ _ _ Sym At) as (was & At0 & f0 & ->).
    destruct (body s _ st0) as [[outcome st1] | |] eqn:B; try discriminate.
    cbn [mbind Completion_bind]. intros [= <-].
    destruct (updateLineLabel_effect _ _ _ _ _ At B) as (C & _).
    destruct C as (chunk & A & _).
    { cbn. eapply (proj1 (Forall_lookup _ _) One). exact At0. }
    now exists st0, chunk.
  - intros [= <-]. exists st0, []. now rewrite app_nil_r.
Qed.

Lemma labels_before_prefix (s k : nat) (st st' : Labels) :
  Forall (fun symbol => (1 <= numGlyphs symbol)%nat) symbols0 ->
  before s = Normal st ->
  before (s + k) = Normal st' ->
  exists rest, labels_array st' = labels_array st ++ rest.
Proof.
  intros One B. revert st'. induction k as [| k IH]; intros st'.
  - rewrite Nat.add_0_r, B. intros [= <-]. exists []. now rewrite app_nil_r.
  - rewrite Nat.add_succ_r. intros B'.
    apply labels_before_grows in B'; [| exact One].
    destruct B' as (st1 & chunk & B1 & A).
    destruct (IH _ B1) as (rest & A1).
    exists (rest ++ chunk). now rewrite A, A1, app_assoc.
Qed.

(** X7: when every symbol of the bucket has at least one glyph, a call of
    [updateLineLabels] that returns leaves in the dynamic layout array
    exactly four vertices for each glyph of the bucket's symbols, whatever
    the array held before and whichever symbols were placed or hidden.  The
    array only grows during the loop, so that the vertices of a symbol come
    right after those of the symbols before it: what the loop has written
    when it reaches index [s] is the part of the final array that holds
    four vertices for each glyph of the symbols before [s]. *)
Theorem updateLineLabels_array_length (buffers : SymbolBuffers) :
  Forall (fun symbol => (1 <= numGlyphs symbol)%nat) symbols0 ->
  updateLineLabels evaluateSizeForZoom evaluateSizeForFeature bucket posMatrix
    painter isText labelPlaneMatrix glCoordMatrix pitchWithMap keepUpright
    getElevation tileID
  = Normal buffers ->
  List.length (dynamicLayoutVertexArray buffers)
  = (4 * sum_list_with numGlyphs symbols0)%nat
  /\ forall s st,
       before s = Normal st ->
       labels_array st
       = take (4 * sum_list_with numGlyphs (take s symbols0))
           (dynamicLayoutVertexArray buffers).
Proof.
  intros One. unfold updateLineLabels.
  destruct (before _) as [final | |] eqn:B; try discriminate.
  cbn [mbind Completion_bind]. intros [= <-].
  cbn [dynamicLayoutVertexArray].
  destruct (labels_before_invariant _ _ B) as (Len & _).
  specialize (Len One). rewrite take_ge in Len by lia.
  split; [exact Len |].
  intros s st Bs.
  destruct (labels_before_invariant _ _ Bs) as (Ls & _). specialize (Ls One).
  destruct (Nat.le_ge_cases s (List.length symbols0)) as [Le | Ge].
  - replace (List.length symbols0) with (s + (List.length symbols0 - s))%nat
      in B by lia.
    destruct (labels_before_prefix _ _ _ _ One Bs B) as (rest & ->).
    now rewrite <- Ls, take_app_length.
  - replace s with (List.length symbols0 + (s - List.length symbols0))%nat
      in Bs by lia.
    destruct (labels_before_prefix _ _ _ _ One B Bs) as (rest & E).
    rewrite take_ge in Ls by lia.
    assert (R : rest = []).
    { apply nil_length_inv. apply (f_equal List.length) in E.
      rewrite length_app in E. lia. }
    subst rest. rewrite app_nil_r in E. rewrite E.
    rewrite take_ge; [reflexivity |]. rewrite take_ge by lia. lia.
Qed.

(** X8: a call of [updateLineLabels] that returns keeps the symbols of the
    bucket, in number and in order, and changes nothing of a symbol but its
    flip state; with [keepUpright] off it changes no symbol at all. *)
Theorem updateLineLabels_symbols (buffers : SymbolBuffers) :
  updateLineLabels evaluateSizeForZoom evaluateSizeForFeature bucket posMatrix
    painter isText labelPlaneMatrix glCoordMatrix pitchWithMap keepUpright
    getElevation tileID
  = Normal buffers ->
  Forall2 (fun now was => exists f, now = set_flipState f was)
    (placedSymbolArray buffers) symbols0
  /\ (keepUpright = false -> placedSymbolArray buffers = symbols0).
Proof.
  unfold updateLineLabels.
  destruct (before _) as [st | |] eqn:B; try discriminate.
  cbn [mbind Completion_bind]. intros [= <-].
  cbn [placedSymbolArray].
  destruct (labels_before_invariant _ _ B) as (_ & Sym & Keep).
  now split.
Qed.

End LabelsFurther.

(** X9: a call of [placeGlyphsAlongLine] that returns writes all the glyphs
    of the symbol or none.  Either it reports no flag and has appended four
    vertices for each glyph (for one glyph when the symbol has none), or it
    reports exactly one flag and hands the array back as it was; [useVertical]
    and [needsFlipping] are reported by an unflipped call with [keepUpright]
    only, and no other call touches the symbol. *)
Theorem placeGlyphsAlongLine_all_or_nothing `{MathLib}
    symbol fontSize flip keepUpright posMatrix labelPlaneMatrix glCoordMatrix
    glyphOffsetArray lineVertexArray
    (dynamicLayoutVertexArray : SymbolDynamicLayoutArray)
    anchorPoint tileAnchorPoint projectionCache aspectRatio getElevation
    projection tileID placed :
  placeGlyphsAlongLine symbol fontSize flip keepUpright posMatrix
    labelPlaneMatrix glCoordMatrix glyphOffsetArray lineVertexArray
    dynamicLayoutVertexArray anchorPoint tileAnchorPoint projectionCache
    aspectRatio getElevation projection tileID
  = Normal placed ->
  ((placement placed = mkPlacement false false false
    /\ exists chunk,
        placed_array placed = dynamicLayoutVertexArray ++ chunk
        /\ List.length chunk = (4 * Nat.max 1 (numGlyphs symbol))%nat)
   \/ (placed_array placed = dynamicLayoutVertexArray
       /\ (placement placed = mkPlacement true false false
           \/ placement placed = mkPlacement false true false
           \/ placement placed = mkPlacement false false true)))
  /\ (keepUpright && negb flip = false ->
      placed_symbol placed = symbol
      /\ useVertical (placement placed) = false
      /\ needsFlipping (placement placed) = false).
Proof.
  intros P. apply placeGlyphsAlongLine_effect in P.
  destruct P as (Sym & [(P & Arr) | (Arr & [P | (K & [P | P])])]).
  - split; [left; now split |]. intros K. rewrite K in Sym. now rewrite P.
  - split; [right; split; [exact Arr | now left] |].
    intros K. rewrite K in Sym. now rewrite P.
  - split; [right; split; [exact Arr | right; now left] |].
    intros K'. congruence.
  - split; [right; split; [exact Arr | right; now right] |].
    intros K'. congruence.
Qed.

(** ** The further properties on the examples *)

Lemma project_fast_path_witness :
  project (Point.mk (fin 3) (fin 4)) Example.identity zero
  = projectVector (fin 3, fin 4, zero) Example.identity.
Proof.
  apply (project_fast_path (fin 3) (fin 4) Example.identity I I I).
Defined.

Lemma placeCollisionBox_clips_by_distance_witness :
  exists r,
    placeCollisionBox Example.fogOpacity zero one Example.boxA
      (Point.mk zero zero) false one Example.distant None Example.index
    = Normal (r, Example.index)
    /\ box r = [].
Proof.
  apply (placeCollisionBox_clips_by_distance Example.fogOpacity zero one
           Example.boxA (Point.mk zero zero) false one Example.distant None
           Example.index 1).
  - left. reflexivity.
  - reflexivity.
  - reflexivity.
  - right. vm_compute. reflexivity.
Defined.

Lemma insertion_keeps_rejections_witness :
  placeCollisionBox Example.fogOpacity zero one Example.boxA
    (Point.mk zero zero) false one Example.distant None
    (insertCollisionBox [zero; zero; fin 20; fin 20] false 1 1 0 Example.index)
  = Normal (mkPlacedBox [] false false,
            insertCollisionBox [zero; zero; fin 20; fin 20] false 1 1 0
              Example.index).
Proof.
  apply (insertion_keeps_rejections Example.fogOpacity zero one Example.boxA
           (Point.mk zero zero) false one Example.distant None Example.index
           (mkPlacedBox [] false false) [zero; zero; fin 20; fin 20] false
           1 1 0).
  - vm_compute. reflexivity.
  - reflexivity.
Defined.


Lemma updateLineLabels_array_length_witness :
  exists buffers,
    updateLineLabels (H := Example.math) Example.evaluateSizeForZoom
      Example.evaluateSizeForFeature
      (Example.bucketOf [Example.horizontalSymbol; Example.farSymbol])
      Example.tileToClip Example.painter true Example.identity
      Example.tileToClip false true None Example.tile
    = Normal buffers
    /\ List.length (dynamicLayoutVertexArray buffers) = 16%nat.
Proof.
  assert (B : exists buffers,
    updateLineLabels (H := Example.math) Example.evaluateSizeForZoom
      Example.evaluateSizeForFeature
      (Example.bucketOf [Example.horizontalSymbol; Example.farSymbol])
      Example.tileToClip Example.painter true Example.identity
      Example.tileToClip false true None Example.tile
    = Normal buffers).
  { vm_compute. eexists. reflexivity. }
  destruct B as [buffers B]. exists buffers. split; [exact B |].
  apply (updateLineLabels_array_length (H := Example.math)
           Example.evaluateSizeForZoom Example.evaluateSizeForFeature
           (Example.bucketOf [Example.horizontalSymbol; Example.farSymbol])
           Example.tileToClip Example.painter true Example.identity
           Example.tileToClip false true None Example.tile buffers).
  - repeat constructor.
  - exact B.
Defined.

Lemma updateLineLabels_symbols_witness :
  exists buffers,
    updateLineLabels (H := Example.math) Example.evaluateSizeForZoom
      Example.evaluateSizeForFeature
      (Example.bucketOf [Example.horizontalSymbol; Example.farSymbol])
      Example.tileToClip Example.painter true Example.identity
      Example.tileToClip false false None Example.tile
    = Normal buffers
    /\ placedSymbolArray buffers
       = [Example.horizontalSymbol; Example.farSymbol].
Proof.
  assert (B : exists buffers,
    updateLineLabels (H := Example.math) Example.evaluateSizeForZoom
      Example.evaluateSizeForFeature
      (Example.bucketOf [Example.horizontalSymbol; Example.farSymbol])
      Example.tileToClip Example.painter true Example.identity
      Example.tileToClip false false None Example.tile
    = Normal buffers).
  { vm_compute. eexists. reflexivity. }
  destruct B as [buffers B]. exists buffers. split; [exact B |].
  apply (proj2 (updateLineLabels_symbols (H := Example.math)
                  Example.evaluateSizeForZoom Example.evaluateSizeForFeature
                  (Example.bucketOf
                     [Example.horizontalSymbol; Example.farSymbol])
                  Example.tileToClip Example.painter true Example.identity
                  Example.tileToClip false false None Example.tile buffers B)).
  reflexivity.
Defined.

Lemma placeGlyphsAlongLine_all_or_nothing_witness :
  exists placed,
    placeGlyphsAlongLine (H := Example.math) Example.horizontalSymbol (fin 24)
      true true Example.tileToClip Example.identity Example.tileToClip
      [fin 30; fin 30; fin 30] Example.line [] (Point.mk (fin 50) zero)
      (Point.mk (fin 50) zero) ∅ (fin (4 # 3)) None Example.flat Example.tile
    = Normal placed
    /\ placed_symbol placed = Example.horizontalSymbol.
Proof.
  assert (B : exists placed,
    placeGlyphsAlongLine (H := Example.math) Example.horizontalSymbol (fin 24)
      true true Example.tileToClip Example.identity Example.tileToClip
      [fin 30; fin 30; fin 30] Example.line [] (Point.mk (fin 50) zero)
      (Point.mk (fin 50) zero) ∅ (fin (4 # 3)) None Example.flat Example.tile
    = Normal placed).
  { vm_compute. eexists. reflexivity. }
  destruct B as [placed B]. exists placed. split; [exact B |].
  apply (proj2 (placeGlyphsAlongLine_all_or_nothing (H := Example.math)
                  _ _ _ _ _ _ _ _ _ _ _ _ _ _ _ _ _ _ B)).
  reflexivity.
Defined.

(** ** The projection cache *)

Section CacheFurther.
Context `{MathLib}.
Context (offsetX lineOffX lineOffY : num) (flip : bool)
        (anchorPoint tileAnchorPoint : Point)
        (anchorSegment lineStart lineEnd : Z)
        (lineVertices : list Point) (labelPlaneMatrix : Mat4)
        (getElevation : option ElevationFn)
        (returnPathInTileCoords endGlyph : bool)
        (reprojection : Projection) (tileID : OverscaledTileID).

Local Abbreviation projected i :=
  (elevatePointAndProject (lineVertex lineVertices i) (canonical tileID)
     labelPlaneMatrix reprojection getElevation).
Local Abbreviation step :=
  (walk_step offsetX lineOffX flip tileAnchorPoint lineStart lineEnd
     lineVertices labelPlaneMatrix getElevation returnPathInTileCoords
     reprojection tileID).
Local Abbreviation loop :=
  (walk offsetX lineOffX flip tileAnchorPoint lineStart lineEnd lineVertices
     labelPlaneMatrix getElevation returnPathInTileCoords reprojection tileID).
Local Abbreviation place :=
  (placeGlyphAlongLine offsetX lineOffX lineOffY flip anchorPoint
     tileAnchorPoint anchorSegment lineStart lineEnd lineVertices
     labelPlaneMatrix getElevation returnPathInTileCoords endGlyph
     reprojection tileID).

(** An entry the walk may have written: the projection of the line vertex
    of its index, which is on the line and in front of the camera. *)
Local Abbreviation written i p :=
  ((lineStart <= i < lineEnd)%Z
   /\ (signedDistanceFromCamera (projected i) >? zero) = true
   /\ p = point (projected i)).

(** What the cache holds after [cache0]: all of it, and written entries. *)
Local Abbreviation extends cache0 cache :=
  (cache0 ⊆ cache
   /\ forall i p, cache !! i = Some p ->
                  cache0 !! i = Some p \/ written i p).

Lemma step_extends (cache0 : ProjectionCache) (w w' : Walk) :
  extends cache0 (projectionCache w) ->
  step w = Normal (Some w') ->
  extends cache0 (projectionCache w').
Proof.
  intros (Sub & New). unfold walk_step. cbv zeta.
  destruct (_ || _) eqn:Range; [discriminate |].
  apply orb_false_iff in Range. destruct Range as (Lo & Hi).
  apply Z.ltb_ge in Lo. rewrite Z.geb_leb in Hi. apply Z.leb_gt in Hi.
  set (index' := (currentIndex w + _)%Z) in *.
  match goal with
  | |- context [if returnPathInTileCoords then ?a else ?b] =>
      set (w2 := if returnPathInTileCoords then a else b)
  end.
  assert (C : projectionCache w2 = projectionCache w)
    by (subst w2; now destruct returnPathInTileCoords).
  rewrite C.
  destruct (projectionCache w !! index') as [cached |] eqn:Hit.
  - cbn [mbind Completion_bind]. intros [= <-].
    cbn [projectionCache set_distances set_currentVertex set_current].
    rewrite C. cbn [projectionCache]. now split.
  - destruct (signedDistanceFromCamera (projected index') >? zero) eqn:Front.
    + cbn [mbind Completion_bind]. intros [= <-].
      cbn [projectionCache set_distances set_projectionCache set_current
             set_currentVertex].
      rewrite C. cbn [projectionCache]. split.
      * etrans; [exact Sub |]. now apply insert_subseteq.
      * intros i p. destruct (decide (i = index')) as [-> | Ne].
        -- rewrite lookup_insert_eq. intros [= <-]. right.
           split; [lia |]. now split.
        -- rewrite lookup_insert_ne by congruence. apply New.
    + destruct (getTruncatedLineSegment _ _ _ _ _ _ _ _ _ _)
        as [truncated | |]; try discriminate.
      cbn [mbind Completion_bind]. intros [= <-].
      cbn [projectionCache set_distances set_current set_currentVertex].
      rewrite C. cbn [projectionCache]. now split.
Qed.

Lemma walk_extends (cache0 : ProjectionCache) (fuel : nat) (w w' : Walk) b :
  extends cache0 (projectionCache w) ->
  loop fuel w = Normal (b, w') ->
  extends cache0 (projectionCache w').
Proof.
  revert w. induction fuel as [| fuel IH]; intros w E; cbn [walk].
  - destruct (walk_continues _ _ _ w); [discriminate |]. now intros [= _ <-].
  - destruct (walk_continues _ _ _ w); [| now intros [= _ <-]].
    destruct (step w) as [[next |] | |] eqn:S; try discriminate;
      cbn [mbind Completion_bind].
    + apply IH. eapply step_extends; eassumption.
    + now intros [= _ <-].
Qed.

Lemma placeGlyphAlongLine_extends (cache0 cache1 : ProjectionCache) r :
  endGlyph && bool_decide (is_Some getElevation) = false ->
  place cache0 = Normal (r, cache1) ->
  cache0 ⊆ cache1
  /\ forall i p,
       cache1 !! i = Some p ->
       cache0 !! i = Some p
       \/ ((lineStart <= i < lineEnd)%Z
           /\ (signedDistanceFromCamera (projected i) >? zero) = true
           /\ p = point (projected i)).
Proof.
  intros Flat. unfold placeGlyphAlongLine.
  destruct (walk _ _ _ _ _ _ _ _ _ _ _ _ _ _) as [[b w] | |] eqn:W;
    try discriminate.
  cbn [mbind Completion_bind].
  assert (E : extends cache0 (projectionCache w)).
  { eapply walk_extends; [| exact W]. cbn [walk_init projectionCache].
    split; [reflexivity | auto]. }
  destruct b.
  - unfold truncate_end. rewrite Flat. cbn [mbind Completion_bind].
    now intros [= _ <-].
  - now intros [= _ <-].
Qed.

(** X10: without the truncation of end glyphs over terrain, a call of
    [placeGlyphAlongLine] only adds to the projection cache: every entry it
    was given is still there, and every other entry is the projection of
    the line vertex of its index, a vertex of the line of the symbol that
    lies in front of the plane of the camera. *)
Theorem placeGlyphAlongLine_cache (cache0 cache1 : ProjectionCache) r :
  endGlyph && bool_decide (is_Some getElevation) = false ->
  place cache0 = Normal (r, cache1) ->
  cache0 ⊆ cache1
  /\ forall i p,
       cache1 !! i = Some p ->
       cache0 !! i = Some p
       \/ ((lineStart <= i < lineEnd)%Z
           /\ (signedDistanceFromCamera (projected i) >? zero) = true
           /\ p = point (projected i)).
Proof. apply placeGlyphAlongLine_extends. Qed.


(** A cache that holds nothing but projections of line vertices in front of
    the camera. *)
Local Abbreviation sound cache :=
  (forall i p, cache !! i = Some p ->
               (signedDistanceFromCamera (projected i) >? zero) = true
               /\ p = point (projected i)).

(** Two walks that differ in their caches at most (and in the tile
    coordinates they collect). *)
Local Abbreviation alike w v :=
  (currentIndex w = currentIndex v
   /\ current w = current v
   /\ prev w = prev v
   /\ distanceToPrev w = distanceToPrev v
   /\ currentSegmentDistance w = currentSegmentDistance v
   /\ pathVertices w = pathVertices v
   /\ (returnPathInTileCoords = false -> tilePath w = tilePath v)
   /\ sound (projectionCache w)
   /\ sound (projectionCache v)).

Lemma sound_insert (cache : ProjectionCache) (i : Z) :
  sound cache ->
  (signedDistanceFromCamera (projected i) >? zero) = true ->
  sound (<[i := point (projected i)]> cache).
Proof.
  intros S Front j p. destruct (decide (j = i)) as [-> | Ne].
  - rewrite lookup_insert_eq. intros [= <-]. now split.
  - rewrite lookup_insert_ne by congruence. apply S.
Qed.

Lemma step_alike (w v : Walk) :
  alike w v ->
  (step w = Normal None /\ step v = Normal None)
  \/ (exists w' v',
        step w = Normal (Some w') /\ step v = Normal (Some v') /\ alike w' v').
Proof.
  destruct w as [i c p d s pv tp cv pc], v as [i' c' p' d' s' pv' tp' cv' pc'].
  cbn [currentIndex current prev distanceToPrev currentSegmentDistance
         pathVertices tilePath projectionCache].
  intros (<- & <- & <- & <- & <- & <- & T & Sw & Sv).
  unfold walk_step.
  cbn [currentIndex current prev distanceToPrev currentSegmentDistance
         pathVertices tilePath currentVertex projectionCache].
  destruct (_ || _); [left; now split |]. right. cbv zeta.
  set (index' := (i + _)%Z) in *.
  revert T.
  destruct (signedDistanceFromCamera (projected index') >? zero) eqn:Front;
    destruct returnPathInTileCoords; intros T;
    cbn [push_tilePath currentIndex current prev distanceToPrev
           currentSegmentDistance pathVertices tilePath currentVertex
           projectionCache];
    destruct (pc !! index') as [a |] eqn:Hw;
    destruct (pc' !! index') as [b |] eqn:Hv;
    try (destruct (Sw _ _ Hw) as (Fw & ->));
    try (destruct (Sv _ _ Hv) as (Fv & ->));
    try congruence;
    cbn [mbind Completion_bind getTruncatedLineSegment set_currentVertex
           set_current set_projectionCache set_distances currentIndex current
           prev distanceToPrev currentSegmentDistance pathVertices tilePath
           currentVertex projectionCache];
    eexists _, _;
    (split; [reflexivity |]); (split; [reflexivity |]);
    cbn [push_tilePath set_currentVertex set_current set_projectionCache
           set_distances currentIndex current prev distanceToPrev
           currentSegmentDistance pathVertices tilePath currentVertex
           projectionCache];
    do 6 (split; [reflexivity |]);
    (split; [first [discriminate | exact T] |]);
    split; first [assumption | now apply sound_insert].
Qed.

Lemma walk_alike (fuel : nat) (w v w' : Walk) (b : bool) :
  alike w v ->
  loop fuel w = Normal (b, w') ->
  exists v', loop fuel v = Normal (b, v') /\ alike w' v'.
Proof.
  revert w v. induction fuel as [| fuel IH]; intros w v A; cbn [walk].
  - assert (C : walk_continues offsetX lineOffX flip w
                = walk_continues offsetX lineOffX flip v).
    { unfold walk_continues. destruct A as (_ & _ & _ & -> & -> & _).
      reflexivity. }
    rewrite <- C. destruct (walk_continues _ _ _ w); [discriminate |].
    intros [= <- <-]. now exists v.
  - assert (C : walk_continues offsetX lineOffX flip w
                = walk_continues offsetX lineOffX flip v).
    { unfold walk_continues. destruct A as (_ & _ & _ & -> & -> & _).
      reflexivity. }
    rewrite <- C. destruct (walk_continues _ _ _ w).
    + destruct (step_alike _ _ A) as [(-> & ->) | (a & a' & -> & -> & A')];
        cbn [mbind Completion_bind].
      * intros [= <- <-]. now exists v.
      * now apply IH.
    + intros [= <- <-]. now exists v.
Qed.

(** X11: the projection cache saves work and changes no result.  Without
    the truncation of end glyphs over terrain and without the path in tile
    coordinates, a call of [placeGlyphAlongLine] on a cache that holds
    projections of line vertices in front of the camera only returns the
    glyph, or the [null], that it returns on any other such cache, the
    empty one among them. *)
Theorem placeGlyphAlongLine_cache_transparent
    (cache cache' cache1 : ProjectionCache) r :
  endGlyph && bool_decide (is_Some getElevation) = false ->
  returnPathInTileCoords = false ->
  (forall i p, cache !! i = Some p ->
               (signedDistanceFromCamera (projected i) >? zero) = true
               /\ p = point (projected i)) ->
  (forall i p, cache' !! i = Some p ->
               (signedDistanceFromCamera (projected i) >? zero) = true
               /\ p = point (projected i)) ->
  place cache = Normal (r, cache1) ->
  exists cache1', place cache' = Normal (r, cache1').
Proof.
  intros Flat Tile S S'. unfold placeGlyphAlongLine.
  destruct (walk _ _ _ _ _ _ _ _ _ _ _ _ _ (walk_init _ _ _ _ _ _ _ cache))
    as [[b w] | |] eqn:W; try discriminate.
  cbn [mbind Completion_bind].
  assert (A0 : alike
                 (walk_init offsetX lineOffX flip anchorPoint tileAnchorPoint
                    anchorSegment lineStart cache)
                 (walk_init offsetX lineOffX flip anchorPoint tileAnchorPoint
                    anchorSegment lineStart cache')).
  { cbn [walk_init currentIndex current prev distanceToPrev
           currentSegmentDistance pathVertices tilePath projectionCache].
    do 7 (split; [reflexivity |]). now split. }
  destruct (walk_alike _ _ _ _ _ A0 W) as (v & -> & A).
  cbn [mbind Completion_bind].
  destruct b.
  - unfold truncate_end. rewrite Flat. cbn [mbind Completion_bind].
    intros [= <- _]. eexists. do 2 f_equal.
    destruct A as (Ei & Ec & Ep & Ed & Es & Ev & Et & _).
    unfold glyph_on_segment. rewrite Tile in *.
    now rewrite Ec, Ep, Ed, Es, Ev, (Et eq_refl).
  - intros [= <- _]. now eexists.
Qed.
End CacheFurther.

(** ** The flip state and the answer of a placement *)

(** X12: after an unflipped call of [placeGlyphsAlongLine] with
    [keepUpright], the flip state of the symbol tells the answer of the
    call: it is [flipRequired] when the call asks for a flip and
    [flipNotRequired] when it placed the glyphs or asks for the vertical
    ones.  A label of several glyphs that runs out of room keeps the flip
    state it had, as the decision is not reached; a label of a single glyph
    decides first and runs out of room as [flipNotRequired]. *)
Theorem flip_state_follows_answer `{MathLib}
    symbol fontSize posMatrix labelPlaneMatrix glCoordMatrix
    glyphOffsetArray lineVertexArray
    (dynamicLayoutVertexArray : SymbolDynamicLayoutArray)
    anchorPoint tileAnchorPoint projectionCache aspectRatio getElevation
    projection tileID placed :
  placeGlyphsAlongLine symbol fontSize false true posMatrix
    labelPlaneMatrix glCoordMatrix glyphOffsetArray lineVertexArray
    dynamicLayoutVertexArray anchorPoint tileAnchorPoint projectionCache
    aspectRatio getElevation projection tileID
  = Normal placed ->
  flipState (placed_symbol placed)
  = (if needsFlipping (placement placed) then flipRequired
     else if notEnoughRoom (placement placed) && (1 <? numGlyphs symbol)%nat
     then flipState symbol
     else flipNotRequired).
Proof.
  unfold placeGlyphsAlongLine. cbn [andb negb].
  destruct (1 <? numGlyphs symbol)%nat.
  - destruct (placeFirstAndLastGlyph _ _ _ _ _ _ _ _ _ _ _ _ _ _ _)
      as [[[[first last] |] c] | |]; try discriminate;
      cbn [mbind Completion_bind].
    + destruct (requiresOrientationChange _ _ _ _) as [[|] |].
      * now intros [= <-].
      * now intros [= <-].
      * destruct (placeInteriorGlyphs _ _ _) as [[i c'] | |];
          try discriminate; cbn [mbind Completion_bind].
        destruct (addPlacedGlyphs _ _); try discriminate.
        now intros [= <-].
    + now intros [= <-].
  - destruct (singleGlyphOrientation _ _ _ _ _ _ _) as [[|] |].
    + now intros [= <-].
    + now intros [= <-].
    + destruct (placeGlyphAlongLine _ _ _ _ _ _ _ _ _ _ _ _ _ _ _ _ _)
        as [[[g |] c] | |]; try discriminate; cbn [mbind Completion_bind];
        now intros [= <-].
Qed.

Lemma flip_state_follows_answer_witness :
  exists placed,
    placeGlyphsAlongLine (H := Example.math) Example.horizontalSymbol (fin 24)
      false true Example.tileToClip Example.identity Example.tileToClip
      [fin 30; fin 30; fin 30] Example.line [] (Point.mk (fin 50) zero)
      (Point.mk (fin 50) zero) ∅ (fin (4 # 3)) None Example.flat Example.tile
    = Normal placed
    /\ flipState (placed_symbol placed) = flipNotRequired.
Proof.
  assert (B : exists placed,
    placeGlyphsAlongLine (H := Example.math) Example.horizontalSymbol (fin 24)
      false true Example.tileToClip Example.identity Example.tileToClip
      [fin 30; fin 30; fin 30] Example.line [] (Point.mk (fin 50) zero)
      (Point.mk (fin 50) zero) ∅ (fin (4 # 3)) None Example.flat Example.tile
    = Normal placed
    /\ placement placed = mkPlacement false false false).
  { vm_compute. eexists. split; reflexivity. }
  destruct B as (placed & B & P). exists placed. split; [exact B |].
  rewrite (flip_state_follows_answer (H := Example.math)
             _ _ _ _ _ _ _ _ _ _ _ _ _ _ _ _ B).
  now rewrite P.
Defined.

(** ** A shorter offset fits where a longer one does *)

Lemma leb_trans (x y z : num) :
  (x <=? y) = true -> (y <=? z) = true -> (x <=? z) = true.
Proof.
  destruct x as [| | a |], y as [| | b |], z as [| | c |];
    try reflexivity; try discriminate.
  rewrite !leb_Fin. apply Qle_trans.
Qed.

Section ShorterOffset.
Context `{MathLib}.
Context (longer shorter lineOffX : num) (flip : bool)
        (anchorPoint tileAnchorPoint : Point)
        (anchorSegment lineStart lineEnd : Z)
        (lineVertices : list Point) (labelPlaneMatrix : Mat4)
        (getElevation : option ElevationFn)
        (returnPathInTileCoords : bool)
        (reprojection : Projection) (tileID : OverscaledTileID).

Local Abbreviation projected i :=
  (elevatePointAndProject (lineVertex lineVertices i) (canonical tileID)
     labelPlaneMatrix reprojection getElevation).
Local Abbreviation step offsetX :=
  (walk_step offsetX lineOffX flip tileAnchorPoint lineStart lineEnd
     lineVertices labelPlaneMatrix getElevation returnPathInTileCoords
     reprojection tileID).
Local Abbreviation loop offsetX :=
  (walk offsetX lineOffX flip tileAnchorPoint lineStart lineEnd lineVertices
     labelPlaneMatrix getElevation returnPathInTileCoords reprojection tileID).
Local Abbreviation sound cache :=
  (forall i p, cache !! i = Some p -> p = point (projected i)).
Local Abbreviation together w v :=
  (currentIndex w = currentIndex v
   /\ current w = current v
   /\ distanceToPrev w = distanceToPrev v
   /\ currentSegmentDistance w = currentSegmentDistance v
   /\ sound (projectionCache w)
   /\ sound (projectionCache v)).

Hypothesis same_direction :
  dir shorter lineOffX flip = dir longer lineOffX flip.
Hypothesis not_longer :
  (absOffsetX shorter lineOffX flip <=? absOffsetX longer lineOffX flip)
  = true.
Hypothesis in_front :
  forall i, (lineStart <= i < lineEnd)%Z ->
            (signedDistanceFromCamera (projected i) >? zero) = true.

Lemma sound_insert_point (cache : ProjectionCache) (i : Z) :
  sound cache -> sound (<[i := point (projected i)]> cache).
Proof.
  intros S j p. destruct (decide (j = i)) as [-> | Ne].
  - rewrite lookup_insert_eq. now intros [= <-].
  - rewrite lookup_insert_ne by congruence. apply S.
Qed.

(** The two walks take the same step. *)
Lemma step_together (w v : Walk) :
  together w v ->
  (step shorter w = Normal None /\ step longer v = Normal None)
  \/ (exists w' v',
        step shorter w = Normal (Some w')
        /\ step longer v = Normal (Some v')
        /\ together w' v').
Proof using same_direction in_front.
  destruct w as [i c p d s pv tp cv pc], v as [i' c' p' d' s' pv' tp' cv' pc'].
  cbn [currentIndex current distanceToPrev currentSegmentDistance
         projectionCache].
  intros (<- & <- & <- & <- & Sw & Sv).
  unfold walk_step. rewrite same_direction.
  cbn [currentIndex current prev distanceToPrev currentSegmentDistance
         pathVertices tilePath currentVertex projectionCache].
  destruct (_ || _) eqn:Range; [left; now split |]. right. cbv zeta.
  apply orb_false_iff in Range. destruct Range as (Lo & Hi).
  apply Z.ltb_ge in Lo. rewrite Z.geb_leb in Hi. apply Z.leb_gt in Hi.
  set (index' := (i + _)%Z) in *.
  pose proof (in_front index' (conj Lo Hi)) as Front.
  destruct returnPathInTileCoords;
    cbn [push_tilePath currentIndex current prev distanceToPrev
           currentSegmentDistance pathVertices tilePath currentVertex
           projectionCache];
    rewrite Front;
    destruct (pc !! index') as [a |] eqn:Hw;
    destruct (pc' !! index') as [b |] eqn:Hv;
    try (rewrite (Sw _ _ Hw)); try (rewrite (Sv _ _ Hv));
    cbn [mbind Completion_bind set_currentVertex set_current
           set_projectionCache set_distances currentIndex current prev
           distanceToPrev currentSegmentDistance pathVertices tilePath
           currentVertex projectionCache];
    eexists _, _;
    (split; [reflexivity |]); (split; [reflexivity |]);
    cbn [push_tilePath set_currentVertex set_current set_projectionCache
           set_distances currentIndex current prev distanceToPrev
           currentSegmentDistance pathVertices tilePath currentVertex
           projectionCache];
    do 4 (split; [reflexivity |]);
    split; first [assumption | now apply sound_insert_point].
Qed.

(** Where the longer walk leaves the loop by its condition, the shorter one
    has done so no later. *)
Lemma walk_together (fuel : nat) (w v v' : Walk) :
  together w v ->
  loop longer fuel v = Normal (true, v') ->
  exists w', loop shorter fuel w = Normal (true, w').
Proof using same_direction not_longer in_front.
  revert w v. induction fuel as [| fuel IH]; intros w v T; cbn [walk];
    destruct (walk_continues shorter lineOffX flip w) eqn:Cw;
    try (intros _; now eexists).
  - assert (Cv : walk_continues longer lineOffX flip v = true).
    { unfold walk_continues in *. destruct T as (_ & _ & <- & <- & _).
      eapply leb_trans; [exact Cw | exact not_longer]. }
    now rewrite Cv.
  - assert (Cv : walk_continues longer lineOffX flip v = true).
    { unfold walk_continues in *. destruct T as (_ & _ & <- & <- & _).
      eapply leb_trans; [exact Cw | exact not_longer]. }
    rewrite Cv.
    destruct (step_together _ _ T) as [(-> & ->) | (a & a' & -> & -> & T')];
      cbn [mbind Completion_bind]; [discriminate |].
    now apply IH.
Qed.

End ShorterOffset.

Lemma shorter_offset_fits `{MathLib}
    (longer shorter lineOffX lineOffY lineOffY' : num) (flip : bool)
    (anchorPoint tileAnchorPoint : Point)
    (anchorSegment lineStart lineEnd : Z)
    (lineVertices : list Point) (labelPlaneMatrix : Mat4)
    (getElevation : option ElevationFn)
    (returnPathInTileCoords endGlyph endGlyph' : bool)
    (reprojection : Projection) (tileID : OverscaledTileID)
    (cache cache' cache1 : ProjectionCache) (glyph : PlacedGlyph) :
  dir shorter lineOffX flip = dir longer lineOffX flip ->
  (absOffsetX shorter lineOffX flip <=? absOffsetX longer lineOffX flip)
  = true ->
  (forall i, (lineStart <= i < lineEnd)%Z ->
             (signedDistanceFromCamera
                (elevatePointAndProject (lineVertex lineVertices i)
                   (canonical tileID) labelPlaneMatrix reprojection
                   getElevation) >? zero) = true) ->
  (forall i p, cache !! i = Some p ->
               p = point (elevatePointAndProject (lineVertex lineVertices i)
                            (canonical tileID) labelPlaneMatrix reprojection
                            getElevation)) ->
  (forall i p, cache' !! i = Some p ->
               p = point (elevatePointAndProject (lineVertex lineVertices i)
                            (canonical tileID) labelPlaneMatrix reprojection
                            getElevation)) ->
  placeGlyphAlongLine longer lineOffX lineOffY flip anchorPoint
    tileAnchorPoint anchorSegment lineStart lineEnd lineVertices
    labelPlaneMatrix getElevation returnPathInTileCoords endGlyph
    reprojection tileID cache
  = Normal (Some glyph, cache1) ->
  exists glyph' cache1',
    placeGlyphAlongLine shorter lineOffX lineOffY' flip anchorPoint
      tileAnchorPoint anchorSegment lineStart lineEnd lineVertices
      labelPlaneMatrix getElevation returnPathInTileCoords endGlyph'
      reprojection tileID cache'
    = Normal (Some glyph', cache1').
Proof.
  intros Dir Short Front S S'. unfold placeGlyphAlongLine.
  destruct (walk longer _ _ _ _ _ _ _ _ _ _ _ _ _) as [[b v] | |] eqn:W;
    try discriminate.
  cbn [mbind Completion_bind].
  destruct b; [| discriminate]. intros _.
  destruct (walk_together longer shorter lineOffX flip tileAnchorPoint
              lineStart lineEnd lineVertices labelPlaneMatrix getElevation
              returnPathInTileCoords reprojection tileID Dir Short Front
              (walk_fuel lineStart lineEnd)
              (walk_init shorter lineOffX flip anchorPoint tileAnchorPoint
                 anchorSegment lineStart cache')
              (walk_init longer lineOffX flip anchorPoint tileAnchorPoint
                 anchorSegment lineStart cache) v)
    as (w & ->).
  - unfold walk_init. rewrite Dir.
    cbn [currentIndex current distanceToPrev currentSegmentDistance
           projectionCache].
    do 4 (split; [reflexivity |]). now split.
  - exact W.
  - cbn [mbind Completion_bind].
    edestruct finish_returns as (w' & ->).
    cbn [mbind Completion_bind]. now eexists _, _.
Qed.

(** X13: a glyph fits where one further out does.  On a line whose vertices
    all project in front of the plane of the camera, and on caches that hold
    projections of line vertices only, when [placeGlyphAlongLine] places a
    glyph at some offset it also places one, instead of returning [null], at
    any offset in the same direction that is not longer.  This is what
    [placeGlyphsAlongLine] counts on when it places the glyphs between the
    first and the last without a check. *)
Theorem placeGlyphAlongLine_shorter_fits `{MathLib}
    (longer shorter lineOffX lineOffY lineOffY' : num) (flip : bool)
    (anchorPoint tileAnchorPoint : Point)
    (anchorSegment lineStart lineEnd : Z)
    (lineVertices : list Point) (labelPlaneMatrix : Mat4)
    (getElevation : option ElevationFn)
    (returnPathInTileCoords endGlyph endGlyph' : bool)
    (reprojection : Projection) (tileID : OverscaledTileID)
    (cache cache' cache1 : ProjectionCache) (glyph : PlacedGlyph) :
  dir shorter lineOffX flip = dir longer lineOffX flip ->
  (absOffsetX shorter lineOffX flip <=? absOffsetX longer lineOffX flip)
  = true ->
  (forall i, (lineStart <= i < lineEnd)%Z ->
             (signedDistanceFromCamera
                (elevatePointAndProject (lineVertex lineVertices i)
                   (canonical tileID) labelPlaneMatrix reprojection
                   getElevation) >? zero) = true) ->
  (forall i p, cache !! i = Some p ->
               p = point (elevatePointAndProject (lineVertex lineVertices i)
                            (canonical tileID) labelPlaneMatrix reprojection
                            getElevation)) ->
  (forall i p, cache' !! i = Some p ->
               p = point (elevatePointAndProject (lineVertex lineVertices i)
                            (canonical tileID) labelPlaneMatrix reprojection
                            getElevation)) ->
  placeGlyphAlongLine longer lineOffX lineOffY flip anchorPoint
    tileAnchorPoint anchorSegment lineStart lineEnd lineVertices
    labelPlaneMatrix getElevation returnPathInTileCoords endGlyph
    reprojection tileID cache
  = Normal (Some glyph, cache1) ->
  exists glyph' cache1',
    placeGlyphAlongLine shorter lineOffX lineOffY' flip anchorPoint
      tileAnchorPoint anchorSegment lineStart lineEnd lineVertices
      labelPlaneMatrix getElevation returnPathInTileCoords endGlyph'
      reprojection tileID cache'
    = Normal (Some glyph', cache1').
Proof. apply shorter_offset_fits. Qed.

(** ** The glyphs between the first and the last *)

Lemma addPlacedGlyphs_returns (glyphs : list PlacedGlyph)
    (a : SymbolDynamicLayoutArray) :
  exists a', addPlacedGlyphs (Some <$> glyphs) a = Normal a'.
Proof.
  revert a. induction glyphs as [| g glyphs IH]; intros a; cbn.
  - now eexists.
  - apply IH.
Qed.

Section InteriorFurther.
Context `{MathLib}.
Context (symbol : PlacedSymbol) (fontSize : num) (flip keepUpright : bool)
        (posMatrix labelPlaneMatrix glCoordMatrix : Mat4)
        (glyphOffsets : list num) (lineVertices : list Point)
        (anchorPoint tileAnchorPoint : Point) (aspectRatio : num)
        (reprojection : Projection) (tileID : OverscaledTileID).

Local Abbreviation fontScale := (fontSize / fin 24).
Local Abbreviation lineOffX := (lineOffsetX symbol * fontScale).
Local Abbreviation lineOffY := (lineOffsetY symbol * fontScale).
Local Abbreviation offsetOf j := (fontScale * getoffsetX glyphOffsets j).
Local Abbreviation lineStart := (lineStartIndex symbol).
Local Abbreviation lineEnd := (lineStartIndex symbol + lineLength symbol)%Z.
Local Abbreviation firstIndex := (glyphStartIndex symbol).
Local Abbreviation lastIndex :=
  (glyphStartIndex symbol + Z.of_nat (numGlyphs symbol) - 1)%Z.
Local Abbreviation projected i :=
  (elevatePointAndProject (lineVertex lineVertices i) (canonical tileID)
     labelPlaneMatrix reprojection None).
Local Abbreviation placeAt endGlyph j :=
  (placeGlyphAlongLine (offsetOf j) lineOffX lineOffY flip anchorPoint
     tileAnchorPoint (segment symbol) lineStart lineEnd lineVertices
     labelPlaneMatrix None false endGlyph reprojection tileID).
Local Abbreviation sound cache :=
  (forall i p, cache !! i = Some p -> p = point (projected i)).
(** The offset of glyph [j] goes the way of the offset of glyph [k] and is
    not longer. *)
Local Abbreviation within j k :=
  (dir (offsetOf j) lineOffX flip = dir (offsetOf k) lineOffX flip
   /\ (absOffsetX (offsetOf j) lineOffX flip
       <=? absOffsetX (offsetOf k) lineOffX flip) = true).

Hypothesis in_front :
  forall i, (lineStart <= i < lineEnd)%Z ->
            (signedDistanceFromCamera (projected i) >? zero) = true.
Hypothesis between :
  forall j, (firstIndex < j < lastIndex)%Z ->
            within j firstIndex \/ within j lastIndex.

Lemma place_sound (endGlyph : bool) (j : Z) (cache cache1 : ProjectionCache) r :
  sound cache ->
  placeAt endGlyph j cache = Normal (r, cache1) ->
  sound cache1.
Proof.
  intros S P. apply placeGlyphAlongLine_extends in P.
  - destruct P as (_ & New). intros i p Hp.
    destruct (New i p Hp) as [Old | (_ & _ & ->)]; [now apply S | reflexivity].
  - apply andb_false_intro2, bool_decide_eq_false_2. now intros [x [=]].
Qed.

Lemma interior_placed (indices : list Z)
    (cache cF cF' cL cL' : ProjectionCache) (gF gL : PlacedGlyph) :
  sound cF -> placeAt true firstIndex cF = Normal (Some gF, cF') ->
  sound cL -> placeAt true lastIndex cL = Normal (Some gL, cL') ->
  Forall (fun j => (firstIndex < j < lastIndex)%Z) indices ->
  sound cache ->
  exists glyphs cache',
    placeInteriorGlyphs indices (fun j => placeAt false j) cache
    = Normal (Some <$> glyphs, cache').
Proof using in_front between.
  intros SF PF SL PL In. revert cache.
  induction In as [| j indices Hj In IH]; intros cache S;
    cbn [placeInteriorGlyphs].
  - exists [], cache. reflexivity.
  - assert (P : exists g c, placeAt false j cache = Normal (Some g, c)).
    { destruct (between j Hj) as [(D & A) | (D & A)].
      - exact (shorter_offset_fits _ _ _ _ _ _ _ _ _ _ _ _ _ _ _ _ false _ _
                 cF cache cF' gF D A in_front SF S PF).
      - exact (shorter_offset_fits _ _ _ _ _ _ _ _ _ _ _ _ _ _ _ _ false _ _
                 cL cache cL' gL D A in_front SL S PL). }
    destruct P as (g & c & P). rewrite P. cbn [mbind Completion_bind].
    destruct (IH c (place_sound _ _ _ _ _ S P)) as (glyphs & cache' & ->).
    cbn [mbind Completion_bind]. now exists (g :: glyphs), cache'.
Qed.

(** As [placeGlyphsAlongLine] counts on, every glyph is placed once the
    first and the last are. *)
Lemma placeGlyphsAlongLine_returns
    (array : SymbolDynamicLayoutArray) (cache : ProjectionCache) :
  sound cache ->
  exists placed,
    placeGlyphsAlongLine symbol fontSize flip keepUpright posMatrix
      labelPlaneMatrix glCoordMatrix glyphOffsets lineVertices array
      anchorPoint tileAnchorPoint cache aspectRatio None reprojection tileID
    = Normal placed.
Proof using in_front between.
  intros S. unfold placeGlyphsAlongLine. cbv zeta.
  destruct (1 <? numGlyphs symbol)%nat.
  - unfold placeFirstAndLastGlyph. cbv zeta.
    destruct (placeGlyphAlongLine_returns (offsetOf firstIndex) lineOffX
                lineOffY flip anchorPoint tileAnchorPoint (segment symbol)
                lineStart lineEnd lineVertices labelPlaneMatrix None false
                true reprojection tileID cache) as (first & c1 & P1).
    rewrite P1. cbn [mbind Completion_bind].
    destruct first as [first |]; cbn [mbind Completion_bind];
      [| now eexists].
    destruct (placeGlyphAlongLine_returns (offsetOf lastIndex) lineOffX
                lineOffY flip anchorPoint tileAnchorPoint (segment symbol)
                lineStart lineEnd lineVertices labelPlaneMatrix None false
                true reprojection tileID c1) as (last & c2 & P2).
    rewrite P2. cbn [mbind Completion_bind].
    destruct last as [last |]; cbn [mbind Completion_bind]; [| now eexists].
    pose proof (place_sound _ _ _ _ _ S P1) as S1.
    pose proof (place_sound _ _ _ _ _ S1 P2) as S2.
    assert (I : exists glyphs cache',
               placeInteriorGlyphs
                 (seqZ (firstIndex + 1)
                    (firstIndex + Z.of_nat (numGlyphs symbol) - 1
                     - (firstIndex + 1)))
                 (fun j => placeAt false j) c2
               = Normal (Some <$> glyphs, cache')).
    { eapply (interior_placed _ _ cache c1 c1 c2 first last S P1 S1 P2);
        [| exact S2].
      apply Forall_forall. intros j Hj. apply elem_of_seqZ in Hj. lia. }
    destruct I as (glyphs & cache' & I).
    assert (A : forall a : SymbolDynamicLayoutArray,
               exists a',
                 addPlacedGlyphs
                   ([Some first] ++ (Some <$> glyphs) ++ [Some last]) a
                 = Normal a').
    { intros a.
      replace ([Some first] ++ (Some <$> glyphs) ++ [Some last])
        with (Some <$> (first :: glyphs ++ [last]))
        by (cbn; now rewrite fmap_app).
      apply addPlacedGlyphs_returns. }
    destruct (keepUpright && negb flip).
    + destruct (requiresOrientationChange _ _ _ _); [now eexists |].
      cbn [glyphStartIndex set_flipState].
      rewrite I. cbn [mbind Completion_bind].
      destruct (A array) as (a' & ->). cbn [mbind Completion_bind].
      now eexists.
    + rewrite I. cbn [mbind Completion_bind].
      destruct (A array) as (a' & ->). cbn [mbind Completion_bind].
      now eexists.
  - destruct (placeGlyphAlongLine_returns (offsetOf firstIndex) lineOffX
                lineOffY flip anchorPoint tileAnchorPoint (segment symbol)
                lineStart lineEnd lineVertices labelPlaneMatrix None false
                false reprojection tileID cache) as (single & c1 & P1).
    destruct (keepUpright && negb flip).
    + destruct (singleGlyphOrientation _ _ _ _ _ _ _); [now eexists |].
      cbn [glyphStartIndex set_flipState].
      rewrite P1. cbn [mbind Completion_bind].
      destruct single; cbn [mbind Completion_bind addPlacedGlyphs];
        now eexists.
    + rewrite P1. cbn [mbind Completion_bind].
      destruct single; cbn [mbind Completion_bind addPlacedGlyphs];
        now eexists.
Qed.

End InteriorFurther.

(** X14: [placeGlyphsAlongLine] places the glyphs between the first and the
    last without checking for [null], and a [null] among them would make
    the final loop throw.  Without terrain, on a line whose vertices all
    project in front of the plane of the camera and a cache that holds
    projections of line vertices only, the call returns whenever the offset
    of every glyph in between goes the way of the first or of the last
    offset and is not longer. *)
Theorem placeGlyphsAlongLine_places_interior `{MathLib}
    (symbol : PlacedSymbol) (fontSize : num) (flip keepUpright : bool)
    (posMatrix labelPlaneMatrix glCoordMatrix : Mat4)
    (glyphOffsets : list num) (lineVertices : list Point)
    (array : SymbolDynamicLayoutArray)
    (anchorPoint tileAnchorPoint : Point) (cache : ProjectionCache)
    (aspectRatio : num) (reprojection : Projection)
    (tileID : OverscaledTileID) :
  let fontScale := fontSize / fin 24 in
  let lineOffX := lineOffsetX symbol * fontScale in
  let offsetOf j := fontScale * getoffsetX glyphOffsets j in
  let firstIndex := glyphStartIndex symbol in
  let lastIndex :=
    (glyphStartIndex symbol + Z.of_nat (numGlyphs symbol) - 1)%Z in
  let projected i :=
    elevatePointAndProject (lineVertex lineVertices i) (canonical tileID)
      labelPlaneMatrix reprojection None in
  let within j k :=
    dir (offsetOf j) lineOffX flip = dir (offsetOf k) lineOffX flip
    /\ (absOffsetX (offsetOf j) lineOffX flip
        <=? absOffsetX (offsetOf k) lineOffX flip) = true in
  (forall i,
     (lineStartIndex symbol <= i < lineStartIndex symbol + lineLength symbol)%Z ->
     (signedDistanceFromCamera (projected i) >? zero) = true) ->
  (forall j, (firstIndex < j < lastIndex)%Z ->
             within j firstIndex \/ within j lastIndex) ->
  (forall i p, cache !! i = Some p -> p = point (projected i)) ->
  exists placed,
    placeGlyphsAlongLine symbol fontSize flip keepUpright posMatrix
      labelPlaneMatrix glCoordMatrix glyphOffsets lineVertices array
      anchorPoint tileAnchorPoint cache aspectRatio None reprojection tileID
    = Normal placed.
Proof.
  intros fontScale lineOffX offsetOf firstIndex lastIndex projected within
    Front Between Sound.
  now apply placeGlyphsAlongLine_returns.
Qed.

(** ** The properties of the walk on the examples *)

Lemma example_line_in_front (i : Z) :
  (0 <= i < 3)%Z ->
  (signedDistanceFromCamera
     (elevatePointAndProject (lineVertex Example.line i)
        (canonical Example.tile) Example.identity Example.flat None)
   >? zero) = true.
Proof.
  intros Hi.
  assert (E : i = 0%Z \/ i = 1%Z \/ i = 2%Z) by lia.
  destruct E as [-> | [-> | ->]]; vm_compute; reflexivity.
Qed.

Lemma example_empty_cache_sound (i : Z) (p : Point) :
  (∅ : ProjectionCache) !! i = Some p ->
  p = point (elevatePointAndProject (lineVertex Example.line i)
               (canonical Example.tile) Example.identity Example.flat None).
Proof. rewrite lookup_empty. discriminate. Qed.

Lemma placeGlyphAlongLine_cache_witness :
  exists r cache1,
    placeGlyphAlongLine (H := Example.math) (fin 30) zero zero false
      (Point.mk (fin 50) zero) (Point.mk (fin 50) zero) 1 0 3 Example.line
      Example.identity None false false Example.flat Example.tile ∅
    = Normal (r, cache1)
    /\ forall i p,
         cache1 !! i = Some p ->
         (∅ : ProjectionCache) !! i = Some p
         \/ ((0 <= i < 3)%Z
             /\ (signedDistanceFromCamera
                   (elevatePointAndProject (lineVertex Example.line i)
                      (canonical Example.tile) Example.identity Example.flat
                      None) >? zero) = true
             /\ p = point (elevatePointAndProject (lineVertex Example.line i)
                             (canonical Example.tile) Example.identity
                             Example.flat None)).
Proof.
  assert (P : exists r cache1,
    placeGlyphAlongLine (H := Example.math) (fin 30) zero zero false
      (Point.mk (fin 50) zero) (Point.mk (fin 50) zero) 1 0 3 Example.line
      Example.identity None false false Example.flat Example.tile ∅
    = Normal (r, cache1)).
  { vm_compute. eexists _, _. reflexivity. }
  destruct P as (r & cache1 & P). exists r, cache1. split; [exact P |].
  apply (proj2 (placeGlyphAlongLine_cache (H := Example.math) (fin 30) zero
                  zero false (Point.mk (fin 50) zero) (Point.mk (fin 50) zero)
                  1 0 3 Example.line Example.identity None false false
                  Example.flat Example.tile ∅ cache1 r eq_refl P)).
Defined.

Lemma placeGlyphAlongLine_cache_transparent_witness :
  exists r cache1 cache1',
    placeGlyphAlongLine (H := Example.math) (fin 30) zero zero false
      (Point.mk (fin 50) zero) (Point.mk (fin 50) zero) 1 0 3 Example.line
      Example.identity None false false Example.flat Example.tile ∅
    = Normal (r, cache1)
    /\ placeGlyphAlongLine (H := Example.math) (fin 30) zero zero false
         (Point.mk (fin 50) zero) (Point.mk (fin 50) zero) 1 0 3 Example.line
         Example.identity None false false Example.flat Example.tile
         {[ 2%Z := Point.mk (fin 100) zero ]}
       = Normal (r, cache1').
Proof.
  assert (P : exists r cache1,
    placeGlyphAlongLine (H := Example.math) (fin 30) zero zero false
      (Point.mk (fin 50) zero) (Point.mk (fin 50) zero) 1 0 3 Example.line
      Example.identity None false false Example.flat Example.tile ∅
    = Normal (r, cache1)).
  { vm_compute. eexists _, _. reflexivity. }
  destruct P as (r & cache1 & P).
  destruct (placeGlyphAlongLine_cache_transparent (H := Example.math)
              (fin 30) zero zero false (Point.mk (fin 50) zero)
              (Point.mk (fin 50) zero) 1 0 3 Example.line Example.identity
              None false false Example.flat Example.tile
              ∅ {[ 2%Z := Point.mk (fin 100) zero ]} cache1 r)
    as (cache1' & P').
  - reflexivity.
  - reflexivity.
  - intros i p Hp. rewrite lookup_empty in Hp. discriminate.
  - intros i p Hp. apply lookup_singleton_Some in Hp. destruct Hp as (<- & <-).
    split; vm_compute; reflexivity.
  - exact P.
  - exists r, cache1, cache1'. now split.
Defined.

Lemma placeGlyphAlongLine_shorter_fits_witness :
  exists glyph' cache1',
    placeGlyphAlongLine (H := Example.math) (fin 30) zero zero false
      (Point.mk (fin 50) zero) (Point.mk (fin 50) zero) 1 0 3 Example.line
      Example.identity None false false Example.flat Example.tile ∅
    = Normal (Some glyph', cache1').
Proof.
  assert (P : exists glyph cache1,
    placeGlyphAlongLine (H := Example.math) (fin 40) zero zero false
      (Point.mk (fin 50) zero) (Point.mk (fin 50) zero) 1 0 3 Example.line
      Example.identity None false true Example.flat Example.tile ∅
    = Normal (Some glyph, cache1)).
  { vm_compute. eexists _, _. reflexivity. }
  destruct P as (glyph & cache1 & P).
  apply (placeGlyphAlongLine_shorter_fits (H := Example.math) (fin 40)
           (fin 30) zero zero zero false (Point.mk (fin 50) zero)
           (Point.mk (fin 50) zero) 1 0 3 Example.line Example.identity None
           false true false Example.flat Example.tile ∅ ∅ cache1 glyph).
  - reflexivity.
  - reflexivity.
  - exact example_line_in_front.
  - exact example_empty_cache_sound.
  - exact example_empty_cache_sound.
  - exact P.
Defined.

Lemma placeGlyphsAlongLine_places_interior_witness :
  exists placed,
    placeGlyphsAlongLine (H := Example.math) Example.farSymbol (fin 24) false
      false Example.tileToClip Example.identity Example.tileToClip
      [fin 30; fin 30; fin 30] Example.line [] (Point.mk (fin 50) zero)
      (Point.mk (fin 50) zero) ∅ (fin (4 # 3)) None Example.flat Example.tile
    = Normal placed.
Proof.
  apply (placeGlyphsAlongLine_places_interior (H := Example.math)
           Example.farSymbol (fin 24) false false Example.tileToClip
           Example.identity Example.tileToClip [fin 30; fin 30; fin 30]
           Example.line [] (Point.mk (fin 50) zero) (Point.mk (fin 50) zero)
           ∅ (fin (4 # 3)) Example.flat Example.tile).
  - exact example_line_in_front.
  - intros j Hj. cbn in Hj. assert (E : j = 1%Z) by lia. subst j.
    left. split; vm_compute; reflexivity.
  - exact example_empty_cache_sound.
Defined.

(** ** The features a query finds *)

Section QueryFurther.
Context (polygonIntersectsPolygon : list Point -> list Point -> bool).

Local Abbreviation bucketOf e := (Grid.bucketInstanceId (Grid.key e)).
Local Abbreviation indexOf e := (Grid.featureIndex (Grid.key e)).
Local Abbreviation seenIn seen b := (default (∅ : gset Z) ((seen : SeenFeatures) !! b)).
Local Abbreviation foundIn result b :=
  (default ([] : list Z) ((result : QueryResult) !! b)).
Local Abbreviation hit query e :=
  (polygonIntersectsPolygon query (featureBox e) = true).

(** What holds of the two objects of the loop once it has passed the
    features [passed]. *)
Local Abbreviation passedBy query passed seen result :=
  ((forall b f, f ∈ seenIn seen b <-> f ∈ foundIn result b)
   /\ (forall b f,
         f ∈ foundIn result b
         <-> exists e, e ∈ passed /\ bucketOf e = b /\ indexOf e = f
                       /\ hit query e)
   /\ (forall b fs, result !! b = Some fs -> NoDup fs /\ fs <> [])).

Lemma seen_initialised (seen : SeenFeatures) (b b' : Z) :
  seenIn (match seen !! b with
          | None => <[b := ∅]> seen
          | Some _ => seen
          end) b'
  = seenIn seen b'.
Proof.
  destruct (seen !! b) eqn:E; [reflexivity |].
  destruct (decide (b' = b)) as [-> | Ne].
  - now rewrite lookup_insert_eq, E.
  - now rewrite lookup_insert_ne by congruence.
Qed.

Lemma found_initialised (result : QueryResult) (b b' : Z) :
  foundIn (match result !! b with
           | None => <[b := []]> result
           | Some _ => result
           end) b'
  = foundIn result b'.
Proof.
  destruct (result !! b) eqn:E; [reflexivity |].
  destruct (decide (b' = b)) as [-> | Ne].
  - now rewrite lookup_insert_eq, E.
  - now rewrite lookup_insert_ne by congruence.
Qed.

Lemma queryFeature_passes query passed seen result e :
  passedBy query passed seen result ->
  passedBy query (passed ++ [e])
    (fst (queryFeature polygonIntersectsPolygon query (seen, result) e))
    (snd (queryFeature polygonIntersectsPolygon query (seen, result) e)).
Proof.
  intros (Seen & Found & Lists). unfold queryFeature. cbv zeta.
  rewrite !seen_initialised, found_initialised.
  assert (Old : forall b f,
             (exists e', e' ∈ passed /\ bucketOf e' = b /\ indexOf e' = f
                         /\ hit query e')
             -> exists e', e' ∈ passed ++ [e] /\ bucketOf e' = b
                           /\ indexOf e' = f /\ hit query e').
  { intros b f (e' & In & R). exists e'. split; [| exact R].
    apply elem_of_app. now left. }
  destruct (bool_decide (indexOf e ∈ seenIn seen (bucketOf e))) eqn:Was.
  - (* seen before *)
    apply bool_decide_eq_true in Was. cbn [fst snd].
    split; [| split; [| exact Lists]].
    + intros b f. rewrite seen_initialised. apply Seen.
    + intros b f. split.
      * intros In. apply Old, Found, In.
      * intros (e' & In & Eb & Ef & Hit).
        apply elem_of_app in In. destruct In as [In | In].
        -- apply Found. now exists e'.
        -- apply list_elem_of_singleton in In. subst e'. subst b f.
           now apply Seen.
  - apply bool_decide_eq_false in Was.
    destruct (polygonIntersectsPolygon query (featureBox e)) eqn:Hit;
      cbn [negb fst snd].
    + (* a new feature of the result *)
      split; [| split].
      * intros b f. destruct (decide (b = bucketOf e)) as [-> | Ne].
        -- rewrite !lookup_insert_eq. cbn [default from_option id].
           rewrite elem_of_union, elem_of_singleton, elem_of_app,
             list_elem_of_singleton, Seen. tauto.
        -- rewrite !lookup_insert_ne by congruence.
           rewrite seen_initialised, found_initialised. apply Seen.
      * intros b f. destruct (decide (b = bucketOf e)) as [-> | Ne].
        -- rewrite lookup_insert_eq. cbn [default from_option id].
           rewrite elem_of_app, list_elem_of_singleton. split.
           ++ intros [In | ->].
              ** apply Old, Found, In.
              ** exists e. split; [apply elem_of_app; right; now left |].
                 now repeat split.
           ++ intros (e' & In & Eb & Ef & Hit').
              apply elem_of_app in In. destruct In as [In | In].
              ** left. apply Found. now exists e'.
              ** apply list_elem_of_singleton in In. subst e'. now right.
        -- rewrite lookup_insert_ne by congruence.
           rewrite found_initialised. split.
           ++ intros In. apply Old, Found, In.
           ++ intros (e' & In & Eb & Ef & Hit').
              apply elem_of_app in In. destruct In as [In | In].
              ** apply Found. now exists e'.
              ** apply list_elem_of_singleton in In. subst e'. congruence.
      * intros b fs. destruct (decide (b = bucketOf e)) as [-> | Ne].
        -- rewrite lookup_insert_eq. intros [= <-]. split.
           ++ apply NoDup_app. split; [| split].
              ** destruct (result !! bucketOf e) as [fs |] eqn:R;
                   cbn [default from_option id]; [| constructor].
                 now apply (Lists _ _ R).
              ** intros f In In'. apply list_elem_of_singleton in In'.
                 subst f. apply Was, Seen, In.
              ** apply NoDup_singleton.
           ++ intros E. now apply app_eq_nil in E as (_ & [=]).
        -- rewrite lookup_insert_ne by congruence.
           destruct (result !! bucketOf e) eqn:R; [apply Lists |].
           rewrite lookup_insert_ne by congruence. apply Lists.
    + (* no intersection *)
      split; [| split; [| exact Lists]].
      * intros b f. rewrite seen_initialised. apply Seen.
      * intros b f. split.
        -- intros In. apply Old, Found, In.
        -- intros (e' & In & Eb & Ef & Hit').
           apply elem_of_app in In. destruct In as [In | In].
           ++ apply Found. now exists e'.
           ++ apply list_elem_of_singleton in In. subst e'. congruence.
Qed.

Lemma query_loop_passes query features passed seen result :
  passedBy query passed seen result ->
  passedBy query (passed ++ features)
    (fst (fold_left (queryFeature polygonIntersectsPolygon query) features
            (seen, result)))
    (snd (fold_left (queryFeature polygonIntersectsPolygon query) features
            (seen, result))).
Proof.
  revert passed seen result.
  induction features as [| e features IH]; intros passed seen result P.
  - rewrite app_nil_r. exact P.
  - cbn [fold_left].
    replace (passed ++ e :: features) with ((passed ++ [e]) ++ features)
      by now rewrite <- app_assoc.
    pose proof (queryFeature_passes _ _ _ _ e P) as P'.
    destruct (queryFeature _ _ _ e) as [seen' result'].
    now apply IH.
Qed.

(** X15: what [queryRenderedSymbols] returns.  For a query with no point,
    or on two grids without keys, it is the empty object.  Otherwise a
    feature index is listed under a bucket exactly when one of the features
    that the two grid queries return has that bucket and that index and a
    box that intersects the query polygon in grid coordinates; no index is
    listed twice under a bucket, and no bucket is listed with an empty
    list. *)
Theorem queryRenderedSymbols_result {FogState : Type}
    (keysLength : Grid.t -> Z)
    (gridQuery : num -> num -> num -> num -> Grid.t -> list Grid.Entry)
    (ci : CollisionIndex (FogState := FogState))
    (viewportQueryGeometry : list Point) :
  let result :=
    queryRenderedSymbols keysLength gridQuery polygonIntersectsPolygon ci
      viewportQueryGeometry in
  let '(query, (minX, minY, maxX, maxY)) :=
    queryBounds viewportQueryGeometry in
  let features :=
    gridQuery minX minY maxX maxY (grid ci)
    ++ gridQuery minX minY maxX maxY (ignoredGrid ci) in
  if bool_decide (viewportQueryGeometry = [])
     || bool_decide (keysLength (grid ci) = 0%Z
                     /\ keysLength (ignoredGrid ci) = 0%Z)
  then result = ∅
  else
    (forall b f,
       (exists fs, result !! b = Some fs /\ f ∈ fs)
       <-> exists e, e ∈ features /\ bucketOf e = b /\ indexOf e = f
                     /\ hit query e)
    /\ (forall b fs, result !! b = Some fs -> NoDup fs /\ fs <> []).
Proof.
  unfold queryRenderedSymbols.
  destruct (queryBounds viewportQueryGeometry)
    as [query [[[minX minY] maxX] maxY]].
  replace (bool_decide (List.length viewportQueryGeometry = 0%nat))
    with (bool_decide (viewportQueryGeometry = []))
    by (apply bool_decide_ext; now destruct viewportQueryGeometry).
  replace ((keysLength (grid ci) =? 0)%Z && (keysLength (ignoredGrid ci) =? 0)%Z)
    with (bool_decide (keysLength (grid ci) = 0%Z
                       /\ keysLength (ignoredGrid ci) = 0%Z)).
  2: { destruct (Z.eqb_spec (keysLength (grid ci)) 0),
         (Z.eqb_spec (keysLength (ignoredGrid ci)) 0); cbn;
         [apply bool_decide_eq_true_2 | apply bool_decide_eq_false_2 ..];
         tauto. }
  destruct (_ || _); [reflexivity |].
  set (features := _ ++ _).
  destruct (query_loop_passes query features [] ∅ ∅) as (_ & Found & Lists).
  { split; [| split].
    - intros b f. now rewrite !lookup_empty.
    - intros b f. rewrite lookup_empty. cbn. split.
      + intros In. now apply elem_of_nil in In.
      + intros (e & In & _). now apply elem_of_nil in In.
    - intros b fs. now rewrite lookup_empty. }
  rewrite app_nil_l in Found. split; [| exact Lists].
  intros b f. rewrite <- Found. split.
  - intros (fs & -> & In). exact In.
  - intros In. destruct (_ !! b) as [fs |]; [now exists fs |].
    now apply elem_of_nil in In.
Qed.

End QueryFurther.

(** ** The viewport matrix *)

(** X16: [getViewportMatrix] takes the viewport padding off: it maps a
    finite point [(x, y, z, 1)] of the grid to
    [(x - viewportPadding, y - viewportPadding, z, 1)], its place in the
    viewport. *)
Theorem getViewportMatrix_removes_padding (x y z : Q) :
  transformMat4 (mkVec4 (Fin x) (Fin y) (Fin z) one) getViewportMatrix
  = mkVec4 (Fin x - viewportPadding) (Fin y - viewportPadding) (fin z) one.
Proof.
  unfold transformMat4, getViewportMatrix, mat4_translate, mat4_identity,
    viewportPadding.
  cbn [mat_get nth map seq app].
  unfold one, zero. cbn [add sub mul neg fin].
  f_equal; refine (fin_eq _ _ _); rewrite ?Qred_correct; ring.
Qed.

(** ** The retain range and the direction of the line *)

Lemma sub_Fin (a b : Q) : Fin a - Fin b = fin (a - b).
Proof. cbn. apply fin_eq. rewrite Qred_correct. reflexivity. Qed.

Lemma mul_fin (a b : Q) : fin a * Fin b = fin (a * b).
Proof. cbn. apply fin_eq. now rewrite Qred_correct. Qed.

Lemma fin_eqb_zero (q : Q) : (fin q =? zero) = Qeq_bool q 0.
Proof.
  unfold fin, zero, fin. cbn.
  destruct (Qeq_bool q 0) eqn:E.
  - apply Qeq_bool_iff. apply Qeq_bool_iff in E.
    now rewrite !Qred_correct.
  - apply not_true_iff_false. intros E'. apply Qeq_bool_iff in E'.
    rewrite !Qred_correct in E'. apply Qeq_bool_iff in E'. congruence.
Qed.

(** X17: the retain range of the flip decision belongs to the line and not
    to the direction in which the glyphs run along it: for points with
    finite coordinates and a finite aspect ratio, [isInFlipRetainRange]
    gives the same answer when the first and the last point change
    places. *)
Theorem isInFlipRetainRange_symmetric `{MathLib} (ax ay bx by' r : Q) :
  isInFlipRetainRange (Point.mk (Fin ax) (Fin ay))
    (Point.mk (Fin bx) (Fin by')) (Fin r)
  = isInFlipRetainRange (Point.mk (Fin bx) (Fin by'))
      (Point.mk (Fin ax) (Fin ay)) (Fin r).
Proof.
  unfold isInFlipRetainRange. cbn [Point.x Point.y].
  rewrite !sub_Fin, !mul_fin, !fin_eqb_zero.
  assert (Opp : Qeq ((bx - ax) * r) (- ((ax - bx) * r))) by ring.
  assert (Z0 : Qeq_bool ((bx - ax) * r) 0 = Qeq_bool ((ax - bx) * r) 0).
  { destruct (Qeq_bool ((ax - bx) * r) 0) eqn:E.
    - apply Qeq_bool_iff. apply Qeq_bool_iff in E.
      rewrite Opp, E. reflexivity.
    - apply not_true_iff_false. intros E'. apply Qeq_bool_iff in E'.
      apply not_true_iff_false in E. apply E. apply Qeq_bool_iff.
      rewrite Opp in E'. lra. }
  rewrite Z0. destruct (Qeq_bool ((ax - bx) * r) 0) eqn:E; [reflexivity |].
  assert (N : ~ Qeq ((ax - bx) * r) 0).
  { intros E'. apply Qeq_bool_iff in E'. congruence. }
  assert (N' : ~ Qeq ((bx - ax) * r) 0).
  { intros E'. apply N. rewrite Opp in E'. lra. }
  unfold fin at 1 2 3 4.
  rewrite !div_Fin by (now rewrite Qred_correct).
  unfold JS.abs, fin at 1 3. f_equal. apply fin_eq.
  rewrite !Qred_correct.
  assert (T : Qeq ((by' - ay) / ((bx - ax) * r))
                  ((ay - by') / ((ax - bx) * r))).
  { assert (Nr : ~ Qeq r 0) by (intros X; apply N; rewrite X; ring).
    assert (Nd : ~ Qeq (ax - bx) 0) by (intros X; apply N; rewrite X; ring).
    assert (Nd' : ~ Qeq (bx - ax) 0) by (intros X; apply N'; rewrite X; ring).
    field. repeat split; assumption. }
  now rewrite T.
Qed.

(** On the example, the feature with two boxes is listed once, the features
    of a bucket are listed in the order of the grid, the ignored grid is
    asked as well, and the box far away is not found. *)
Example query_scenario :
  queryRenderedSymbols QueryExample.keysLength QueryExample.gridQuery
    QueryExample.polygonIntersectsPolygon QueryExample.index
    QueryExample.square
  = {[ 1%Z := [7%Z; 8%Z]; 2%Z := [3%Z] ]}.
Proof. vm_compute. reflexivity. Qed.

(** ** The loop and the path of a glyph *)

Lemma abs_nonnegative (x : num) : x <> NaN -> (zero <=? JS.abs x) = true.
Proof.
  destruct x as [| | q |]; intros N; try reflexivity; [congruence |].
  unfold JS.abs, zero, fin. apply leb_Fin.
  rewrite !Qred_correct. apply Qabs_nonneg.
Qed.

Section PathFurther.
Context `{MathLib}.
Context (offsetX lineOffX lineOffY : num) (flip : bool)
        (anchorPoint tileAnchorPoint : Point)
        (anchorSegment lineStart lineEnd : Z)
        (lineVertices : list Point) (labelPlaneMatrix : Mat4)
        (getElevation : option ElevationFn)
        (returnPathInTileCoords endGlyph : bool)
        (reprojection : Projection) (tileID : OverscaledTileID).

Local Abbreviation step :=
  (walk_step offsetX lineOffX flip tileAnchorPoint lineStart lineEnd
     lineVertices labelPlaneMatrix getElevation returnPathInTileCoords
     reprojection tileID).
Local Abbreviation loop :=
  (walk offsetX lineOffX flip tileAnchorPoint lineStart lineEnd lineVertices
     labelPlaneMatrix getElevation returnPathInTileCoords reprojection tileID).
Local Abbreviation init :=
  (walk_init offsetX lineOffX flip anchorPoint tileAnchorPoint anchorSegment
     lineStart).
Local Abbreviation continues := (walk_continues offsetX lineOffX flip).
Local Abbreviation finish :=
  (truncate_end offsetX lineOffX flip tileAnchorPoint lineVertices
     labelPlaneMatrix getElevation endGlyph reprojection tileID).
Local Abbreviation place :=
  (placeGlyphAlongLine offsetX lineOffX lineOffY flip anchorPoint
     tileAnchorPoint anchorSegment lineStart lineEnd lineVertices
     labelPlaneMatrix getElevation returnPathInTileCoords endGlyph
     reprojection tileID).

(** X18: the loop of [placeGlyphAlongLine] ends.  It ends within as many
    passes as the line of the symbol has vertices, and one more, whatever
    the offset, the matrix and the cache are: that many passes allowed, the
    loop is left by its condition or by [return null], and allowing more
    passes changes nothing. *)
Theorem placeGlyphAlongLine_loop_bound (cache : ProjectionCache) (more : nat) :
  exists r,
    loop (walk_fuel lineStart lineEnd) (init cache) = Normal r
    /\ loop (walk_fuel lineStart lineEnd + more) (init cache) = Normal r.
Proof.
  destruct (walk_init_returns offsetX lineOffX flip anchorPoint
              tileAnchorPoint anchorSegment lineStart lineEnd lineVertices
              labelPlaneMatrix getElevation returnPathInTileCoords
              reprojection tileID cache) as (r & L).
  exists r. split; [exact L |]. now apply walk_fuel_enough.
Qed.

(** What one pass adds to the two paths. *)
Lemma step_paths (w w' : Walk) :
  step w = Normal (Some w') ->
  pathVertices w' = pathVertices w ++ [current w]
  /\ List.length (tilePath w')
     = (List.length (tilePath w)
        + (if returnPathInTileCoords then 1 else 0))%nat.
Proof.
  unfold walk_step. cbv zeta.
  destruct (_ || _); [discriminate |].
  match goal with
  | |- context [if returnPathInTileCoords then ?a else ?b] =>
      set (w2 := if returnPathInTileCoords then a else b)
  end.
  assert (P : pathVertices w2 = pathVertices w ++ [current w]
              /\ List.length (tilePath w2)
                 = (List.length (tilePath w)
                    + (if returnPathInTileCoords then 1 else 0))%nat).
  { subst w2. destruct returnPathInTileCoords;
      cbn [push_tilePath pathVertices tilePath]; split; try reflexivity.
    - now rewrite length_app.
    - lia. }
  destruct (projectionCache w2 !! _).
  - cbn [mbind Completion_bind]. intros [= <-]. exact P.
  - destruct (_ >? zero).
    + cbn [mbind Completion_bind]. intros [= <-]. exact P.
    + destruct (getTruncatedLineSegment _ _ _ _ _ _ _ _ _ _)
        as [truncated | |]; try discriminate.
      cbn [mbind Completion_bind]. intros [= <-]. exact P.
Qed.

(** The two paths of a walk: nothing yet, at the anchor, or a path from the
    anchor on. *)
Local Abbreviation on_the_way w :=
  (List.length (tilePath w)
   = (if returnPathInTileCoords then List.length (pathVertices w) else 0%nat)
   /\ ((pathVertices w = [] /\ distanceToPrev w = zero
        /\ currentSegmentDistance w = zero /\ current w = anchorPoint)
       \/ head (pathVertices w) = Some anchorPoint)).

Lemma step_on_the_way (w w' : Walk) :
  on_the_way w -> step w = Normal (Some w') ->
  List.length (tilePath w')
  = (if returnPathInTileCoords then List.length (pathVertices w') else 0)%nat
  /\ head (pathVertices w') = Some anchorPoint.
Proof.
  intros (T & P) S. apply step_paths in S. destruct S as (-> & ->).
  split.
  - rewrite T, length_app. cbn. now destruct returnPathInTileCoords.
  - destruct P as [(-> & _ & _ & ->) | P]; [reflexivity |].
    destruct (pathVertices w); [discriminate | exact P].
Qed.

Lemma walk_on_the_way (fuel : nat) (w w' : Walk) :
  on_the_way w ->
  loop fuel w = Normal (true, w') ->
  on_the_way w' /\ continues w' = false.
Proof.
  revert w. induction fuel as [| fuel IH]; intros w W; cbn [walk];
    destruct (continues w) eqn:C; try discriminate.
  - intros [= <-]. now split.
  - destruct (step w) as [[next |] | |] eqn:S;
      cbn [mbind Completion_bind]; try discriminate.
    apply IH. destruct (step_on_the_way _ _ W S) as (T & P). split; auto.
  - intros [= <-]. now split.
Qed.

Lemma finish_paths (w w' : Walk) :
  finish w = Normal w' ->
  pathVertices w' = pathVertices w /\ tilePath w' = tilePath w.
Proof.
  unfold truncate_end. destruct (_ && _); [| now intros [= <-]].
  cbv zeta. destruct (_ !! _).
  - destruct (getTruncatedLineSegment _ _ _ _ _ _ _ _ _ _)
      as [truncated | |]; try discriminate.
    cbn [mbind Completion_bind]. now intros [= <-].
  - cbn [mbind Completion_bind]. now intros [= <-].
Qed.

(** X19: the shape of a glyph that [placeGlyphAlongLine] returns, when the
    combined offset is a number: its path starts at the anchor, ends at the
    point of the glyph and has at least two points; its path in tile
    coordinates has as many points as the path when it was asked for, and
    none otherwise. *)
Theorem placeGlyphAlongLine_path (cache cache1 : ProjectionCache)
    (glyph : PlacedGlyph) :
  combinedOffsetX offsetX lineOffX flip <> NaN ->
  place cache = Normal (Some glyph, cache1) ->
  head (glyph_path glyph) = Some anchorPoint
  /\ last (glyph_path glyph) = Some (glyph_point glyph)
  /\ (2 <= List.length (glyph_path glyph))%nat
  /\ List.length (glyph_tilePath glyph)
     = (if returnPathInTileCoords then List.length (glyph_path glyph)
        else 0)%nat.
Proof.
  intros Number. unfold placeGlyphAlongLine.
  destruct (walk _ _ _ _ _ _ _ _ _ _ _ _ _ _) as [[[|] w] | |] eqn:W;
    cbn [mbind Completion_bind]; try discriminate.
  destruct (finish w) as [w' | |] eqn:F;
    cbn [mbind Completion_bind]; try discriminate.
  intros [= <- _].
  apply walk_on_the_way in W.
  2: { cbn [walk_init tilePath pathVertices distanceToPrev
              currentSegmentDistance current].
       split; [now destruct returnPathInTileCoords | left; now repeat split]. }
  destruct W as ((T & P) & C).
  destruct P as [(_ & D & S & _) | P].
  { unfold walk_continues in C. rewrite D, S in C.
    change (zero + zero) with zero in C.
    unfold absOffsetX in C. now rewrite abs_nonnegative in C. }
  apply finish_paths in F. destruct F as (Pw & Tw).
  unfold glyph_on_segment.
  cbn [glyph_path glyph_point glyph_tilePath]. rewrite Pw, Tw.
  destruct (pathVertices w) as [| a vertices] eqn:Vs; [discriminate |].
  injection P as ->.
  split; [reflexivity |]. split; [apply last_snoc |].
  split; [rewrite length_app; cbn; lia |].
  destruct returnPathInTileCoords; [| exact T].
  rewrite !length_app, T. reflexivity.
Qed.

End PathFurther.

Lemma placeGlyphAlongLine_path_witness :
  exists glyph cache1,
    placeGlyphAlongLine (H := Example.math) (fin 30) zero zero false
      (Point.mk (fin 50) zero) (Point.mk (fin 50) zero) 1 0 3 Example.line
      Example.identity None true false Example.flat Example.tile ∅
    = Normal (Some glyph, cache1)
    /\ List.length (glyph_tilePath glyph) = List.length (glyph_path glyph).
Proof.
  assert (P : exists glyph cache1,
    placeGlyphAlongLine (H := Example.math) (fin 30) zero zero false
      (Point.mk (fin 50) zero) (Point.mk (fin 50) zero) 1 0 3 Example.line
      Example.identity None true false Example.flat Example.tile ∅
    = Normal (Some glyph, cache1)).
  { vm_compute. eexists _, _. reflexivity. }
  destruct P as (glyph & cache1 & P). exists glyph, cache1.
  split; [exact P |].
  apply (placeGlyphAlongLine_path (H := Example.math) (fin 30) zero zero
           false (Point.mk (fin 50) zero) (Point.mk (fin 50) zero) 1 0 3
           Example.line Example.identity None true false Example.flat
           Example.tile ∅ cache1 glyph).
  - discriminate.
  - exact P.
Defined.
